(** * helix-assist: the completion request lifecycle, its text helpers
      and the Ollama candidate cleaner, embedded in Rocq.

    Go strings are byte sequences: they are modelled as [list ascii]
    (one [ascii] per byte).  Go [int] values are modelled as [Z]: the
    integers computed below are string and slice lengths and their sums
    with cursor coordinates, which stay far from the bounds of [int], so
    they are not wrapped; the [atomic.Uint64] request counter is, and its
    wrap-around is written out. *)

From Stdlib Require Import ZArith Ascii String Lia Bool.
From stdpp Require Import gmap strings list.

Local Open Scope Z_scope.

Abbreviation gostring := (list ascii).

(** A literal: [str "abc"] is the Go string ["abc"]. *)
Definition str (s : string) : gostring := list_ascii_of_string s.

Definition LF : ascii := ascii_of_nat 10.
Definition TAB : ascii := ascii_of_nat 9.
Definition SP : ascii := ascii_of_nat 32.

(** Go's [len] on strings and slices. *)
Definition len {A} (l : list A) : Z := Z.of_nat (length l).

(** ** The [strings] package, as far as the sources use it *)
Module Strings.

(** [strings.Split(s, "\n")]: always at least one piece. *)
Fixpoint Split (s : gostring) : list gostring :=
  match s with
  | [] => [[]]
  | c :: r =>
      if Ascii.eqb c LF then [] :: Split r
      else match Split r with
           | h :: t => (c :: h) :: t
           | [] => [[c]]
           end
  end.

(** [strings.Join(parts, "\n")]. *)
Fixpoint Join (parts : list gostring) : gostring :=
  match parts with
  | [] => []
  | [x] => x
  | x :: rest => x ++ LF :: Join rest
  end.

Fixpoint HasPrefix (s p : gostring) : bool :=
  match p, s with
  | [], _ => true
  | _ :: _, [] => false
  | a :: p', b :: s' => Ascii.eqb a b && HasPrefix s' p'
  end.

Definition HasSuffix (s p : gostring) : bool :=
  HasPrefix (rev s) (rev p).

Definition TrimPrefix (s p : gostring) : gostring :=
  if HasPrefix s p then skipn (length p) s else s.

(** Membership of a byte in an ASCII cutset. *)
Definition inCutset (cutset : gostring) (c : ascii) : bool :=
  existsb (Ascii.eqb c) cutset.

(** [strings.TrimLeft(s, cutset)] for an ASCII cutset (all the cutsets
    of the sources are ASCII, for which Go trims byte by byte). *)
Fixpoint TrimLeft (s cutset : gostring) : gostring :=
  match s with
  | [] => []
  | c :: r => if inCutset cutset c then TrimLeft r cutset else s
  end.

Definition TrimRight (s cutset : gostring) : gostring :=
  rev (TrimLeft (rev s) cutset).

Definition Trim (s cutset : gostring) : gostring :=
  TrimRight (TrimLeft s cutset) cutset.

(** The UTF-8 encodings of the code points with Unicode's White_Space
    property, which is what [unicode.IsSpace] accepts: U+0009..U+000D,
    U+0020, U+0085, U+00A0, U+1680, U+2000..U+200A, U+2028, U+2029,
    U+202F, U+205F, U+3000. *)
Definition bytes (l : list nat) : gostring := map ascii_of_nat l.

Definition unicodeSpaces : list gostring :=
  map bytes
    [ [9]; [10]; [11]; [12]; [13]; [32];
      [194; 133]; [194; 160]; [225; 154; 128];
      [226; 128; 128]; [226; 128; 129]; [226; 128; 130]; [226; 128; 131];
      [226; 128; 132]; [226; 128; 133]; [226; 128; 134]; [226; 128; 135];
      [226; 128; 136]; [226; 128; 137]; [226; 128; 138];
      [226; 128; 168]; [226; 128; 169]; [226; 128; 175];
      [226; 129; 159]; [227; 128; 128] ]%nat.

(** Number of bytes of the white-space rune [s] starts with, 0 if it
    starts with none. *)
Definition spaceWidth (s : gostring) : nat :=
  match find (HasPrefix s) unicodeSpaces with
  | Some p => length p
  | None => 0%nat
  end.

(** The same for the rune [s] ends with, on the reversed string. *)
Definition spaceWidthRev (r : gostring) : nat :=
  match find (fun p => HasPrefix r (rev p)) unicodeSpaces with
  | Some p => length p
  | None => 0%nat
  end.

Fixpoint trimSpaceLeft (fuel : nat) (s : gostring) : gostring :=
  match fuel with
  | O => s
  | S f => match spaceWidth s with
           | O => s
           | k => trimSpaceLeft f (skipn k s)
           end
  end.

Fixpoint trimSpaceRev (fuel : nat) (r : gostring) : gostring :=
  match fuel with
  | O => r
  | S f => match spaceWidthRev r with
           | O => r
           | k => trimSpaceRev f (skipn k r)
           end
  end.

(** [strings.TrimSpace]: leading, then trailing white-space runes. *)
Definition TrimSpace (s : gostring) : gostring :=
  let l := trimSpaceLeft (length s) s in
  rev (trimSpaceRev (length l) (rev l)).

(** [strings.Index(s, sub)], [None] for Go's -1. *)
Fixpoint Index (s sub : gostring) : option nat :=
  if HasPrefix s sub then Some 0%nat
  else match s with
       | [] => None
       | _ :: r => option_map S (Index r sub)
       end.

Definition Contains (s sub : gostring) : bool :=
  match Index s sub with Some _ => true | None => false end.

(** [strings.ToLower] on ASCII letters; bytes from 0x80 on are kept as
    they are (exact for ASCII text, and for UTF-8 text without
    upper-case letters outside ASCII). *)
Definition lowerByte (c : ascii) : ascii :=
  let n := nat_of_ascii c in
  if ((65 <=? n) && (n <=? 90))%nat then ascii_of_nat (n + 32) else c.

Definition ToLower (s : gostring) : gostring := map lowerByte s.

(** [strings.Fields]: the maximal runs of bytes free of white-space
    runes.  [cur] is the field being read, reversed. *)
Fixpoint fieldsFrom (fuel : nat) (s cur : gostring) : list gostring :=
  let flush := match cur with [] => [] | _ => [rev cur] end in
  match fuel with
  | O => flush
  | S f =>
      match s with
      | [] => flush
      | c :: r =>
          match spaceWidth s with
          | O => fieldsFrom f r (c :: cur)
          | k => flush ++ fieldsFrom f (skipn k s) []
          end
      end
  end.

Definition Fields (s : gostring) : list gostring :=
  fieldsFrom (length s) s [].

Definition eqb (a b : gostring) : bool := bool_decide (a = b).

End Strings.

Import Strings.

(** ** [internal/util]: the text-window extractor *)

Record ContentParts := mkContentParts {
  ContentBefore : gostring;
  ContentAfter : gostring;
  LastCharacter : gostring;
  LastLine : gostring;
  ContentImmediatelyAfter : gostring
}.

(** [string(b)] for a byte [b]: the UTF-8 encoding of the code point
    whose number is [b] (one byte below 0x80, two bytes from there on). *)
Definition stringOfByte (b : ascii) : gostring :=
  let n := nat_of_ascii b in
  if (n <? 128)%nat then [b]
  else [ascii_of_nat (192 + n / 64); ascii_of_nat (128 + n mod 64)].

(** [GetContent]; [None] is a run-time panic (slice bounds out of range). *)
Definition GetContent (contents : gostring) (line column : Z)
  : option ContentParts :=
  let lines := Split contents in
  let line := if line <? 0 then 0 else line in
  let line := if line >=? len lines then len lines - 1 else line in
  let beforeLines := firstn (Z.to_nat (line + 1)) lines in
  let cur := nth (Z.to_nat line) beforeLines [] in
  let beforeLines :=
    if (column >=? 0) && (column <? len cur)
    then <[Z.to_nat line := firstn (Z.to_nat column) cur]> beforeLines
    else beforeLines in
  let lastLine := nth (length beforeLines - 1) beforeLines [] in
  let contentBefore := Join beforeLines in
  let contentAfter :=
    if line + 1 <? len lines
    then Join (skipn (Z.to_nat (line + 1)) lines) else [] in
  let lastCharacter :=
    match rev contentBefore with
    | b :: _ => stringOfByte b
    | [] => []
    end in
  if (line <? len lines) && (column <? len (nth (Z.to_nat line) lines []))
  then
    if column <? 0 then None
    else Some (mkContentParts contentBefore contentAfter lastCharacter lastLine
                 (skipn (Z.to_nat column) (nth (Z.to_nat line) lines [])))
  else Some (mkContentParts contentBefore contentAfter lastCharacter lastLine []).

(** The last byte of [s] converted as [GetContent] converts it. *)
Definition lastCharOf (s : gostring) : gostring :=
  match rev s with b :: _ => stringOfByte b | [] => [] end.

(** ** [internal/lsp]: the protocol records the handler builds *)

Record Position := mkPosition { Line : Z; Character : Z }.

(** [End_] is the field [End]. *)
Record Range := mkRange { Start : Position; End_ : Position }.

(** [EditRange] is the field [Range]. *)
Record TextEdit := mkTextEdit { EditRange : Range; NewText : gostring }.

Record CompletionItem := mkCompletionItem {
  Label : gostring;
  Kind : Z;
  Detail : gostring;
  InsertTextFormat : Z;
  MainEdit : option TextEdit;          (* the [TextEdit] pointer field *)
  SortText : gostring;
  Preselect : bool;
  AdditionalTextEdits : list TextEdit
}.

(** ** [internal/handlers]: the skip filter and the response assembler *)

Definition shouldSkip (content : ContentParts) (fullText : gostring) : bool :=
  let lastChar := LastCharacter content in
  if Strings.eqb lastChar (str ".") then true
  else
    let lastLine := TrimSpace (LastLine content) in
    if HasPrefix lastLine (str "//") || HasPrefix lastLine (str "#") then true
    else
      let trimmedLine := TrimSpace (LastLine content) in
      if Strings.eqb trimmedLine [] then true
      else if len trimmedLine <? 2 then true
      else false.

(** The loop of [findOverlapSuffix]: [i] counts down from [maxOverlap]. *)
Fixpoint overlapLoop (hint suffix : gostring) (i : nat) : nat :=
  match i with
  | O => O
  | S j =>
      if Strings.eqb (skipn (length hint - i) hint) (firstn i suffix)
      then i
      else overlapLoop hint suffix j
  end.

Definition findOverlapSuffix (hint suffix : gostring) : Z :=
  if Strings.eqb suffix [] then 0
  else
    let hint := TrimRight hint [SP; TAB] in
    let maxOverlap := length hint in
    let maxOverlap :=
      if (length suffix <? maxOverlap)%nat then length suffix else maxOverlap in
    Z.of_nat (overlapLoop hint suffix maxOverlap).

(** The hint after the trimming and the removal of a repeated current
    line, the first steps of [buildCompletionItem]. *)
Definition trimHint (hint : gostring) (content : ContentParts) : gostring :=
  let hint := TrimLeft hint [LF] in
  let hint := TrimRight hint [SP; TAB; LF] in
  let lastLineTrimmed := TrimSpace (LastLine content) in
  if negb (Strings.eqb lastLineTrimmed [])
     && HasPrefix (TrimSpace hint) lastLineTrimmed
  then TrimSpace (skipn (length lastLineTrimmed) hint)
  else hint.

Definition buildCompletionItem (hint : gostring) (content : ContentParts)
    (position : Position) (index : Z) : CompletionItem :=
  let hint := trimHint hint content in
  let lines := Split hint in
  let endLine := Line position + len lines - 1 in
  let endChar := len (nth (length lines - 1) lines []) in
  let endChar :=
    if endLine =? Line position then endChar + Character position
    else endChar in
  let label := str "AI: " ++ nth 0 lines [] in
  let label :=
    if len label >? 40 then firstn 40 label ++ str "..." else label in
  let overlapLen := findOverlapSuffix hint (ContentImmediatelyAfter content) in
  let additionalEdits :=
    if overlapLen >? 0
    then [ mkTextEdit
             (mkRange (mkPosition endLine endChar)
                      (mkPosition endLine (endChar + overlapLen)))
             [] ]
    else [] in
  mkCompletionItem label 1 hint 1
    (Some (mkTextEdit (mkRange position position) hint))
    [] true additionalEdits.

(** Where typing [s] from [p] leaves the cursor: a line feed starts the
    next line at column 0, any other byte advances the column. *)
Definition advance (p : Position) (s : gostring) : Position :=
  fold_left
    (fun q c =>
       if Ascii.eqb c LF then mkPosition (Line q + 1) 0
       else mkPosition (Line q) (Character q + 1))
    s p.

(** Strictly before, in document order. *)
Definition posLt (p q : Position) : Prop :=
  Line p < Line q \/ (Line p = Line q /\ Character p < Character q).

(** ** [internal/handlers]: the completion request lifecycle

    The handler, the editor connection, the document store, the timers,
    the cancellation contexts and the goroutines running
    [executeCompletion] are gathered in one [World].  [scheduleCompletion]
    runs under the handler's mutex and is one atomic step;
    [executeCompletion] takes no lock and is cut at each read of shared
    state ([requestID.Load], [Buffers.Get], [ctx.Err]) and around the
    backend call, so that other steps interleave between them.  The
    progress notifier only sends notifications, never responses, and is
    left out. *)

Record Buffer := mkBuffer {
  Text : gostring;
  Version : Z;
  LanguageID : gostring
}.

Record CompletionParams := mkCompletionParams {
  URI : gostring;
  Pos : Position
}.

(** A message of the editor: [ID] is the [*int] field ([None] is [nil]);
    [Params] is [None] when [json.Unmarshal] fails on the raw parameters. *)
Record JSONRPCMessage := mkMessage {
  ID : option Z;
  Params : option CompletionParams
}.

(** What [svc.Send] writes: the id answered and the completion list. *)
Record Response := mkResponse {
  RespID : option Z;
  Items : list CompletionItem
}.

Record Config := mkConfig {
  Debounce : Z;
  CompletionTimeout : Z;
  NumSuggestions : Z;
  EnableProgressSpinner : bool
}.

(** The values [scheduleCompletion] captures for the timer's closure. *)
Record Request := mkRequest {
  r_ctx : nat;
  r_msg : JSONRPCMessage;
  r_params : CompletionParams;
  r_version : Z;
  r_uri : gostring;
  r_languageID : gostring;
  r_content : ContentParts;
  r_reqID : Z
}.

(** A [time.AfterFunc] timer: waiting, fired (its function was started
    in a goroutine of its own), or stopped before firing. *)
Inductive TimerState :=
| TPending (r : Request)
| TFired
| TStopped.

(** Where a goroutine running [executeCompletion] stands. *)
Inductive PC :=
| PCheckCurrent   (* before [h.requestID.Load() != reqID] *)
| PCheckBuffer    (* before [svc.Buffers.Get(uri)] *)
| PCheckCtx       (* before [ctx.Err() != nil] *)
| PAwait          (* inside [h.registry.Completion] *)
| PDone.

Record Thread := mkThread { t_req : Request; t_pc : PC }.

(** A call of [h.registry.Completion]. *)
Record BackendCall := mkBackendCall {
  c_reqID : Z;
  c_before : gostring;
  c_after : gostring;
  c_uri : gostring;
  c_languageID : gostring;
  c_count : Z
}.

Record CompletionHandler := mkHandler {
  cancelCurrent : option nat;   (* the context the cancel function cancels *)
  timer : option nat;
  requestID : Z;                (* atomic.Uint64 *)
  lastTrigger : option Z;       (* [None] is the zero [time.Time] *)
  lastContent : gostring;
  pendingMsgID : option Z
}.

Record World := mkWorld {
  handler : CompletionHandler;
  store : gmap gostring Buffer;
  timers : list TimerState;
  ctxs : list bool;             (* per context: has it been cancelled? *)
  threads : list Thread;
  sent : list Response;
  calls : list BackendCall;
  now : Z                       (* the clock, in nanoseconds *)
}.

Definition NewCompletionHandler : CompletionHandler :=
  mkHandler None None 0 None [] None.

Definition initWorld : World :=
  mkWorld NewCompletionHandler ∅ [] [] [] [] [] 0.

Definition Millisecond : Z := 1000000.

Definition uint64_add1 (n : Z) : Z := (n + 1) mod 2 ^ 64.

Definition with_handler (h : CompletionHandler) (w : World) : World :=
  mkWorld h (store w) (timers w) (ctxs w) (threads w) (sent w) (calls w) (now w).

Definition with_timers (t : list TimerState) (w : World) : World :=
  mkWorld (handler w) (store w) t (ctxs w) (threads w) (sent w) (calls w) (now w).

Definition with_ctxs (c : list bool) (w : World) : World :=
  mkWorld (handler w) (store w) (timers w) c (threads w) (sent w) (calls w) (now w).

Definition with_threads (t : list Thread) (w : World) : World :=
  mkWorld (handler w) (store w) (timers w) (ctxs w) t (sent w) (calls w) (now w).

Definition with_calls (c : list BackendCall) (w : World) : World :=
  mkWorld (handler w) (store w) (timers w) (ctxs w) (threads w) (sent w) c (now w).

Definition Send (r : Response) (w : World) : World :=
  mkWorld (handler w) (store w) (timers w) (ctxs w) (threads w)
    (sent w ++ [r]) (calls w) (now w).

Definition sendEmptyCompletion (id : option Z) (w : World) : World :=
  Send (mkResponse id []) w.

(** [timer.Stop()]: true exactly when the timer had not fired yet. *)
Definition timerStop (t : nat) (w : World) : bool * World :=
  match timers w !! t with
  | Some (TPending _) => (true, with_timers (<[t := TStopped]> (timers w)) w)
  | _ => (false, w)
  end.

(** [if h.cancelCurrent != nil { h.cancelCurrent() ... }] *)
Definition cancelPrevious (w : World) : World :=
  match cancelCurrent (handler w) with
  | Some c => with_ctxs (<[c := true]> (ctxs w)) w
  | None => w
  end.

(** [if h.timer != nil { if h.timer.Stop() && h.pendingMsgID != nil
    { h.sendEmptyCompletion(svc, h.pendingMsgID) } ... }] *)
Definition stopPending (w : World) : World :=
  match timer (handler w) with
  | Some t =>
      let '(stopped, w) := timerStop t w in
      match stopped, pendingMsgID (handler w) with
      | true, Some id => sendEmptyCompletion (Some id) w
      | _, _ => w
      end
  | None => w
  end.

Definition scheduleCompletion (msg : JSONRPCMessage)
    (params : CompletionParams) (buffer : Buffer) (content : ContentParts)
    (w : World) : World :=
  (* Cancel any previous pending request *)
  let w := stopPending (cancelPrevious w) in
  let h := handler w in
  let contentKey := ContentBefore content in
  let since :=
    match lastTrigger h with
    | Some t => now w - t <? 500 * Millisecond
    | None => false
    end in
  if Strings.eqb (lastContent h) contentKey && since
  then
    sendEmptyCompletion (ID msg)
      (with_handler
         (mkHandler None None (requestID h) (lastTrigger h) (lastContent h) None)
         w)
  else
    let reqID := uint64_add1 (requestID h) in
    let ctx := length (ctxs w) in
    let tm := length (timers w) in
    let req :=
      mkRequest ctx msg params (Version buffer) (URI params)
        (LanguageID buffer) content reqID in
    with_handler
      (mkHandler (Some ctx) (Some tm) reqID (Some (now w)) contentKey (ID msg))
      (with_timers (timers w ++ [TPending req])
         (with_ctxs (ctxs w ++ [false]) w)).

(** The handler [Register] installs; [None] is a panic of [GetContent]. *)
Definition onCompletion (msg : JSONRPCMessage) (w : World) : option World :=
  match Params msg with
  | None => Some (sendEmptyCompletion (ID msg) w)
  | Some params =>
      match store w !! URI params with
      | None => Some (sendEmptyCompletion (ID msg) w)
      | Some buffer =>
          match GetContent (Text buffer) (Line (Pos params))
                  (Character (Pos params)) with
          | None => None
          | Some content =>
              if shouldSkip content (Text buffer)
              then Some (sendEmptyCompletion (ID msg) w)
              else Some (scheduleCompletion msg params buffer content w)
          end
      end
  end.

(** What the backend call comes back with, as [executeCompletion] sees
    it: hints with a nil error, an error, or a panic somewhere between
    the call and the final [Send] (after that [Send] only the deferred
    [cancel] and [progress.Stop] run).  Cancellation is best effort: the
    backend may come back with hints and a nil error after the context
    was cancelled, as the Ollama [Completion] does when some of its
    attempts had already succeeded. *)
Inductive Outcome :=
| Hints (hints : list gostring)
| Failed
| Panicked.

Definition validHint (hint : gostring) : bool :=
  let cleaned := TrimSpace hint in
  negb (Strings.eqb cleaned []) && (len cleaned >=? 2).

(** [buildCompletionItem] over the valid hints, with their indices. *)
Fixpoint buildItems (hints : list gostring) (content : ContentParts)
    (position : Position) (i : Z) : list CompletionItem :=
  match hints with
  | [] => []
  | hint :: rest =>
      buildCompletionItem hint content position i
        :: buildItems rest content position (i + 1)
  end.

Definition finish (th : nat) (t : Thread) (w : World) : World :=
  with_threads (<[th := mkThread (t_req t) PDone]> (threads w)) w.

Definition goto (th : nat) (t : Thread) (pc : PC) (w : World) : World :=
  with_threads (<[th := mkThread (t_req t) pc]> (threads w)) w.

(** The text after the cursor handed to the backend. *)
Definition backendAfter (content : ContentParts) : gostring :=
  let contentAfter := ContentImmediatelyAfter content in
  if negb (Strings.eqb (ContentAfter content) [])
  then
    if negb (Strings.eqb contentAfter [])
    then contentAfter ++ LF :: ContentAfter content
    else ContentAfter content
  else contentAfter.

(** One step of [executeCompletion] up to the backend call. *)
Definition executeStep (cfg : Config) (th : nat) (w : World) : option World :=
  match threads w !! th with
  | None => None
  | Some t =>
      let r := t_req t in
      match t_pc t with
      | PCheckCurrent =>
          if negb (requestID (handler w) =? r_reqID r)
          then Some (finish th t (sendEmptyCompletion (ID (r_msg r)) w))
          else Some (goto th t PCheckBuffer w)
      | PCheckBuffer =>
          match store w !! r_uri r with
          | None => Some (finish th t (sendEmptyCompletion (ID (r_msg r)) w))
          | Some buffer =>
              if Version buffer >? r_version r
              then Some (finish th t (sendEmptyCompletion (ID (r_msg r)) w))
              else Some (goto th t PCheckCtx w)
          end
      | PCheckCtx =>
          if default false (ctxs w !! r_ctx r)
          then Some (finish th t (sendEmptyCompletion (ID (r_msg r)) w))
          else
            let call :=
              mkBackendCall (r_reqID r) (ContentBefore (r_content r))
                (backendAfter (r_content r)) (r_uri r) (r_languageID r)
                (NumSuggestions cfg) in
            Some (goto th t PAwait (with_calls (calls w ++ [call]) w))
      | PAwait => None
      | PDone => None
      end
  end.

(** The rest of [executeCompletion], once the backend call is over. *)
Definition executeReturn (th : nat) (out : Outcome) (w : World)
  : option World :=
  match threads w !! th with
  | None => None
  | Some t =>
      let r := t_req t in
      match t_pc t with
      | PAwait =>
          match out with
          | Panicked | Failed =>
              Some (finish th t (sendEmptyCompletion (ID (r_msg r)) w))
          | Hints hints =>
              let validHints := filter (fun h => validHint h = true) hints in
              if len validHints =? 0
              then Some (finish th t (sendEmptyCompletion (ID (r_msg r)) w))
              else
                let items :=
                  buildItems validHints (r_content r) (Pos (r_params r)) 0 in
                Some (finish th t (Send (mkResponse (ID (r_msg r)) items) w))
          end
      | _ => None
      end
  end.

(** A panic before the backend call, caught by the deferred [recover]. *)
Definition executePanic (th : nat) (w : World) : option World :=
  match threads w !! th with
  | None => None
  | Some t =>
      match t_pc t with
      | PDone | PAwait => None
      | _ => Some (finish th t (sendEmptyCompletion (ID (r_msg (t_req t))) w))
      end
  end.

(** The timer fires: its function starts in a goroutine of its own. *)
Definition fire (tm : nat) (w : World) : option World :=
  match timers w !! tm with
  | Some (TPending r) =>
      Some (with_threads (threads w ++ [mkThread r PCheckCurrent])
              (with_timers (<[tm := TFired]> (timers w)) w))
  | _ => None
  end.

Inductive Event :=
| Trigger (msg : JSONRPCMessage)          (* a completion request arrives *)
| Fire (tm : nat)                         (* a debounce timer fires *)
| Step (th : nat)                         (* a goroutine does its next check *)
| Return (th : nat) (out : Outcome)       (* a backend call is over *)
| Panic (th : nat)                        (* a goroutine panics early *)
| SetBuffer (uri : gostring) (b : option Buffer)   (* document sync *)
| Tick (dt : Z).                          (* time passes *)

Definition step (cfg : Config) (w : World) (e : Event) : option World :=
  match e with
  | Trigger msg => onCompletion msg w
  | Fire tm => fire tm w
  | Step th => executeStep cfg th w
  | Return th out => executeReturn th out w
  | Panic th => executePanic th w
  | SetBuffer uri b =>
      Some (mkWorld (handler w)
              (match b with
               | Some b => <[uri := b]> (store w)
               | None => delete uri (store w)
               end)
              (timers w) (ctxs w) (threads w) (sent w) (calls w) (now w))
  | Tick dt =>
      if dt <? 0 then None
      else Some (mkWorld (handler w) (store w) (timers w) (ctxs w) (threads w)
                   (sent w) (calls w) (now w + dt))
  end.

Fixpoint run (cfg : Config) (w : World) (evs : list Event) : option World :=
  match evs with
  | [] => Some w
  | e :: rest =>
      match step cfg w e with
      | Some w' => run cfg w' rest
      | None => None
      end
  end.

(** [executeCompletion] run from start to end without any other step in
    between; [out] is what the backend call comes back with if it is
    reached. *)
Fixpoint runThread (cfg : Config) (th : nat) (out : Outcome) (fuel : nat)
    (w : World) : option World :=
  match fuel with
  | O => Some w
  | S f =>
      match threads w !! th with
      | None => None
      | Some t =>
          match t_pc t with
          | PDone => Some w
          | PAwait =>
              match executeReturn th out w with
              | Some w' => runThread cfg th out f w'
              | None => None
              end
          | _ =>
              match executeStep cfg th w with
              | Some w' => runThread cfg th out f w'
              | None => None
              end
          end
      end
  end.

Definition executeCompletion (cfg : Config) (th : nat) (out : Outcome)
    (w : World) : option World :=
  runThread cfg th out 4 w.

(** The document is gone, or newer than the version the request captured. *)
Definition stale (w : World) (r : Request) : Prop :=
  match store w !! r_uri r with
  | None => True
  | Some buffer => Version buffer > r_version r
  end.

(** *** Counting responses against requests *)

Fixpoint countb {A} (f : A -> bool) (l : list A) : nat :=
  match l with
  | [] => O
  | x :: r => ((if f x then 1 else 0) + countb f r)%nat
  end.

(** Responses sent so far to message id [i]. *)
Definition answersTo (i : Z) (w : World) : nat :=
  countb (fun r => bool_decide (RespID r = Some i)) (sent w).

Definition pendingFor (i : Z) (ts : TimerState) : bool :=
  match ts with
  | TPending r => bool_decide (ID (r_msg r) = Some i)
  | _ => false
  end.

Definition liveFor (i : Z) (t : Thread) : bool :=
  match t_pc t with
  | PDone => false
  | _ => bool_decide (ID (r_msg (t_req t)) = Some i)
  end.

(** Requests with id [i] still waiting: in debounce, or being executed. *)
Definition owed (i : Z) (w : World) : nat :=
  (countb (pendingFor i) (timers w) + countb (liveFor i) (threads w))%nat.

Definition isTriggerOf (i : Z) (e : Event) : bool :=
  match e with
  | Trigger m => bool_decide (ID m = Some i)
  | _ => false
  end.

(** Trigger messages with id [i] among the events. *)
Definition triggersOf (i : Z) (evs : list Event) : nat :=
  countb (isTriggerOf i) evs.

Definition isTrigger (e : Event) : bool :=
  match e with Trigger _ => true | _ => false end.

(** Steps a request still has to take. *)
Definition timerWork (ts : TimerState) : nat :=
  match ts with TPending _ => 5%nat | _ => O end.

Definition threadWork (t : Thread) : nat :=
  match t_pc t with
  | PCheckCurrent => 4 | PCheckBuffer => 3 | PCheckCtx => 2
  | PAwait => 1 | PDone => 0
  end%nat.

Fixpoint total {A} (f : A -> nat) (l : list A) : nat :=
  match l with
  | [] => O
  | x :: r => (f x + total f r)%nat
  end.

Definition work (w : World) : nat :=
  (total timerWork (timers w) + total threadWork (threads w))%nat.

Definition b2n (b : bool) : nat := if b then 1%nat else 0%nat.

(** The balance of a world for id [i]: answered plus owed. *)
Definition balance (i : Z) (w : World) : nat :=
  (answersTo i w + owed i w)%nat.

Definition noPending (w : World) : Prop :=
  forall tm r, timers w !! tm <> Some (TPending r).

(** Every waiting timer is the handler's, and the handler remembers the
    id of its message. *)
Definition timersOwned (w : World) : Prop :=
  forall tm r, timers w !! tm = Some (TPending r) ->
    timer (handler w) = Some tm /\ pendingMsgID (handler w) = ID (r_msg r).

(** ** [internal/providers]: the Ollama candidate cleaner *)

Module Ollama.

(** [isBlockContext]: does the current line open a block? *)
Definition blockStarters : list gostring :=
  map str ["for "; "for{"; "if "; "if("; "else "; "else{"; "switch ";
           "select "; "func "; "func("].

Definition isBlockContext (before : gostring) : bool :=
  let lines := Split before in
  let lastLine := TrimSpace (nth (length lines - 1) lines []) in
  if existsb (fun starter =>
                HasPrefix lastLine starter || Contains lastLine starter)
       blockStarters
  then true
  else HasSuffix lastLine (str "{").

(** The submatch of the pattern [(?s)```[a-z]*\n?(.*?)```], leftmost
    first: from the first fence, the longest run of letters [a-z] and one
    optional line feed are skipped, and the group runs up to the next
    fence; there is no match when no fence follows. *)
Definition isLowerLetter (c : ascii) : bool :=
  let n := nat_of_ascii c in ((97 <=? n) && (n <=? 122))%nat.

Fixpoint dropLetters (s : gostring) : gostring :=
  match s with
  | c :: r => if isLowerLetter c then dropLetters r else s
  | [] => []
  end.

Definition fence : gostring := str "```".

Definition codeBlockSubmatch (s : gostring) : option gostring :=
  match Index s fence with
  | None => None
  | Some i =>
      let rest := dropLetters (skipn (i + 3) s) in
      let rest :=
        match rest with
        | c :: r => if Ascii.eqb c LF then r else rest
        | [] => []
        end in
      match Index rest fence with
      | Some q => Some (firstn q rest)
      | None => None
      end
  end.

Definition modelTokens : list gostring :=
  map str ["<|"; "<FILL>"; "<CURSOR>"; "</s>"; "<s>"].

(** [if idx := strings.Index(response, token); idx != -1
     { response = response[:idx] }], for each token in turn. *)
Definition cutAtTokens (response : gostring) : gostring :=
  fold_left
    (fun response token =>
       match Index response token with
       | Some idx => firstn idx response
       | None => response
       end)
    modelTokens response.

Definition chatPrefixes : list gostring :=
  map str ["here's the completion:"; "here is the completion:";
           "here is the completed code:"; "completion:";
           "the completion is:"; "output:"; "answer:"; "code:"].

(** The loop over the chat prefixes; [lower] is recomputed after each
    removal, as in the source. *)
Definition stripChatPrefixes (response : gostring) : gostring :=
  fst
    (fold_left
       (fun '(response, lower) prefix =>
          if HasPrefix lower prefix
          then
            let response := TrimSpace (skipn (length prefix) response) in
            (response, ToLower (TrimSpace response))
          else (response, lower))
       chatPrefixes
       (response, ToLower (TrimSpace response))).

Definition skipTokens : list gostring :=
  map str ["{"; "}"; "("; ")"; "["; "]"; "//"; "/*"].

Definition isBoundary (c : ascii) : bool :=
  existsb (Ascii.eqb c)
    [SP; TAB; LF; "["%char; "("%char; "{"%char; "="%char; ":"%char].

(** The last part of [truncateAtAfterOverlap], once the word to look for
    is chosen. *)
Definition truncateAtWord (response firstWord : gostring) : gostring :=
  if len firstWord >=? 2
  then
    match Index response firstWord with
    | Some (S i) =>
        if isBoundary (nth i response SP)
        then TrimRight (firstn (S i) response) [SP; TAB]
        else response
    | _ => response
    end
  else response.

Definition truncateAtAfterOverlap (response after : gostring) : gostring :=
  if Strings.eqb after [] then response
  else
    let afterTrimmed := TrimSpace after in
    if Strings.eqb afterTrimmed [] then response
    else
      let firstAfterLine := nth 0 (Split afterTrimmed) [] in
      let firstAfterToken := TrimSpace firstAfterLine in
      if len firstAfterToken <=? 1 then response
      else
        match Fields firstAfterToken with
        | [] => response
        | firstWord :: rest =>
            if existsb (Strings.eqb firstWord) skipTokens
            then
              match rest with
              | second :: _ => truncateAtWord response second
              | [] => response
              end
            else truncateAtWord response firstWord
        end.

(** Not empty and not a lone brace. *)
Definition substantial (line : gostring) : bool :=
  let t := TrimSpace line in
  negb (Strings.eqb t []) && negb (Strings.eqb t (str "}"))
  && negb (Strings.eqb t (str "{")).

(** The inner loop of [removeAfterDuplicates]: [(match,
    hasSubstantialContent)] over the lines compared pairwise; it stops at
    the first mismatch. *)
Fixpoint compareLines (respEnd afterStart : list gostring) (sub : bool)
  : bool * bool :=
  match respEnd, afterStart with
  | r :: rs, a :: as_ =>
      let sub := sub || substantial r in
      if negb (Strings.eqb (TrimSpace r) (TrimSpace a)) then (false, sub)
      else compareLines rs as_ sub
  | _, _ => (true, sub)
  end.

(** The outer loop: [i] counts down from [min(3, len(respLines))]; the
    result is [validLines]. *)
Fixpoint duplicateLoop (respLines afterLines : list gostring) (i : nat)
  : list gostring :=
  match i with
  | O => respLines
  | S j =>
      if (length afterLines <? i)%nat then duplicateLoop respLines afterLines j
      else
        let respEnd := skipn (length respLines - i) respLines in
        let afterStart := firstn i afterLines in
        let '(matched, hasSubstantialContent) :=
          compareLines respEnd afterStart false in
        if matched && hasSubstantialContent
        then
          if (length respLines - i <? 1)%nat
          then duplicateLoop respLines afterLines j
          else firstn (length respLines - i) respLines
        else duplicateLoop respLines afterLines j
  end.

Definition removeAfterDuplicates (response after : gostring) : gostring :=
  let afterLines := Split after in
  let respLines := Split response in
  let validLines :=
    duplicateLoop respLines afterLines (Nat.min 3 (length respLines)) in
  Join validLines.

(** The loop of [removeAfterFunctionDuplicates] over the lines from
    [startCheckFrom] on: [i] is the index of the line, [todo] the lines
    from [i] on. *)
Fixpoint functionLoop (response : gostring) (respLines afterLines todo
    : list gostring) (i : nat) : gostring :=
  match todo with
  | [] => response
  | l :: rest =>
      let line := TrimSpace l in
      let result := TrimRight (Join (firstn i respLines)) [SP; TAB; LF] in
      if (HasPrefix line (str "func ") || HasPrefix line (str "func("))
         && existsb (fun a => Strings.eqb line (TrimSpace a))
              (firstn 10 afterLines)
         && (len result >? len response / 3)
      then result
      else functionLoop response respLines afterLines rest (S i)
  end.

Definition removeAfterFunctionDuplicates (response after : gostring)
  : gostring :=
  if Strings.eqb response [] || Strings.eqb after [] then response
  else
    let respLines := Split response in
    let afterLines := Split after in
    if len respLines <? 15 then response
    else
      let startCheckFrom := (length respLines / 2)%nat in
      functionLoop response respLines afterLines
        (skipn startCheckFrom respLines) startCheckFrom.

(** The steps of [cleanCompletion], in the order of the source. *)
Definition stripCodeBlock (response : gostring) : gostring :=
  match codeBlockSubmatch response with
  | Some group => TrimSpace group
  | None => response
  end.

(** The text on the current line, before the cursor, trimmed. *)
Definition currentLinePrefix (before : gostring) : gostring :=
  let beforeLines := Split before in
  TrimSpace (nth (length beforeLines - 1) beforeLines []).

Definition stripLinePrefix (response before : gostring) : gostring :=
  let currentLinePrefix := currentLinePrefix before in
  if negb (Strings.eqb currentLinePrefix [])
  then
    let respTrimmed := TrimSpace response in
    if HasPrefix respTrimmed currentLinePrefix
    then TrimLeft (TrimPrefix respTrimmed currentLinePrefix) [SP]
    else response
  else response.

Definition cutAtAfter (response after : gostring) : gostring :=
  if negb (Strings.eqb after [])
  then
    removeAfterFunctionDuplicates
      (removeAfterDuplicates (truncateAtAfterOverlap response after) after)
      after
  else response.

Definition limitStatement (response before : gostring) : gostring :=
  if negb (isBlockContext before) && Contains response [LF]
  then
    let lines := Split response in
    let beforeTrimmed := TrimSpace before in
    if HasSuffix beforeTrimmed (str "var")
       || Contains beforeTrimmed (str "var ")
       || Contains beforeTrimmed (str ":=")
    then
      let firstLine := TrimSpace (nth 0 lines []) in
      if len firstLine >=? 2 then nth 0 lines [] else response
    else if len lines >? 10
    then
      let firstLine := TrimSpace (nth 0 lines []) in
      if (len firstLine >=? 2) && negb (HasSuffix firstLine (str "{"))
      then nth 0 lines [] else response
    else response
  else response.

Definition finalTrim (response : gostring) : gostring :=
  let response := TrimLeft response [LF] in
  let response := TrimRight response [SP; TAB; LF] in
  let response := TrimLeft response [SP; TAB] in
  if len (TrimSpace response) <? 2 then [] else response.

Definition cleanCompletion (response before after : gostring) : gostring :=
  if Strings.eqb response [] then []
  else
    let response := stripCodeBlock response in
    let response := Trim response (str "`") in
    let response := cutAtTokens response in
    let response := stripChatPrefixes response in
    let response := stripLinePrefix response before in
    let response := cutAtAfter response after in
    let response := limitStatement response before in
    finalTrim response.

(** *** The multi-candidate backend [Completion] *)

(** [providers.CompletionRequest] (its fields are [ContentBefore] and
    [ContentAfter] in the source). *)
Record CompletionRequest := mkCompletionRequest {
  reqContentBefore : gostring;
  reqContentAfter : gostring
}.

(** What one attempt gets from the endpoint: [doRequest] fails (transport
    error, non-200 status, cancellation or deadline), the body does not
    parse, or it parses to a [Response] string. *)
Inductive Reply :=
| RequestError
| ParseError
| Response (response : gostring).

Record completionResult := mkCompletionResult {
  index : nat;
  completion : gostring;
  err : bool                    (* is [err] non-nil? *)
}.

(** The body of the goroutine of attempt [idx]: the value it sends on
    [resultChan]. *)
Definition attempt (req : CompletionRequest) (idx : nat) (reply : Reply)
  : completionResult :=
  match reply with
  | RequestError => mkCompletionResult idx [] true
  | ParseError => mkCompletionResult idx [] true
  | Response response =>
      if Strings.eqb response [] then mkCompletionResult idx [] true
      else
        let completion :=
          cleanCompletion response (reqContentBefore req) (reqContentAfter req)
        in
        if Strings.eqb completion [] then mkCompletionResult idx [] true
        else mkCompletionResult idx completion false
  end.

(** A result the collecting loop keeps:
    [result.err == nil && result.completion != ""]. *)
Definition succeeded (r : completionResult) : bool :=
  negb (err r) && negb (Strings.eqb (completion r) []).

(** One round of the collecting loop over the channel, on
    [(completions, seen)]. *)
Definition collectStep (acc : list gostring * gmap gostring bool)
    (result : completionResult) : list gostring * gmap gostring bool :=
  let '(completions, seen) := acc in
  if succeeded result
  then
    if negb (default false (seen !! completion result))
    then (completions ++ [completion result],
          <[completion result := true]> seen)
    else (completions, seen)
  else (completions, seen).

Definition collect (results : list completionResult)
  : list gostring * gmap gostring bool :=
  fold_left collectStep results ([], ∅).

Definition atLeastOne (numSuggestions : Z) : Z :=
  if numSuggestions <? 1 then 1 else numSuggestions.

(** [Completion]: [replies] is what each attempt gets from the endpoint,
    [arrival] the order in which the attempts send their result on the
    channel (a permutation of the attempts, chosen by the scheduler).
    The second component is the error, always [nil]. *)
Definition Completion (req : CompletionRequest) (numSuggestions : Z)
    (replies : nat -> Reply) (arrival : list nat)
  : list gostring * option gostring :=
  let numSuggestions := atLeastOne numSuggestions in
  let resultChan := map (fun idx => attempt req idx (replies idx)) arrival in
  let completions := fst (collect resultChan) in
  if len completions =? 0 then ([], None) else (completions, None).

(** The attempts [Completion] starts. *)
Definition attempts (numSuggestions : Z) : list nat :=
  seq 0 (Z.to_nat (atLeastOne numSuggestions)).


(** What the collecting loop maintains: [completions] has no duplicate,
    [seen] marks exactly its members, and these are the completions of
    the successful results processed so far. *)
Definition collected (acc : list gostring * gmap gostring bool)
    (processed : list completionResult) : Prop :=
  NoDup (fst acc)
  /\ (forall x, default false (snd acc !! x) = true <-> x ∈ fst acc)
  /\ (forall x, x ∈ fst acc <->
        exists r, r ∈ processed /\ succeeded r = true /\ completion r = x).

Definition demoReq : CompletionRequest :=
  mkCompletionRequest (str "x := ") [].

(** Three attempts: two come back with the same string, one fails. *)
Definition demoReplies (idx : nat) : Reply :=
  match idx with
  | 0%nat => Response (str "foo()")
  | 1%nat => Response (str "foo()")
  | _ => RequestError
  end.

End Ollama.

(** *** Concrete worlds and traces used below *)

Definition demoCfg : Config := mkConfig 200 15000 2 false.
Definition demoURI : gostring := str "file:///a.go".
Definition demoBuffer : Buffer := mkBuffer (str "x := ma") 1 (str "go").
Definition msgA : JSONRPCMessage :=
  mkMessage (Some 1) (Some (mkCompletionParams demoURI (mkPosition 0 7))).
Definition msgB : JSONRPCMessage :=
  mkMessage (Some 2) (Some (mkCompletionParams demoURI (mkPosition 0 7))).

(** What the Ollama backend returns for A when its first attempt has
    already succeeded and its second attempt fails because the context
    was cancelled: the first attempt's completion, with a nil error. *)
Definition raceReplies (idx : nat) : Ollama.Reply :=
  match idx with
  | O => Ollama.Response (str "ke([]int, 0)")
  | _ => Ollama.RequestError
  end.

Definition raceHints : list gostring :=
  fst (Ollama.Completion (Ollama.mkCompletionRequest (str "x := ma") [])
         (NumSuggestions demoCfg) raceReplies [0; 1]%nat).

(** A is triggered, its timer fires and it reaches the backend call; B is
    triggered a second later; then A's backend call comes back. *)
Definition raceTrace : list Event :=
  [ SetBuffer demoURI (Some demoBuffer);
    Trigger msgA; Fire 0; Step 0; Step 0; Step 0;
    Tick (1000 * Millisecond);
    Trigger msgB;
    Return 0 (Hints raceHints) ].

(** B in turn runs to its end and gets a hint too. *)
Definition raceTraceEnd : list Event :=
  [ Fire 1; Step 1; Step 1; Step 1; Return 1 (Hints [str "in(a, b)"]) ].

Definition summary (w : World) : list (option Z * list gostring) :=
  map (fun r => (RespID r, map Detail (Items r))) (sent w).

Definition staleWorld : World :=
  mkWorld (mkHandler (Some 0%nat) (Some 0%nat) 1 (Some 0) (str "x := ma") (Some 1))
    {[ demoURI := mkBuffer (str "x := mak") 4 (str "go") ]}
    [TPending (mkRequest 0 msgA (mkCompletionParams demoURI (mkPosition 0 7)) 3
                 demoURI (str "go")
                 (mkContentParts (str "x := ma") [] (str "a") (str "x := ma") [])
                 1)]
    [false] [] [] [] 0.

Definition skipWorld : World :=
  mkWorld NewCompletionHandler {[ str "u" := mkBuffer (str "x.") 1 (str "go") ]}
    [] [] [] [] [] 0.


(** The claim's reading of a comment line: the line starts with the
    single-line comment marker of the document's language.  The spec
    lists no markers; these are the languages' own, for the languages
    used below. *)
Definition lineCommentMarkers (languageID : gostring) : list gostring :=
  if Strings.eqb languageID (str "go") then [str "//"]
  else if Strings.eqb languageID (str "lua") then [str "--"]
  else if Strings.eqb languageID (str "python") then [str "#"]
  else [].

(** The filter as the claim words it. *)
Definition specShouldSkip (languageID : gostring) (content : ContentParts)
  : bool :=
  let line := TrimSpace (LastLine content) in
  Strings.eqb (LastCharacter content) (str ".")
  || existsb (HasPrefix line) (lineCommentMarkers languageID)
  || Strings.eqb line []
  || (len line <? 2).

Definition contentAt (text : gostring) (line column : Z) : ContentParts :=
  match GetContent text line column with
  | Some c => c
  | None => mkContentParts [] [] [] [] []
  end.

(** ** [internal/util]: indentation helpers, blank lines, unique strings *)

Module Util.

(** [strings.TrimSpace(line) == ""]. *)
Definition isBlank (line : gostring) : bool :=
  Strings.eqb (TrimSpace line) [].

(** [len(line) - len(strings.TrimLeft(line, " \t"))]. *)
Definition paddingOf (line : gostring) : nat :=
  (length line - length (TrimLeft line [SP; TAB]))%nat.

(** [line[:len(line)-len(strings.TrimLeft(line, " \t"))]]. *)
Definition indentOf (line : gostring) : gostring :=
  firstn (paddingOf line) line.

(** One round of the loop of [GetContentPadding], on [minPadding]. *)
Definition paddingStep (minPadding : Z) (line : gostring) : Z :=
  if len (TrimSpace line) =? 0 then minPadding
  else
    let padding := Z.of_nat (paddingOf line) in
    if padding <? minPadding then padding else minPadding.

Definition GetContentPadding (text : gostring) : Z :=
  let lines := Split text in
  let minPadding := fold_left paddingStep lines 99999 in
  if minPadding =? 99999 then 0 else minPadding.

(** [strings.Repeat(" ", n)]. *)
Definition spaces (n : nat) : gostring := repeat SP n.

Definition PadContent (text : gostring) (padding : Z) : gostring :=
  if padding <=? 0 then text
  else
    let lines := Split text in
    let paddingStr := spaces (Z.to_nat padding) in
    Join (map (fun line => if negb (isBlank line) then paddingStr ++ line
                           else line) lines).

(** One round of the loop of [GetContentIndent], on [(minIndent, first)]. *)
Definition indentStep (acc : gostring * bool) (line : gostring)
  : gostring * bool :=
  let '(minIndent, first) := acc in
  if isBlank line then (minIndent, first)
  else
    let indent := indentOf line in
    if first || (length indent <? length minIndent)%nat
    then (indent, false)
    else (minIndent, first).

Definition GetContentIndent (text : gostring) : gostring :=
  fst (fold_left indentStep (Split text) ([], true)).

(** The body of the loop of [DedentContent] for one line. *)
Definition dedentLine (indent line : gostring) : gostring :=
  if isBlank line then line
  else if HasPrefix line indent then skipn (length indent) line
  else line.

Definition DedentContent (text : gostring) : gostring :=
  let indent := GetContentIndent text in
  if Strings.eqb indent [] then text
  else Join (map (dedentLine indent) (Split text)).

Definition indentLine (prefix line : gostring) : gostring :=
  if negb (isBlank line) then prefix ++ line else line.

Definition IndentContent (text prefix : gostring) : gostring :=
  if Strings.eqb prefix [] then text
  else Join (map (indentLine prefix) (Split text)).

(** [for start < len(lines) && strings.TrimSpace(lines[start]) == ""
    { start++ }], on the lines from [start] on. *)
Fixpoint skipBlank (lines : list gostring) : nat :=
  match lines with
  | line :: rest => if isBlank line then S (skipBlank rest) else O
  | [] => O
  end.

(** [for end > start && strings.TrimSpace(lines[end-1]) == "" { end-- }]. *)
Fixpoint dropBlank (lines : list gostring) (start end_ : nat) : nat :=
  match end_ with
  | O => O
  | S e =>
      if (start <? end_)%nat && isBlank (nth e lines [])
      then dropBlank lines start e
      else end_
  end.

Definition TrimBlankLines (text : gostring) : gostring :=
  let lines := Split text in
  let start := skipBlank lines in
  let end_ := dropBlank lines start (length lines) in
  if (end_ <=? start)%nat then []
  else Join (firstn (end_ - start) (skipn start lines)).

(** One round of the loop of [UniqueStrings], on [(result, seen)]. *)
Definition uniqueStep (acc : list gostring * gmap gostring bool)
    (item : gostring) : list gostring * gmap gostring bool :=
  let '(result, seen) := acc in
  if negb (default false (seen !! item))
  then (result ++ [item], <[item := true]> seen)
  else (result, seen).

Definition UniqueStrings (items : list gostring) : list gostring :=
  fst (fold_left uniqueStep items ([], ∅)).

End Util.

(** ** [internal/providers]: the sequential [Completion]

    The first version of the Ollama provider asks for its suggestions one
    after the other and stops at the first attempt that fails. *)

Module OllamaSequential.

Inductive CompletionError :=
| ErrRequest            (* the error of [doRequest] *)
| ErrParse.             (* [parse response: ...] *)

(** [for i := 0; i < numSuggestions; i++ { ... }], from round [i] on with
    [todo] rounds left: [inl results] is the loop left by [break] or at
    its end, [inr e] is [return nil, err]. *)
Fixpoint completionLoop (replies : nat -> Ollama.Reply) (i todo : nat)
    (results : list gostring) : list gostring + CompletionError :=
  match todo with
  | O => inl results
  | S todo' =>
      match replies i with
      | Ollama.RequestError =>
          if len results >? 0 then inl results else inr ErrRequest
      | Ollama.ParseError =>
          if len results >? 0 then inl results else inr ErrParse
      | Ollama.Response response =>
          completionLoop replies (S i) todo'
            (if negb (Strings.eqb response []) then results ++ [response]
             else results)
      end
  end.

(** [Completion]: [replies] is what each attempt gets from the endpoint.
    [None] is a run-time panic: [make([]string, 0, numSuggestions)] with a
    negative capacity.  (Memory is not modelled: the allocation succeeds
    for every other capacity.) *)
Definition Completion (numSuggestions : Z) (replies : nat -> Ollama.Reply)
  : option (list gostring + CompletionError) :=
  if numSuggestions <? 0 then None
  else
    match completionLoop replies 0 (Z.to_nat numSuggestions) [] with
    | inl results => Some (inl (Util.UniqueStrings results))
    | inr e => Some (inr e)
    end.

(** The non-empty response strings among the replies. *)
Fixpoint responsesOf (rs : list Ollama.Reply) : list gostring :=
  match rs with
  | [] => []
  | Ollama.Response r :: rest =>
      if negb (Strings.eqb r []) then r :: responsesOf rest
      else responsesOf rest
  | _ :: rest => responsesOf rest
  end.

Definition isResponse (r : Ollama.Reply) : bool :=
  match r with Ollama.Response _ => true | _ => false end.

Definition errorOf (r : Ollama.Reply) : CompletionError :=
  match r with Ollama.ParseError => ErrParse | _ => ErrRequest end.

End OllamaSequential.

(** ** Predicates and invariants the statements below use *)

(** Made of spaces and tabs only. *)
Definition isPadding (p : gostring) : Prop :=
  Forall (fun c => inCutset [SP; TAB] c = true) p.

(** [s] does not start with a byte of [cs]. *)
Definition headFree (cs s : gostring) : Prop :=
  match s with [] => True | c :: _ => inCutset cs c = false end.

(** [s] does not end with a byte of [cs]. *)
Definition lastFree (cs s : gostring) : Prop :=
  forall q c, s = q ++ [c] -> inCutset cs c = false.

(** The lines from [a] up to [b]. *)
Definition slice (lines : list gostring) (a b : nat) : list gostring :=
  firstn (b - a)%nat (skipn a lines).

(** The response was cut before [word]: what was dropped is spaces and
    tabs, then [word]. *)
Definition cutBefore (response result word : gostring) : Prop :=
  exists ws tail, response = result ++ ws ++ word ++ tail
                  /\ isPadding ws /\ 2 <= len word.

(** What the loop of [UniqueStrings] maintains, [done] being the items
    read so far. *)
Definition uniqueInv (acc : list gostring * gmap gostring bool)
    (done : list gostring) : Prop :=
  NoDup (fst acc)
  /\ (forall x, default false (snd acc !! x) = true <-> x ∈ fst acc)
  /\ (forall x, x ∈ fst acc <-> x ∈ done)
  /\ fst acc `sublist_of` done.

(** The state of the loop of [GetContentIndent] with [p] put in front
    of the indentation found. *)
Definition shifted (p : gostring) (acc : gostring * bool) : gostring * bool :=
  (if snd acc then [] else p ++ fst acc, snd acc).

(** A request in debounce is the current one, and its context has not
    been cancelled. *)
Definition pendingFresh (w : World) : Prop :=
  forall tm r, timers w !! tm = Some (TPending r) ->
    r_reqID r = requestID (handler w)
    /\ cancelCurrent (handler w) = Some (r_ctx r)
    /\ ctxs w !! r_ctx r = Some false.




(** The hints [executeCompletion] keeps of what the backend came back
    with. *)
Definition keptHints (out : Outcome) : list gostring :=
  match out with
  | Hints hints => filter (fun h => validHint h = true) hints
  | Failed | Panicked => []
  end.

(** A is triggered and its timer fires. *)
Definition fireTrace : list Event :=
  [SetBuffer demoURI (Some demoBuffer); Trigger msgA; Fire 0].

(** [a] is a run of consecutive bytes of [b]. *)
Definition pieceOf (a b : gostring) : Prop :=
  exists pre post, b = pre ++ a ++ post.

(** *** The handler's crash path

    [util.GetContent] is called in the closure [Register] installs, which
    has no [recover] of its own (the deferred [recover] is in
    [executeCompletion]): a panic there ends the handling of the message
    before anything is sent. *)

(** A trigger on the open document whose position has column -1
    ([Position.Character] is an [int], so the number decodes). *)
Definition msgNeg : JSONRPCMessage :=
  mkMessage (Some 7) (Some (mkCompletionParams demoURI (mkPosition 0 (-1)))).

(** The document is opened, then that trigger arrives. *)
Definition panicTrace : list Event :=
  [SetBuffer demoURI (Some demoBuffer); Trigger msgNeg].

(** What the editor has been sent when the events are over, or when one
    of them cannot be taken: the handler panicked on it. *)
Fixpoint sentBy (cfg : Config) (w : World) (evs : list Event)
  : list Response :=
  match evs with
  | [] => sent w
  | e :: rest =>
      match step cfg w e with
      | Some w' => sentBy cfg w' rest
      | None => sent w
      end
  end.

(* ===================================================================== *)
(** * Theorems *)
(* ===================================================================== *)

Example GetContent_main :
  GetContent (str "func main() {" ++ LF :: str "  " ++ LF :: str "}") 1 2
  = Some (mkContentParts (str "func main() {" ++ LF :: str "  ")
            (str "}") (str " ") (str "  ") []).
Proof. reflexivity. Qed.

(** ** Facts about [Split] and [Join] *)

Lemma Split_nonempty (s : gostring) : Split s <> [].
Proof.
  destruct s as [|c r]; simpl; [discriminate|].
  destruct (Ascii.eqb c LF); [discriminate|].
  destruct (Split r); discriminate.
Qed.

Lemma Split_length_pos (s : gostring) : (0 < length (Split s))%nat.
Proof.
  pose proof (Split_nonempty s). destruct (Split s); simpl; [congruence|lia].
Qed.

Lemma Join_cons (x : gostring) (rest : list gostring) :
  rest <> [] -> Join (x :: rest) = x ++ LF :: Join rest.
Proof. destruct rest; [congruence|reflexivity]. Qed.

Lemma Join_Split (s : gostring) : Join (Split s) = s.
Proof.
  induction s as [|c r IH]; [reflexivity|].
  simpl. destruct (Ascii.eqb_spec c LF) as [->|Hne].
  - pose proof (Split_nonempty r) as Hr.
    destruct (Split r) as [|h t] eqn:E; [congruence|].
    cbn [Join app]. change (match t with [] => h | _ :: _ => h ++ LF :: Join t end)
      with (Join (h :: t)). now rewrite IH.
  - pose proof (Split_nonempty r) as Hr.
    destruct (Split r) as [|h t]; [congruence|].
    destruct t as [|h' t']; simpl in *; now rewrite <- IH.
Qed.

Lemma Join_app (l1 l2 : list gostring) :
  l1 <> [] -> l2 <> [] -> Join (l1 ++ l2) = Join l1 ++ LF :: Join l2.
Proof.
  intros H1 H2. induction l1 as [|x l1 IH]; [congruence|].
  destruct l1 as [|y l1].
  - change ([x] ++ l2) with (x :: l2). now rewrite Join_cons.
  - change ((x :: y :: l1) ++ l2) with (x :: (y :: l1) ++ l2).
    rewrite Join_cons by discriminate.
    rewrite IH by discriminate.
    rewrite (Join_cons x (y :: l1)) by discriminate.
    now rewrite <- app_assoc.
Qed.

(** No piece of a split contains the separator. *)
Lemma Split_no_LF (s : gostring) : Forall (fun l => ~ In LF l) (Split s).
Proof.
  induction s as [|c r IH]; simpl.
  - constructor; [intros []|constructor].
  - destruct (Ascii.eqb_spec c LF) as [->|Hne].
    + constructor; [intros []|exact IH].
    + destruct (Split r) as [|h t]; [constructor; [|constructor]|].
      * intros [H|[]]; congruence.
      * inversion IH; subst. constructor; [|assumption].
        intros [H|H]; [congruence|contradiction].
Qed.

Lemma firstn_S_nth {A} (d : A) (l : list A) (n : nat) :
  (n < length l)%nat -> firstn (S n) l = firstn n l ++ [nth n l d].
Proof.
  revert n. induction l as [|x l IH]; intros n H; simpl in H; [lia|].
  destruct n; simpl; [reflexivity|]. f_equal. apply IH. lia.
Qed.

Lemma insert_app_last {A} (l : list A) (x y : A) :
  <[length l := y]> (l ++ [x]) = l ++ [y].
Proof. induction l; simpl; [reflexivity|]. now f_equal. Qed.

Lemma nth_app_last {A} (l : list A) (x d : A) : nth (length l) (l ++ [x]) d = x.
Proof. induction l; simpl; auto. Qed.

Lemma nth_firstn_snoc {A} (l : list A) (n : nat) (x d : A) :
  (n <= length l)%nat -> nth n (firstn n l ++ [x]) d = x.
Proof.
  intros H. rewrite <- (firstn_length_le l H) at 1. apply nth_app_last.
Qed.

Lemma insert_firstn_snoc {A} (l : list A) (n : nat) (x y : A) :
  (n <= length l)%nat -> <[n := y]> (firstn n l ++ [x]) = firstn n l ++ [y].
Proof.
  intros H. rewrite <- (firstn_length_le l H) at 1. apply insert_app_last.
Qed.

Lemma nth_last_snoc {A} (l : list A) (x d : A) :
  nth (length (l ++ [x]) - 1) (l ++ [x]) d = x.
Proof.
  rewrite length_app. simpl.
  replace (length l + 1 - 1)%nat with (length l) by lia.
  apply nth_app_last.
Qed.

(** ** The text-window extractor (C9) *)

(** What [GetContent] returns for a column that is not negative. *)
Lemma GetContent_parts (text : gostring) (line column : Z) :
  0 <= column ->
  let lines := Split text in
  let l := Z.to_nat (Z.min (Z.max line 0) (len lines - 1)) in
  let cur := nth l lines [] in
  let c := Z.to_nat (Z.min column (len cur)) in
  let before := Join (firstn l lines ++ [firstn c cur]) in
  GetContent text line column =
    Some (mkContentParts before (Join (skipn (S l) lines)) (lastCharOf before)
            (firstn c cur) (skipn c cur)).
Proof.
  intros Hc lines l cur c before.
  pose proof (Split_length_pos text) as Hpos. fold lines in Hpos.
  assert (Hl : (l < length lines)%nat) by (unfold l, len; lia).
  unfold GetContent. fold lines.
  set (ln := if (if line <? 0 then 0 else line) >=? len lines
             then len lines - 1 else if line <? 0 then 0 else line).
  assert (Hln : ln = Z.of_nat l).
  { unfold ln, l, len. destruct (Z.ltb_spec line 0);
      destruct (Z.geb_spec 0 (Z.of_nat (length lines))); try lia.
    destruct (Z.geb_spec line (Z.of_nat (length lines))); lia. }
  rewrite Hln. replace (Z.to_nat (Z.of_nat l + 1)) with (S l) by lia.
  rewrite Nat2Z.id. rewrite (firstn_S_nth [] lines l Hl). fold cur.
  rewrite nth_firstn_snoc by lia.
  assert (Hlt : (Z.of_nat l <? len lines) = true)
    by (apply Z.ltb_lt; unfold len; lia).
  rewrite Hlt. simpl andb.
  assert (Hge : (column >=? 0) = true) by (apply Z.geb_le; lia).
  assert (Hneg : (column <? 0) = false) by (apply Z.ltb_ge; lia).
  rewrite Hge, Hneg. simpl andb.
  assert (Hafter :
    (if Z.of_nat l + 1 <? len lines then Join (skipn (S l) lines) else [])
    = Join (skipn (S l) lines)).
  { destruct (Z.ltb_spec (Z.of_nat l + 1) (len lines)) as [H|H]; [reflexivity|].
    rewrite skipn_all2 by (unfold len in H; lia). reflexivity. }
  rewrite Hafter.
  destruct (Z.ltb_spec column (len cur)) as [Hin|Hout].
  - rewrite insert_firstn_snoc by lia.
    assert (Hcc : c = Z.to_nat column) by (unfold c; lia).
    rewrite <- Hcc. fold before. rewrite nth_last_snoc. reflexivity.
  - assert (Hcc : c = length cur) by (unfold c, len in *; lia).
    rewrite nth_last_snoc.
    assert (Hf : firstn c cur = cur) by (rewrite Hcc; apply firstn_all).
    assert (Hs : skipn c cur = []) by (rewrite Hcc; apply skipn_all).
    unfold before. rewrite Hf, Hs. reflexivity.
Qed.

Lemma Join_snoc_app (A : list gostring) (x y : gostring) :
  Join (A ++ [x ++ y]) = Join (A ++ [x]) ++ y.
Proof.
  induction A as [|a A IH]; [reflexivity|].
  change ((a :: A) ++ [x ++ y]) with (a :: (A ++ [x ++ y])).
  change ((a :: A) ++ [x]) with (a :: (A ++ [x])).
  rewrite !Join_cons by (destruct A; discriminate).
  rewrite IH. now rewrite <- app_assoc.
Qed.

Lemma GetContent_partition (lines : list gostring) (l c : nat) :
  (l < length lines)%nat ->
  let cur := nth l lines [] in
  Join lines
  = Join (firstn l lines ++ [firstn c cur]) ++ skipn c cur
    ++ (if (S l <? length lines)%nat then LF :: Join (skipn (S l) lines) else []).
Proof.
  intros Hl cur.
  rewrite app_assoc. rewrite <- Join_snoc_app. rewrite firstn_skipn.
  rewrite <- (firstn_skipn (S l) lines) at 1.
  rewrite (firstn_S_nth [] lines l Hl). fold cur.
  destruct (Nat.ltb_spec (S l) (length lines)) as [H|H].
  - apply Join_app.
    + destruct (firstn l lines); discriminate.
    + intros E. apply (f_equal (@length _)) in E. rewrite length_skipn in E.
      simpl in E. lia.
  - rewrite skipn_all2 by lia. now rewrite !app_nil_r.
Qed.

Lemma lastCharOf_dot (s : gostring) :
  lastCharOf s = str "." <-> exists p, s = p ++ str ".".
Proof.
  unfold lastCharOf. split.
  - destruct (rev s) as [|b r] eqn:E; [discriminate|].
    unfold stringOfByte. destruct (_ <? _)%nat; [|discriminate].
    intros H. injection H as ->. exists (rev r).
    apply (f_equal (@rev _)) in E. rewrite rev_involutive in E. exact E.
  - intros [p ->]. rewrite rev_app_distr. reflexivity.
Qed.

Lemma lastCharOf_nil : lastCharOf [] = [].
Proof. reflexivity. Qed.

Lemma lastCharOf_ascii (p : gostring) (b : ascii) :
  (nat_of_ascii b < 128)%nat -> lastCharOf (p ++ [b]) = [b].
Proof.
  intros H. unfold lastCharOf. rewrite rev_app_distr. cbn [rev app].
  unfold stringOfByte. apply Nat.ltb_lt in H. now rewrite H.
Qed.


(** C9, as amended.  For every document, every line index and every
    column that is not negative, [GetContent] returns (it does not panic):
    the lines before the cursor line joined with the cursor line cut at
    the column, as the text before the cursor; the lines after the cursor
    line joined; the cursor line cut at the column, white space kept, as
    [LastLine]; the rest of the cursor line as [ContentImmediatelyAfter];
    and as [LastCharacter] the last byte of the text before the cursor
    when it is an ASCII byte, the empty string when that text is empty.
    A line index below 0 is taken as the first line, one past the end as
    the last line; a column past the end of the line is taken as the end
    of the line.  The document is the text before the cursor, then the
    rest of the cursor line, then the lines after it. *)
Theorem GetContent_window (text : gostring) (line column : Z) :
  0 <= column ->
  let lines := Split text in
  let l := Z.to_nat (Z.min (Z.max line 0) (len lines - 1)) in
  let cur := nth l lines [] in
  let c := Z.to_nat (Z.min column (len cur)) in
  let before := Join (firstn l lines ++ [firstn c cur]) in
  let after := Join (skipn (S l) lines) in
  exists parts,
    GetContent text line column = Some parts
    /\ ContentBefore parts = before
    /\ ContentAfter parts = after
    /\ LastLine parts = firstn c cur
    /\ ContentImmediatelyAfter parts = skipn c cur
    /\ (before = [] -> LastCharacter parts = [])
    /\ (forall p b, before = p ++ [b] -> (nat_of_ascii b < 128)%nat ->
          LastCharacter parts = [b])
    /\ text = before ++ skipn c cur
              ++ (if (S l <? length lines)%nat then LF :: after else []).
Proof.
  intros Hc lines l cur c before after.
  eexists. split; [exact (GetContent_parts text line column Hc)|].
  cbn [ContentBefore ContentAfter LastLine ContentImmediatelyAfter LastCharacter].
  fold lines. fold l. fold cur. fold c. fold before.
  repeat (split; [reflexivity|]).
  split; [intros ->; reflexivity|].
  split; [intros p b -> Hb; now apply lastCharOf_ascii|].
  pose proof (Split_length_pos text) as Hpos. fold lines in Hpos.
  assert (Hl : (l < length lines)%nat) by (unfold l, len; lia).
  rewrite <- (Join_Split text) at 1. fold lines.
  exact (GetContent_partition lines l c Hl).
Qed.

Lemma GetContent_window_witness :
  exists parts,
    GetContent (str "ab" ++ LF :: str "cdef" ++ LF :: str "g") 1 2 = Some parts
    /\ ContentBefore parts = str "ab" ++ LF :: str "cd"
    /\ ContentAfter parts = str "g"
    /\ LastLine parts = str "cd"
    /\ ContentImmediatelyAfter parts = str "ef".
Proof.
  destruct (GetContent_window (str "ab" ++ LF :: str "cdef" ++ LF :: str "g") 1 2
              ltac:(lia)) as (parts & H1 & H2 & H3 & H4 & H5 & _).
  exists parts. repeat split; assumption.
Defined.

(** C9 as stated fails: [LastLine] keeps its white space (the callers
    trim it), and a line index below 0 selects the first line, not the
    last. *)
Lemma GetContent_claim_fails :
  (exists p, GetContent (str "  x") 0 3 = Some p
             /\ LastLine p = str "  x"
             /\ LastLine p <> TrimSpace (str "  x"))
  /\ (GetContent (str "a" ++ LF :: str "b") (-1) 1
      = GetContent (str "a" ++ LF :: str "b") 0 1
      /\ GetContent (str "a" ++ LF :: str "b") (-1) 1
         <> GetContent (str "a" ++ LF :: str "b") 1 1).
Proof.
  split.
  - eexists. split; [reflexivity|]. split; [reflexivity|]. vm_compute. discriminate.
  - split; [reflexivity|]. vm_compute. discriminate.
Qed.

(** A byte from 0x80 on is converted by [string(byte)] into the two-byte
    encoding of the code point of that number: after the character U+00E9
    (bytes C3 A9), [LastCharacter] is U+00A9 (bytes C2 A9). *)
Example GetContent_last_byte_not_ascii :
  option_map LastCharacter (GetContent (bytes [195; 169]%nat) 0 2)
  = Some (bytes [194; 169]%nat).
Proof. reflexivity. Qed.

(** A negative column makes [GetContent] panic: the slice
    [lines[line][column:]] is taken without the [column >= 0] guard that
    the cut of the text before the cursor has. *)
Example GetContent_negative_column :
  GetContent (str "ab") 0 (-1) = None.
Proof. reflexivity. Qed.

(** ** The response assembler (C3, C7) *)

Lemma eqb_true_iff (a b : gostring) : Strings.eqb a b = true <-> a = b.
Proof. unfold Strings.eqb. apply bool_decide_eq_true. Qed.

Lemma eqb_false_iff (a b : gostring) : Strings.eqb a b = false <-> a <> b.
Proof. unfold Strings.eqb. apply bool_decide_eq_false. Qed.

Lemma overlapLoop_le (h s : gostring) (i : nat) : (overlapLoop h s i <= i)%nat.
Proof.
  induction i as [|j IH]; simpl; [lia|].
  destruct (Strings.eqb _ _); lia.
Qed.



Lemma advance_cons (p : Position) (c : ascii) (r : gostring) :
  advance p (c :: r)
  = advance (if Ascii.eqb c LF then mkPosition (Line p + 1) 0
             else mkPosition (Line p) (Character p + 1)) r.
Proof. reflexivity. Qed.

Ltac pos_eq :=
  repeat match goal with
    | |- context [?a =? ?b] => destruct (Z.eqb_spec a b)
    end;
  try lia; f_equal; lia.

Lemma advance_Split (s : gostring) (p : Position) :
  let lines := Split s in
  advance p s
  = mkPosition (Line p + len lines - 1)
      (len (nth (length lines - 1) lines [])
       + if Line p + len lines - 1 =? Line p then Character p else 0).
Proof.
  revert p. induction s as [|c r IH]; intros p.
  - destruct p as [L C]. unfold advance, len.
    cbn [Split fold_left length nth Nat.sub Line Character]. pos_eq.
  - rewrite advance_cons. cbn zeta in *. rewrite IH. clear IH.
    pose proof (Split_length_pos r) as Hp.
    cbn [Split]. destruct (Ascii.eqb c LF).
    + cbn [Line Character]. unfold len. cbn [length].
      replace (S (length (Split r)) - 1)%nat with (S (length (Split r) - 1)) by lia.
      cbn [nth]. pos_eq.
    + destruct (Split r) as [|h t]; [simpl in Hp; lia|].
      cbn [Line Character]. unfold len.
      destruct t as [|h' t'].
      * cbn [length nth Nat.sub]. pos_eq.
      * cbn [length].
        replace (S (S (length t')) - 1)%nat with (S (length t')) by lia.
        cbn [nth]. pos_eq.
Qed.

Lemma advance_no_LF (s : gostring) (p : Position) :
  ~ In LF s -> advance p s = mkPosition (Line p) (Character p + len s).
Proof.
  revert p. induction s as [|c r IH]; intros p Hn.
  - destruct p. unfold advance, len. simpl. f_equal. lia.
  - rewrite advance_cons. destruct (Ascii.eqb_spec c LF) as [->|Hne].
    + exfalso. apply Hn. now left.
    + rewrite IH by (intros H; apply Hn; now right).
      unfold len. cbn [Line Character length]. f_equal. lia.
Qed.

Lemma build_end_position (s : gostring) (p : Position) :
  let lines := Split s in
  let endLine := Line p + len lines - 1 in
  let endChar := len (nth (length lines - 1) lines []) in
  mkPosition endLine
    (if endLine =? Line p then endChar + Character p else endChar)
  = advance p s.
Proof.
  cbn zeta. rewrite advance_Split. cbn zeta. f_equal.
  destruct (_ =? _); lia.
Qed.

Lemma advance_posLt (s : gostring) (p : Position) :
  s <> [] -> posLt p (advance p s).
Proof.
  intros Hs. rewrite advance_Split. cbn zeta. unfold posLt. cbn [Line Character].
  pose proof (Split_length_pos s) as Hp.
  pose proof (Join_Split s) as HJ.
  destruct (Split s) as [|x [|y t]].
  - simpl in Hp. lia.
  - right. simpl in HJ. subst x. unfold len. cbn [length nth Nat.sub].
    replace (Line p + Z.of_nat 1 - 1) with (Line p) by lia.
    rewrite Z.eqb_refl. split; [reflexivity|].
    destruct s; [congruence|]. cbn [length]. lia.
  - left. unfold len. cbn [length]. lia.
Qed.

Lemma TrimRight_nil (c : gostring) : TrimRight [] c = [].
Proof. reflexivity. Qed.

Lemma findOverlapSuffix_bounds (hint suffix : gostring) :
  0 <= findOverlapSuffix hint suffix <= len suffix
  /\ (0 < findOverlapSuffix hint suffix -> hint <> []).
Proof.
  unfold findOverlapSuffix. destruct (Strings.eqb suffix []); [unfold len; split; [lia|lia]|].
  set (h := TrimRight hint [SP; TAB]).
  set (m := if (length suffix <? length h)%nat then length suffix else length h).
  pose proof (overlapLoop_le h suffix m) as Hle.
  assert (Hm : (m <= length suffix)%nat /\ (m <= length h)%nat).
  { unfold m. destruct (Nat.ltb_spec (length suffix) (length h)); lia. }
  unfold len. split; [lia|].
  intros Hpos ->. unfold h in Hm. rewrite TrimRight_nil in Hm. simpl in Hm. lia.
Qed.

Lemma In_skipn_inv {A} (x : A) (n : nat) (l : list A) :
  In x (skipn n l) -> In x l.
Proof.
  intros H. rewrite <- (firstn_skipn n l). apply in_or_app. now right.
Qed.

Lemma GetContent_after_no_LF (text : gostring) (line column : Z) (content : ContentParts) :
  GetContent text line column = Some content ->
  ~ In LF (ContentImmediatelyAfter content).
Proof.
  intros H. destruct (Z.ltb_spec column 0) as [Hneg|Hc].
  - exfalso. unfold GetContent in H.
    match type of H with
    | (if ?c then _ else _) = _ => assert (Hcond : c = true)
    end.
    { pose proof (Split_length_pos text) as Hp.
      apply andb_true_iff. split; apply Z.ltb_lt; unfold len in *.
      - destruct (line <? 0) eqn:L; destruct (_ >=? _) eqn:G; try lia;
          rewrite Z.geb_leb in G; apply Z.leb_gt in G; lia.
      - lia. }
    rewrite Hcond in H. apply Z.ltb_lt in Hneg. rewrite Hneg in H. discriminate.
  - rewrite (GetContent_parts text line column Hc) in H.
    injection H as <-. cbn [ContentImmediatelyAfter].
    intros Hin. apply In_skipn_inv in Hin.
    pose proof (Split_no_LF text) as HF. rewrite Forall_forall in HF.
    set (l := Z.to_nat _) in Hin.
    destruct (Nat.lt_ge_cases l (length (Split text))) as [Hl|Hl].
    + apply (HF (nth l (Split text) [])); [|exact Hin].
      apply list_elem_of_In. apply nth_In. exact Hl.
    + rewrite nth_overflow in Hin by lia. destruct Hin.
Qed.

Lemma buildCompletionItem_edits (raw : gostring) (content : ContentParts)
    (position : Position) (index : Z) :
  let text := trimHint raw content in
  let ov := findOverlapSuffix text (ContentImmediatelyAfter content) in
  let stop := advance position text in
  MainEdit (buildCompletionItem raw content position index)
    = Some (mkTextEdit (mkRange position position) text)
  /\ AdditionalTextEdits (buildCompletionItem raw content position index)
     = if ov >? 0
       then [mkTextEdit
               (mkRange stop (mkPosition (Line stop) (Character stop + ov)))
               []]
       else [].
Proof.
  intros text ov stop.
  unfold buildCompletionItem. fold text. cbn [MainEdit AdditionalTextEdits].
  split; [reflexivity|]. fold ov.
  pose proof (build_end_position text position) as E. cbn zeta in E.
  unfold stop. rewrite <- E. reflexivity.
Qed.



(** C3.  For the content parts [GetContent] derives from a document and
    a cursor position, every auxiliary edit of a built item is a deletion
    that starts strictly after the insertion point, exactly where the
    inserted text ends, and spans a non-empty prefix of the text the
    document already had right after the cursor (positions are those of
    the document once the insertion is made, which is how the edit is
    positioned by the code). *)
Theorem delete_edits_follow_insertion (text : gostring) (line column : Z)
    (content : ContentParts) (hint : gostring) (index : Z) :
  GetContent text line column = Some content ->
  let position := mkPosition line column in
  let item := buildCompletionItem hint content position index in
  let inserted := trimHint hint content in
  let after := ContentImmediatelyAfter content in
  MainEdit item = Some (mkTextEdit (mkRange position position) inserted)
  /\ Forall
       (fun e =>
          NewText e = []
          /\ posLt position (Start (EditRange e))
          /\ Start (EditRange e) = advance position inserted
          /\ exists k, (0 < k <= length after)%nat
               /\ End_ (EditRange e)
                  = advance (Start (EditRange e)) (firstn k after))
       (AdditionalTextEdits item).
Proof.
  intros HG position item inserted after.
  destruct (buildCompletionItem_edits hint content position index) as [HM HA].
  split; [exact HM|]. unfold item. rewrite HA. fold inserted. fold after.
  set (ov := findOverlapSuffix inserted after).
  pose proof (findOverlapSuffix_bounds inserted after) as [Hb Hne]. fold ov in Hb, Hne.
  destruct (Z.gtb_spec ov 0) as [Hpos|Hz]; [|constructor].
  constructor; [|constructor]. cbn [NewText EditRange Start End_].
  split; [reflexivity|].
  split; [apply advance_posLt; apply Hne; lia|].
  split; [reflexivity|].
  exists (Z.to_nat ov). unfold len in Hb. split; [lia|].
  rewrite (advance_no_LF (firstn (Z.to_nat ov) after)).
  - unfold len. rewrite length_firstn. cbn [Line Character]. f_equal. lia.
  - intros Hin. apply (GetContent_after_no_LF _ _ _ _ HG). fold after.
    rewrite <- (firstn_skipn (Z.to_nat ov) after). apply in_or_app. now left.
Qed.

Lemma delete_edits_follow_insertion_witness :
  let text := str "f(" ++ LF :: str "x)" in
  let content :=
    mkContentParts (str "f(" ++ LF :: str "x") [] (str "x") (str "x") (str ")") in
  let position := mkPosition 1 1 in
  let item := buildCompletionItem (str "+ 1)") content position 0 in
  GetContent text 1 1 = Some content
  /\ AdditionalTextEdits item
     = [mkTextEdit (mkRange (mkPosition 1 5) (mkPosition 1 6)) []]
  /\ Forall
       (fun e =>
          NewText e = []
          /\ posLt position (Start (EditRange e))
          /\ Start (EditRange e) = advance position (trimHint (str "+ 1)") content)
          /\ exists k, (0 < k <= length (ContentImmediatelyAfter content))%nat
               /\ End_ (EditRange e)
                  = advance (Start (EditRange e))
                      (firstn k (ContentImmediatelyAfter content)))
       (AdditionalTextEdits item).
Proof.
  intros text content position item.
  split; [reflexivity|]. split; [reflexivity|].
  exact (proj2 (delete_edits_follow_insertion text 1 1 content (str "+ 1)") 0
                  eq_refl)).
Defined.

(** ** The request lifecycle (C1, C2, C4, C5) *)

Local Open Scope nat_scope.

Local Open Scope nat_scope.


Lemma countb_app {A} (f : A -> bool) (l1 l2 : list A) :
  countb f (l1 ++ l2) = countb f l1 + countb f l2.
Proof. induction l1; simpl; lia. Qed.

Lemma countb_insert {A} (f : A -> bool) (l : list A) (i : nat) (x y : A) :
  l !! i = Some x ->
  countb f (<[i := y]> l) + b2n (f x) = countb f l + b2n (f y).
Proof.
  revert i. induction l as [|a l IH]; intros i H; [discriminate|].
  destruct i as [|i]; simpl in *.
  - injection H as ->. unfold b2n. destruct (f x), (f y); lia.
  - specialize (IH i H). unfold b2n in *. destruct (f a); lia.
Qed.

Lemma total_app {A} (f : A -> nat) (l1 l2 : list A) :
  total f (l1 ++ l2) = total f l1 + total f l2.
Proof. induction l1; simpl; lia. Qed.

Lemma total_insert {A} (f : A -> nat) (l : list A) (i : nat) (x y : A) :
  l !! i = Some x ->
  total f (<[i := y]> l) + f x = total f l + f y.
Proof.
  revert i. induction l as [|a l IH]; intros i H; [discriminate|].
  destruct i as [|i]; simpl in *.
  - injection H as ->. lia.
  - specialize (IH i H). lia.
Qed.

Lemma total_pos {A} (f : A -> nat) (l : list A) :
  0 < total f l -> exists i x, l !! i = Some x /\ 0 < f x.
Proof.
  induction l as [|a l IH]; simpl; [lia|]. intros H.
  destruct (f a) eqn:E.
  - destruct IH as (i & x & Hi & Hx); [lia|]. exists (S i), x. auto.
  - exists 0, a. simpl. split; [reflexivity|lia].
Qed.

Lemma total_zero_countb {A} (f : A -> nat) (g : A -> bool) (l : list A) :
  (forall x, f x = 0 -> g x = false) -> total f l = 0 -> countb g l = 0.
Proof.
  intros Hfg. induction l as [|a l IH]; simpl; [reflexivity|]. intros H.
  rewrite (Hfg a) by lia. rewrite IH by lia. reflexivity.
Qed.


Lemma balance_Send (i : Z) (r : Response) (w : World) :
  balance i (Send r w) = balance i w + b2n (bool_decide (RespID r = Some i)).
Proof.
  unfold balance, answersTo, owed, Send. cbn [sent timers threads].
  rewrite countb_app. simpl. unfold b2n. destruct (bool_decide _); lia.
Qed.

Lemma balance_finish (i : Z) (th : nat) (t : Thread) (w : World) :
  threads w !! th = Some t ->
  balance i (finish th t w) + b2n (liveFor i t) = balance i w.
Proof.
  intros H. unfold balance, answersTo, owed, finish, with_threads.
  cbn [sent timers threads].
  pose proof (countb_insert (liveFor i) (threads w) th t
                (mkThread (t_req t) PDone) H) as E.
  change (liveFor i (mkThread (t_req t) PDone)) with false in E.
  simpl b2n in E. lia.
Qed.

Lemma balance_goto (i : Z) (th : nat) (t : Thread) (pc : PC) (w : World) :
  threads w !! th = Some t -> t_pc t <> PDone -> pc <> PDone ->
  balance i (goto th t pc w) = balance i w.
Proof.
  intros H Ht Hpc. unfold balance, answersTo, owed, goto, with_threads.
  cbn [sent timers threads].
  pose proof (countb_insert (liveFor i) (threads w) th t
                (mkThread (t_req t) pc) H) as E.
  assert (liveFor i (mkThread (t_req t) pc) = liveFor i t).
  { unfold liveFor. cbn [t_pc t_req]. destruct pc, (t_pc t); congruence. }
  rewrite H0 in E. lia.
Qed.

Lemma liveFor_live (i : Z) (t : Thread) :
  t_pc t <> PDone ->
  liveFor i t = bool_decide (ID (r_msg (t_req t)) = Some i).
Proof. unfold liveFor. destruct (t_pc t); congruence. Qed.

(** Answering the request of a live goroutine and ending it keeps the
    balance. *)
Lemma balance_answer (i : Z) (th : nat) (t : Thread) (items : list CompletionItem)
    (w : World) :
  threads w !! th = Some t -> t_pc t <> PDone ->
  balance i (finish th t (Send (mkResponse (ID (r_msg (t_req t))) items) w))
  = balance i w.
Proof.
  intros H Ht.
  pose proof (balance_finish i th t
                (Send (mkResponse (ID (r_msg (t_req t))) items) w) H) as E.
  rewrite balance_Send in E. cbn [RespID] in E.
  rewrite liveFor_live in E by exact Ht. lia.
Qed.

Lemma balance_with_ctxs (i : Z) (c : list bool) (w : World) :
  balance i (with_ctxs c w) = balance i w.
Proof. reflexivity. Qed.

Lemma balance_with_handler (i : Z) (h : CompletionHandler) (w : World) :
  balance i (with_handler h w) = balance i w.
Proof. reflexivity. Qed.

Lemma balance_with_calls (i : Z) (c : list BackendCall) (w : World) :
  balance i (with_calls c w) = balance i w.
Proof. reflexivity. Qed.

Lemma owned_not_pending (w : World) (t : nat) :
  timersOwned w -> timer (handler w) = Some t ->
  (forall r, timers w !! t <> Some (TPending r)) -> noPending w.
Proof.
  intros Ho Ht Hn tm r H. destruct (Ho tm r H) as [E _].
  rewrite Ht in E. injection E as ->. exact (Hn r H).
Qed.

Lemma owned_no_timer (w : World) :
  timersOwned w -> timer (handler w) = None -> noPending w.
Proof.
  intros Ho Ht tm r H. destruct (Ho tm r H) as [E _]. congruence.
Qed.

Lemma cancelPrevious_keeps (w : World) :
  handler (cancelPrevious w) = handler w
  /\ timers (cancelPrevious w) = timers w
  /\ threads (cancelPrevious w) = threads w
  /\ sent (cancelPrevious w) = sent w
  /\ calls (cancelPrevious w) = calls w
  /\ store (cancelPrevious w) = store w.
Proof. unfold cancelPrevious. destruct (cancelCurrent _); repeat split. Qed.

Lemma balance_cancelPrevious (i : Z) (w : World) :
  balance i (cancelPrevious w) = balance i w.
Proof. unfold cancelPrevious. destruct (cancelCurrent _); reflexivity. Qed.

Lemma stopPending_spec (i : Z) (w : World) :
  timersOwned w ->
  noPending (stopPending w)
  /\ balance i (stopPending w) = balance i w
  /\ handler (stopPending w) = handler w
  /\ threads (stopPending w) = threads w
  /\ calls (stopPending w) = calls w.
Proof.
  intros Ho. unfold stopPending.
  destruct (timer (handler w)) as [t|] eqn:Ht.
  2:{ split; [now apply owned_no_timer|]. repeat split. }
  unfold timerStop.
  destruct (timers w !! t) as [[r| |]|] eqn:Hl.
  - destruct (Ho t r Hl) as [_ Hp].
    assert (Hnp : noPending (with_timers (<[t := TStopped]> (timers w)) w)).
    { intros tm r' H. cbn [timers with_timers] in H.
      destruct (Nat.eq_dec tm t) as [->|Hne].
      - rewrite list_lookup_insert_eq in H by (eapply lookup_lt_Some; eauto).
        discriminate.
      - rewrite list_lookup_insert_ne in H by congruence.
        destruct (Ho tm r' H) as [E _]. congruence. }
    assert (Hb : balance i (with_timers (<[t := TStopped]> (timers w)) w)
                 + b2n (bool_decide (ID (r_msg r) = Some i)) = balance i w).
    { unfold balance, answersTo, owed, with_timers. cbn [sent timers threads].
      pose proof (countb_insert (pendingFor i) (timers w) t (TPending r) TStopped Hl) as E.
      cbn [pendingFor] in E. simpl b2n in E. lia. }
    cbn [handler with_timers]. rewrite Hp.
    destruct (ID (r_msg r)) as [id|] eqn:Hid.
    + unfold sendEmptyCompletion. split; [exact Hnp|].
      rewrite balance_Send. cbn [RespID]. split; [lia|]. repeat split.
    + split; [exact Hnp|]. split; [|repeat split].
      rewrite bool_decide_eq_false_2 in Hb by discriminate. simpl in Hb. lia.
  - assert (noPending w) by (eapply owned_not_pending; eauto; congruence).
    cbn beta iota zeta. destruct (pendingMsgID (handler w)); repeat split; assumption.
  - assert (noPending w) by (eapply owned_not_pending; eauto; congruence).
    cbn beta iota zeta. destruct (pendingMsgID (handler w)); repeat split; assumption.
  - assert (noPending w) by (eapply owned_not_pending; eauto; congruence).
    cbn beta iota zeta. destruct (pendingMsgID (handler w)); repeat split; assumption.
Qed.

Lemma timersOwned_cancelPrevious (w : World) :
  timersOwned w -> timersOwned (cancelPrevious w).
Proof.
  intros Ho tm r H. destruct (cancelPrevious_keeps w) as (Eh & Et & _).
  rewrite Eh. rewrite Et in H. exact (Ho tm r H).
Qed.

Lemma scheduleCompletion_spec (i : Z) (msg : JSONRPCMessage)
    (params : CompletionParams) (buffer : Buffer) (content : ContentParts)
    (w : World) :
  timersOwned w ->
  timersOwned (scheduleCompletion msg params buffer content w)
  /\ balance i (scheduleCompletion msg params buffer content w)
     = balance i w + b2n (bool_decide (ID msg = Some i)).
Proof.
  intros Ho. unfold scheduleCompletion.
  destruct (stopPending_spec i (cancelPrevious w)
              (timersOwned_cancelPrevious w Ho)) as (Hnp & Hb & _).
  rewrite balance_cancelPrevious in Hb.
  set (w2 := stopPending (cancelPrevious w)) in *.
  cbn zeta. destruct (_ && _).
  - split.
    + intros tm r H. exfalso. exact (Hnp tm r H).
    + unfold sendEmptyCompletion. rewrite balance_Send, balance_with_handler.
      cbn [RespID]. lia.
  - split.
    + intros tm r H. cbn [timers with_handler with_timers handler] in *.
      destruct (Nat.lt_ge_cases tm (length (timers w2))) as [Hlt|Hge].
      * rewrite lookup_app_l in H by exact Hlt. exfalso. exact (Hnp tm r H).
      * assert (tm = length (timers w2)).
        { apply lookup_lt_Some in H. rewrite length_app in H. simpl in H. lia. }
        subst tm. rewrite list_lookup_middle in H by reflexivity.
        injection H as <-. cbn [timer pendingMsgID r_msg]. auto.
    + rewrite balance_with_handler.
      unfold balance, answersTo, owed. cbn [sent timers threads with_timers with_ctxs].
      rewrite countb_app. cbn [countb pendingFor r_msg].
      unfold balance, answersTo, owed in Hb. unfold answersTo.
      unfold b2n. destruct (bool_decide _); lia.
Qed.

Lemma timersOwned_same (w w' : World) :
  timers w' = timers w -> handler w' = handler w ->
  timersOwned w -> timersOwned w'.
Proof. intros Et Eh Ho tm r H. rewrite Eh. rewrite Et in H. exact (Ho tm r H). Qed.

Ltac keep_owned :=
  match goal with
  | Ho : timersOwned ?w |- timersOwned _ =>
      apply (timersOwned_same w); [reflexivity|reflexivity|exact Ho]
  end.

Lemma executeStep_invariant (cfg : Config) (th : nat) (w w' : World) (i : Z) :
  executeStep cfg th w = Some w' -> timersOwned w ->
  timersOwned w' /\ balance i w' = balance i w.
Proof.
  unfold executeStep. intros H Ho.
  destruct (threads w !! th) as [t|] eqn:Ht; [|discriminate].
  destruct (t_pc t) eqn:Hpc; try discriminate.
  - destruct (negb _); injection H as <-.
    + split; [keep_owned|]. apply balance_answer; [exact Ht|congruence].
    + split; [keep_owned|]. apply balance_goto; [exact Ht|congruence|discriminate].
  - destruct (store w !! r_uri (t_req t)) as [b|].
    + destruct (_ >? _)%Z; injection H as <-.
      * split; [keep_owned|]. apply balance_answer; [exact Ht|congruence].
      * split; [keep_owned|]. apply balance_goto; [exact Ht|congruence|discriminate].
    + injection H as <-.
      split; [keep_owned|]. apply balance_answer; [exact Ht|congruence].
  - destruct (default false _); injection H as <-.
    + split; [keep_owned|]. apply balance_answer; [exact Ht|congruence].
    + split; [keep_owned|].
      rewrite balance_goto; [reflexivity|exact Ht|congruence|discriminate].
Qed.

Lemma executeReturn_invariant (th : nat) (out : Outcome) (w w' : World) (i : Z) :
  executeReturn th out w = Some w' -> timersOwned w ->
  timersOwned w' /\ balance i w' = balance i w.
Proof.
  unfold executeReturn. intros H Ho.
  destruct (threads w !! th) as [t|] eqn:Ht; [|discriminate].
  destruct (t_pc t) eqn:Hpc; try discriminate.
  destruct out as [hints| |].
  - destruct (_ =? _)%Z; injection H as <-;
      (split; [keep_owned|apply balance_answer; [exact Ht|congruence]]).
  - injection H as <-.
    split; [keep_owned|apply balance_answer; [exact Ht|congruence]].
  - injection H as <-.
    split; [keep_owned|apply balance_answer; [exact Ht|congruence]].
Qed.

Lemma executePanic_invariant (th : nat) (w w' : World) (i : Z) :
  executePanic th w = Some w' -> timersOwned w ->
  timersOwned w' /\ balance i w' = balance i w.
Proof.
  unfold executePanic. intros H Ho.
  destruct (threads w !! th) as [t|] eqn:Ht; [|discriminate].
  destruct (t_pc t) eqn:Hpc; try discriminate; injection H as <-;
    (split; [keep_owned|apply balance_answer; [exact Ht|congruence]]).
Qed.

Lemma fire_invariant (tm : nat) (w w' : World) (i : Z) :
  fire tm w = Some w' -> timersOwned w ->
  timersOwned w' /\ balance i w' = balance i w.
Proof.
  unfold fire. intros H Ho.
  destruct (timers w !! tm) as [[r| |]|] eqn:Hl; try discriminate.
  injection H as <-. split.
  - intros tm' r' H. cbn [timers with_threads with_timers handler] in *.
    destruct (Nat.eq_dec tm' tm) as [->|Hne].
    + rewrite list_lookup_insert_eq in H by (eapply lookup_lt_Some; eauto).
      discriminate.
    + rewrite list_lookup_insert_ne in H by congruence. exact (Ho tm' r' H).
  - unfold balance, answersTo, owed.
    cbn [sent timers threads with_threads with_timers].
    rewrite countb_app.
    pose proof (countb_insert (pendingFor i) (timers w) tm (TPending r) TFired Hl) as E.
    cbn [pendingFor countb liveFor t_pc t_req] in *. simpl b2n in E.
    unfold b2n in E. destruct (bool_decide _); lia.
Qed.

Lemma onCompletion_invariant (msg : JSONRPCMessage) (w w' : World) (i : Z) :
  onCompletion msg w = Some w' -> timersOwned w ->
  timersOwned w' /\ balance i w' = balance i w + b2n (bool_decide (ID msg = Some i)).
Proof.
  unfold onCompletion. intros H Ho.
  destruct (Params msg) as [params|].
  2:{ injection H as <-. split; [keep_owned|]. apply balance_Send. }
  destruct (store w !! URI params) as [buffer|].
  2:{ injection H as <-. split; [keep_owned|]. apply balance_Send. }
  destruct (GetContent _ _ _) as [content|]; [|discriminate].
  destruct (shouldSkip _ _); injection H as <-.
  - split; [keep_owned|]. apply balance_Send.
  - now apply scheduleCompletion_spec.
Qed.

Lemma step_invariant (cfg : Config) (w w' : World) (e : Event) (i : Z) :
  step cfg w e = Some w' -> timersOwned w ->
  timersOwned w' /\ balance i w' = balance i w + b2n (isTriggerOf i e).
Proof.
  destruct e as [msg|tm|th|th out|th|uri b|dt]; cbn [step isTriggerOf b2n];
    intros H Ho.
  - now apply onCompletion_invariant.
  - rewrite Nat.add_0_r. eapply fire_invariant; eauto.
  - rewrite Nat.add_0_r. eapply executeStep_invariant; eauto.
  - rewrite Nat.add_0_r. eapply executeReturn_invariant; eauto.
  - rewrite Nat.add_0_r. eapply executePanic_invariant; eauto.
  - injection H as <-. split; [keep_owned|]. unfold balance, answersTo, owed. cbn [sent timers threads]. lia.
  - destruct (dt <? 0)%Z; [discriminate|]. injection H as <-.
    split; [keep_owned|]. unfold balance, answersTo, owed. cbn [sent timers threads]. lia.
Qed.

Lemma run_invariant (cfg : Config) (evs : list Event) (w w' : World) (i : Z) :
  run cfg w evs = Some w' -> timersOwned w ->
  timersOwned w' /\ balance i w' = balance i w + triggersOf i evs.
Proof.
  revert w. induction evs as [|e evs IH]; intros w H Ho.
  - injection H as <-. split; [exact Ho|]. unfold triggersOf. simpl. lia.
  - cbn [run] in H. destruct (step cfg w e) as [w1|] eqn:Hs; [|discriminate].
    destruct (step_invariant cfg w w1 e i Hs Ho) as [Ho1 Hb1].
    destruct (IH w1 H Ho1) as [Ho' Hb'].
    split; [exact Ho'|]. rewrite Hb', Hb1. unfold triggersOf, b2n.
    cbn [countb]. lia.
Qed.

Lemma run_app (cfg : Config) (evs1 evs2 : list Event) (w w1 : World) :
  run cfg w evs1 = Some w1 -> run cfg w (evs1 ++ evs2) = run cfg w1 evs2.
Proof.
  revert w. induction evs1 as [|e evs IH]; intros w H.
  - injection H as <-. reflexivity.
  - cbn [run app] in *. destruct (step cfg w e); [|discriminate]. now apply IH.
Qed.

Lemma timersOwned_init : timersOwned initWorld.
Proof. intros tm r H. cbn in H. discriminate. Qed.

Lemma work_finish (th : nat) (t : Thread) (w : World) :
  threads w !! th = Some t ->
  work (finish th t w) + threadWork t = work w.
Proof.
  intros H. unfold work, finish, with_threads. cbn [timers threads].
  pose proof (total_insert threadWork (threads w) th t (mkThread (t_req t) PDone) H) as E.
  cbn [threadWork t_pc] in E. lia.
Qed.

Lemma work_goto (th : nat) (t : Thread) (pc : PC) (w : World) :
  threads w !! th = Some t ->
  work (goto th t pc w) + threadWork t = work w + threadWork (mkThread (t_req t) pc).
Proof.
  intros H. unfold work, goto, with_threads. cbn [timers threads].
  pose proof (total_insert threadWork (threads w) th t (mkThread (t_req t) pc) H) as E.
  lia.
Qed.

Lemma work_Send (r : Response) (w : World) : work (Send r w) = work w.
Proof. reflexivity. Qed.

(** A world with work left can take a step that is not a trigger and
    that leaves less work. *)
Lemma progress (cfg : Config) (w : World) :
  0 < work w ->
  exists e w', isTrigger e = false /\ step cfg w e = Some w' /\ work w' < work w.
Proof.
  intros Hw. unfold work in Hw.
  destruct (Nat.eq_dec (total timerWork (timers w)) 0) as [Hz|Hnz].
  - destruct (total_pos threadWork (threads w)) as (th & t & Ht & Hpos); [lia|].
    destruct (t_pc t) eqn:Hpc; unfold threadWork in Hpos; rewrite Hpc in Hpos; try lia.
    + exists (Step th). cbn [step isTrigger]. unfold executeStep. rewrite Ht, Hpc.
      destruct (negb _); eexists; (split; [reflexivity|split; [reflexivity|]]).
      * pose proof (work_finish th t (sendEmptyCompletion (ID (r_msg (t_req t))) w) Ht) as E.
        unfold sendEmptyCompletion in *. rewrite work_Send in E.
        unfold threadWork in E. rewrite Hpc in E. lia.
      * pose proof (work_goto th t PCheckBuffer w Ht) as E.
        unfold threadWork in E. rewrite Hpc in E. cbn [t_pc] in E. lia.
    + exists (Step th). cbn [step isTrigger]. unfold executeStep. rewrite Ht, Hpc.
      destruct (store w !! _) as [b|]; [destruct (_ >? _)%Z|];
        eexists; (split; [reflexivity|split; [reflexivity|]]).
      * pose proof (work_finish th t (sendEmptyCompletion (ID (r_msg (t_req t))) w) Ht) as E.
        unfold sendEmptyCompletion in *. rewrite work_Send in E.
        unfold threadWork in E. rewrite Hpc in E. lia.
      * pose proof (work_goto th t PCheckCtx w Ht) as E.
        unfold threadWork in E. rewrite Hpc in E. cbn [t_pc] in E. lia.
      * pose proof (work_finish th t (sendEmptyCompletion (ID (r_msg (t_req t))) w) Ht) as E.
        unfold sendEmptyCompletion in *. rewrite work_Send in E.
        unfold threadWork in E. rewrite Hpc in E. lia.
    + exists (Step th). cbn [step isTrigger]. unfold executeStep. rewrite Ht, Hpc.
      destruct (default false _);
        eexists; (split; [reflexivity|split; [reflexivity|]]).
      * pose proof (work_finish th t (sendEmptyCompletion (ID (r_msg (t_req t))) w) Ht) as E.
        unfold sendEmptyCompletion in *. rewrite work_Send in E.
        unfold threadWork in E. rewrite Hpc in E. lia.
      * match goal with |- work (goto _ _ _ ?w0) < _ =>
          pose proof (work_goto th t PAwait w0 Ht) as E end.
        unfold threadWork in E. rewrite Hpc in E. cbn [t_pc] in E.
        unfold work in *. unfold goto, with_threads, with_calls in *.
        cbn [timers threads] in *. lia.
    + exists (Return th Failed). cbn [step isTrigger]. unfold executeReturn.
      rewrite Ht, Hpc. eexists; (split; [reflexivity|split; [reflexivity|]]).
      pose proof (work_finish th t (sendEmptyCompletion (ID (r_msg (t_req t))) w) Ht) as E.
      unfold sendEmptyCompletion in *. rewrite work_Send in E.
      unfold threadWork in E. rewrite Hpc in E. lia.
  - destruct (total_pos timerWork (timers w)) as (tm & ts & Ht & Hpos); [lia|].
    destruct ts as [r| |]; cbn in Hpos; try lia.
    exists (Fire tm). cbn [step isTrigger]. unfold fire. rewrite Ht.
    eexists; (split; [reflexivity|split; [reflexivity|]]).
    unfold work. cbn [timers threads with_threads with_timers].
    rewrite total_app.
    pose proof (total_insert timerWork (timers w) tm (TPending r) TFired Ht) as E.
    cbn in *. lia.
Qed.

Lemma drain (cfg : Config) (n : nat) (w : World) :
  work w <= n ->
  exists evs w', forallb (fun e => negb (isTrigger e)) evs = true
                 /\ run cfg w evs = Some w' /\ work w' = 0.
Proof.
  revert w. induction n as [|n IH]; intros w Hn.
  - exists [], w. repeat split. lia.
  - destruct (Nat.eq_dec (work w) 0) as [Hz|Hnz].
    + exists [], w. repeat split. exact Hz.
    + destruct (progress cfg w) as (e & w1 & He & Hs & Hlt); [lia|].
      destruct (IH w1) as (evs & w' & Hf & Hr & Hz); [lia|].
      exists (e :: evs), w'. cbn [forallb run]. rewrite He, Hs. auto.
Qed.

Lemma work_zero_owed (i : Z) (w : World) : work w = 0 -> owed i w = 0.
Proof.
  unfold work, owed. intros H.
  rewrite (total_zero_countb timerWork (pendingFor i)); [|  |lia].
  - rewrite (total_zero_countb threadWork (liveFor i)); [reflexivity| |lia].
    intros t Ht. unfold threadWork in Ht. unfold liveFor.
    destruct (t_pc t); try discriminate. reflexivity.
  - intros ts Hts. destruct ts; try discriminate; reflexivity.
Qed.

Lemma triggersOf_app (i : Z) (evs1 evs2 : list Event) :
  triggersOf i (evs1 ++ evs2) = triggersOf i evs1 + triggersOf i evs2.
Proof. apply countb_app. Qed.

Lemma triggersOf_none (i : Z) (evs : list Event) :
  forallb (fun e => negb (isTrigger e)) evs = true -> triggersOf i evs = 0.
Proof.
  induction evs as [|e evs IH]; [reflexivity|]. cbn [forallb].
  intros H. apply andb_true_iff in H as [He Hr].
  unfold triggersOf in *. cbn [countb]. rewrite (IH Hr).
  destruct e; try discriminate; reflexivity.
Qed.

Lemma balance_init (i : Z) : balance i initWorld = 0.
Proof. reflexivity. Qed.

(** X19.  Off the crash path every trigger is answered exactly once.  In
    every world reached from the initial one, that is on every trace on
    which the handler has not panicked, for every message id: the
    responses sent to it plus the requests with that id still waiting (in
    debounce or being executed) are as many as the trigger messages
    received with that id, so no message is answered twice; and the
    waiting requests can always be brought to their end (timers fire,
    goroutines finish), after which every id has been answered exactly as
    many times as it was received. *)
Theorem one_response_per_trigger (cfg : Config) (evs : list Event) (w : World) :
  run cfg initWorld evs = Some w ->
  (forall i, answersTo i w + owed i w = triggersOf i evs)
  /\ exists evs' w',
       forallb (fun e => negb (isTrigger e)) evs' = true
       /\ run cfg w evs' = Some w'
       /\ forall i, owed i w' = 0 /\ answersTo i w' = triggersOf i evs.
Proof.
  intros Hrun.
  assert (Hbal : forall i, answersTo i w + owed i w = triggersOf i evs).
  { intros i.
    destruct (run_invariant cfg evs initWorld w i Hrun timersOwned_init) as [_ Hb].
    rewrite balance_init in Hb. exact Hb. }
  split; [exact Hbal|].
  destruct (drain cfg (work w) w (Nat.le_refl _)) as (evs' & w' & Hf & Hr & Hz).
  exists evs', w'. split; [exact Hf|]. split; [exact Hr|].
  intros i. pose proof (work_zero_owed i w' Hz) as Ho. split; [exact Ho|].
  assert (Hrun' : run cfg initWorld (evs ++ evs') = Some w').
  { rewrite (run_app cfg evs evs' initWorld w Hrun). exact Hr. }
  destruct (run_invariant cfg (evs ++ evs') initWorld w' i Hrun' timersOwned_init)
    as [_ Hb].
  rewrite balance_init, triggersOf_app, (triggersOf_none i evs' Hf) in Hb.
  unfold balance in Hb. lia.
Qed.

Local Close Scope nat_scope.

Lemma one_response_per_trigger_witness :
  exists w, run demoCfg initWorld raceTrace = Some w
    /\ forall i, (answersTo i w + owed i w = triggersOf i raceTrace)%nat.
Proof.
  eexists. split; [vm_compute; reflexivity|].
  intros i.
  exact (proj1 (one_response_per_trigger demoCfg raceTrace _
                  ltac:(vm_compute; reflexivity)) i).
Defined.

(** C2 fails on the code.  In [raceTrace] request A has passed its
    three checks and is inside the backend call when B is triggered: B
    bumps the request counter to 2 and cancels A's context, yet when A's
    backend call comes back with a hint and a nil error (here the Ollama
    backend, one attempt done and the other cancelled), A sends it: no
    check follows the call.  Both A and B end up with a non-empty
    list. *)
Theorem superseded_request_answers_items :
  exists w w',
    Ollama.Completion (Ollama.mkCompletionRequest (str "x := ma") [])
      (NumSuggestions demoCfg) raceReplies [0; 1]%nat
    = ([str "ke([]int, 0)"], None)
    /\ run demoCfg initWorld raceTrace = Some w
    /\ requestID (handler w) = 2
    /\ ctxs w !! 0%nat = Some true
    /\ summary w = [(Some 1, [str "ke([]int, 0)"])]
    /\ run demoCfg w raceTraceEnd = Some w'
    /\ summary w' = [(Some 1, [str "ke([]int, 0)"]); (Some 2, [str "in(a, b)"])].
Proof.
  eexists. eexists. split; [vm_compute; reflexivity|].
  split; [vm_compute; reflexivity|].
  split; [reflexivity|]. split; [reflexivity|]. split; [reflexivity|].
  split; [vm_compute; reflexivity|]. reflexivity.
Qed.

(** The sibling path of C2: a request still in debounce when the next
    trigger is scheduled has its timer stopped and is answered with the
    empty list at once; its goroutine never starts. *)
Lemma superseded_in_debounce_resolves_empty (msg : JSONRPCMessage)
    (params : CompletionParams) (buffer : Buffer) (content : ContentParts)
    (w : World) (t : nat) (r : Request) (id : Z) :
  timer (handler w) = Some t ->
  timers w !! t = Some (TPending r) ->
  pendingMsgID (handler w) = Some id ->
  let w' := scheduleCompletion msg params buffer content w in
  timers w' !! t = Some TStopped
  /\ exists rest, sent w' = sent w ++ mkResponse (Some id) [] :: rest.
Proof.
  intros Ht Hl Hp w'.
  assert (Hstop : stopPending (cancelPrevious w)
                  = sendEmptyCompletion (Some id)
                      (with_timers (<[t := TStopped]> (timers w)) (cancelPrevious w))).
  { destruct (cancelPrevious_keeps w) as (Eh & Et & _).
    unfold stopPending, timerStop. rewrite Eh, Ht, Et, Hl.
    cbn [handler with_timers]. now rewrite Eh, Hp. }
  assert (Hlt : (t < length (timers w))%nat) by (eapply lookup_lt_Some; eauto).
  unfold w', scheduleCompletion. rewrite Hstop.
  destruct (cancelPrevious_keeps w) as (_ & _ & _ & Es & _).
  cbn zeta. destruct (_ && _).
  - split.
    + cbn [timers sendEmptyCompletion Send with_handler with_timers].
      now apply list_lookup_insert_eq.
    + exists [mkResponse (ID msg) []].
      cbn [sent sendEmptyCompletion Send with_handler with_timers].
      rewrite Es. now rewrite <- app_assoc.
  - split.
    + cbn [timers sendEmptyCompletion Send with_handler with_timers with_ctxs].
      rewrite lookup_app_l by (rewrite length_insert; exact Hlt).
      now apply list_lookup_insert_eq.
    + exists [].
      cbn [sent sendEmptyCompletion Send with_handler with_timers with_ctxs].
      now rewrite Es.
Qed.

Lemma runThread_done (cfg : Config) (th : nat) (out : Outcome) (n : nat)
    (w : World) (t : Thread) :
  threads w !! th = Some t -> t_pc t = PDone ->
  runThread cfg th out n w = Some w.
Proof. intros H Hpc. destruct n; [reflexivity|]. cbn [runThread]. now rewrite H, Hpc. Qed.

Lemma finish_lookup (th : nat) (t : Thread) (w : World) :
  threads w !! th = Some t ->
  threads (finish th t w) !! th = Some (mkThread (t_req t) PDone).
Proof.
  intros H. unfold finish, with_threads. cbn [threads].
  apply list_lookup_insert_eq. eapply lookup_lt_Some; eauto.
Qed.

Lemma goto_lookup (th : nat) (t : Thread) (pc : PC) (w : World) :
  threads w !! th = Some t ->
  threads (goto th t pc w) !! th = Some (mkThread (t_req t) pc).
Proof.
  intros H. unfold goto, with_threads. cbn [threads].
  apply list_lookup_insert_eq. eapply lookup_lt_Some; eauto.
Qed.

Lemma runThread_step (cfg : Config) (th : nat) (out : Outcome) (f : nat)
    (w w1 : World) (t : Thread) :
  threads w !! th = Some t -> t_pc t <> PDone -> t_pc t <> PAwait ->
  executeStep cfg th w = Some w1 ->
  runThread cfg th out (S f) w = runThread cfg th out f w1.
Proof.
  intros H H1 H2 Hs. cbn [runThread]. rewrite H, Hs.
  destruct (t_pc t); congruence.
Qed.

(** A goroutine that finds its document stale answers with an empty
    list and ends, whatever the request counter says. *)
Lemma executeCompletion_stale (cfg : Config) (th : nat) (out : Outcome)
    (w : World) (t : Thread) :
  threads w !! th = Some t -> t_pc t = PCheckCurrent -> stale w (t_req t) ->
  exists w',
    executeCompletion cfg th out w = Some w'
    /\ sent w' = sent w ++ [mkResponse (ID (r_msg (t_req t))) []]
    /\ calls w' = calls w
    /\ threads w' !! th = Some (mkThread (t_req t) PDone).
Proof.
  intros Ht Hpc Hst. unfold executeCompletion.
  destruct (requestID (handler w) =? r_reqID (t_req t)) eqn:Hcur.
  - (* still current: the buffer check rejects it *)
    set (w1 := goto th t PCheckBuffer w).
    assert (Hs1 : executeStep cfg th w = Some w1).
    { unfold executeStep. rewrite Ht, Hpc, Hcur. reflexivity. }
    rewrite (runThread_step cfg th out 3 w w1 t Ht) by (congruence || exact Hs1).
    pose proof (goto_lookup th t PCheckBuffer w Ht) as Hg. fold w1 in Hg.
    set (t1 := mkThread (t_req t) PCheckBuffer) in *.
    set (w2 := finish th t1 (sendEmptyCompletion (ID (r_msg (t_req t))) w1)).
    assert (Hs2 : executeStep cfg th w1 = Some w2).
    { unfold executeStep. rewrite Hg. cbn [t_pc t_req t1].
      change (store w1) with (store w). unfold stale in Hst.
      destruct (store w !! r_uri (t_req t)) as [b|]; [|reflexivity].
      assert (Hv : (Version b >? r_version (t_req t)) = true)
        by (apply Z.gtb_lt; lia).
      now rewrite Hv. }
    rewrite (runThread_step cfg th out 2 w1 w2 t1 Hg) by (discriminate || exact Hs2).
    pose proof (finish_lookup th t1 (sendEmptyCompletion (ID (r_msg (t_req t))) w1) Hg) as Hd.
    fold w2 in Hd.
    exists w2. split; [eapply runThread_done; [exact Hd|reflexivity]|].
    split; [reflexivity|]. split; [reflexivity|exact Hd].
  - (* superseded: the first check rejects it *)
    set (w1 := finish th t (sendEmptyCompletion (ID (r_msg (t_req t))) w)).
    assert (Hs1 : executeStep cfg th w = Some w1).
    { unfold executeStep. rewrite Ht, Hpc, Hcur. reflexivity. }
    rewrite (runThread_step cfg th out 3 w w1 t Ht) by (congruence || exact Hs1).
    pose proof (finish_lookup th t (sendEmptyCompletion (ID (r_msg (t_req t))) w) Ht) as Hd.
    fold w1 in Hd.
    exists w1. split; [eapply runThread_done; [exact Hd|reflexivity]|].
    split; [reflexivity|]. split; [reflexivity|exact Hd].
Qed.

(** C4.  When a debounce timer fires while the document is gone from
    the store or has a version above the one captured at trigger time,
    [executeCompletion] sends exactly one response, the empty list for the
    request's message, and makes no backend call, whatever the backend
    would have answered. *)
Theorem stale_request_resolves_empty (cfg : Config) (tm : nat) (r : Request)
    (out : Outcome) (w : World) :
  timers w !! tm = Some (TPending r) ->
  stale w r ->
  exists w1 w',
    fire tm w = Some w1
    /\ executeCompletion cfg (length (threads w)) out w1 = Some w'
    /\ sent w' = sent w ++ [mkResponse (ID (r_msg r)) []]
    /\ calls w' = calls w.
Proof.
  intros Ht Hst. unfold fire. rewrite Ht. eexists.
  set (w1 := with_threads _ _).
  assert (Hth : threads w1 !! length (threads w) = Some (mkThread r PCheckCurrent)).
  { unfold w1. cbn [threads with_threads]. now rewrite list_lookup_middle. }
  destruct (executeCompletion_stale cfg (length (threads w)) out w1 _ Hth eq_refl)
    as (w' & He & Hs & Hc & _).
  { exact Hst. }
  exists w'. split; [reflexivity|]. split; [exact He|]. split; [exact Hs|exact Hc].
Qed.

Lemma stale_request_resolves_empty_witness :
  exists w1 w',
    fire 0 staleWorld = Some w1
    /\ executeCompletion demoCfg 0 (Hints [str "ke(T)"]) w1 = Some w'
    /\ sent w' = [mkResponse (Some 1) []]
    /\ calls w' = [].
Proof.
  refine (stale_request_resolves_empty demoCfg 0 _ (Hints [str "ke(T)"]) staleWorld
           eq_refl _).
  vm_compute. reflexivity.
Defined.

Lemma GetContent_Some_column (text : gostring) (line column : Z) (content : ContentParts) :
  GetContent text line column = Some content -> 0 <= column.
Proof.
  intros H. destruct (Z.ltb_spec column 0) as [Hneg|Hc]; [|exact Hc].
  exfalso. unfold GetContent in H.
  match type of H with
  | (if ?c then _ else _) = _ => assert (Hcond : c = true)
  end.
  { pose proof (Split_length_pos text) as Hp.
    apply andb_true_iff. split; apply Z.ltb_lt; unfold len in *.
    - destruct (line <? 0) eqn:L; destruct (_ >=? _) eqn:G; try lia;
        rewrite Z.geb_leb in G; apply Z.leb_gt in G; lia.
    - lia. }
  rewrite Hcond in H. apply Z.ltb_lt in Hneg. rewrite Hneg in H. discriminate.
Qed.

Lemma GetContent_LastCharacter (text : gostring) (line column : Z) (content : ContentParts) :
  GetContent text line column = Some content ->
  LastCharacter content = lastCharOf (ContentBefore content).
Proof.
  intros H. pose proof (GetContent_Some_column _ _ _ _ H) as Hc.
  rewrite (GetContent_parts text line column Hc) in H. injection H as <-.
  reflexivity.
Qed.

(** [GetContent] panics exactly on a negative column. *)
Lemma GetContent_None_iff (text : gostring) (line column : Z) :
  GetContent text line column = None <-> column < 0.
Proof.
  split.
  - intros H. destruct (Z.ltb_spec column 0) as [Hneg|Hc]; [exact Hneg|].
    rewrite (GetContent_parts text line column Hc) in H. discriminate.
  - intros Hneg. destruct (GetContent text line column) as [content|] eqn:E;
      [|reflexivity].
    apply GetContent_Some_column in E. lia.
Qed.

(** C1 fails on the code.  A trigger whose position has a negative column,
    for a document that is open, makes [GetContent] panic in the closure
    [Register] installs, outside the [recover] of [executeCompletion]: the
    handling of the message ends there and the handler sends nothing for
    it, neither the empty list nor items.  This is the only way a trigger
    is lost: the handler panics on a trigger exactly in that case.  In
    [panicTrace] the message with id 7 is received once and the editor
    is sent no response at all. *)
Theorem negative_column_trigger_gets_no_response :
  (forall (msg : JSONRPCMessage) (w : World),
     onCompletion msg w = None
     <-> exists params buffer,
           Params msg = Some params
           /\ store w !! URI params = Some buffer
           /\ Character (Pos params) < 0)
  /\ (forall (cfg : Config) (msg : JSONRPCMessage) (w : World)
             (rest : list Event),
        onCompletion msg w = None ->
        run cfg w (Trigger msg :: rest) = None
        /\ sentBy cfg w (Trigger msg :: rest) = sent w)
  /\ (run demoCfg initWorld panicTrace = None
      /\ sentBy demoCfg initWorld panicTrace = []
      /\ triggersOf 7 panicTrace = 1%nat).
Proof.
  split; [|split].
  - intros msg w. unfold onCompletion. split.
    + destruct (Params msg) as [params|] eqn:Ep; [|discriminate].
      destruct (store w !! URI params) as [buffer|] eqn:Eb; [|discriminate].
      destruct (GetContent _ _ _) as [content|] eqn:E.
      * destruct (shouldSkip _ _); discriminate.
      * intros _. exists params, buffer. split; [reflexivity|].
        split; [exact Eb|]. now apply GetContent_None_iff in E.
    + intros (params & buffer & Ep & Eb & Hneg). rewrite Ep, Eb.
      apply (GetContent_None_iff (Text buffer) (Line (Pos params))) in Hneg.
      now rewrite Hneg.
  - intros cfg msg w rest H. cbn [run sentBy step]. now rewrite H.
  - split; [vm_compute; reflexivity|]. split; vm_compute; reflexivity.
Qed.

(** C5, as amended.  The filter rejects a trigger exactly when the text
    before the cursor ends with a dot, or the trimmed current line (the
    cursor line up to the cursor) starts with [//] or [#], whatever the
    language, or is empty, or is shorter than 2 bytes.  A rejected trigger
    is answered at once with the empty list, and nothing else changes: no
    backend call, no timer, no goroutine.  A trigger that is not rejected
    goes on to [scheduleCompletion]. *)
Theorem skip_filter (msg : JSONRPCMessage) (params : CompletionParams)
    (buffer : Buffer) (content : ContentParts) (w : World) :
  Params msg = Some params ->
  store w !! URI params = Some buffer ->
  GetContent (Text buffer) (Line (Pos params)) (Character (Pos params))
    = Some content ->
  let line := TrimSpace (LastLine content) in
  (shouldSkip content (Text buffer) = true <->
     (exists p, ContentBefore content = p ++ str ".")
     \/ HasPrefix line (str "//") = true
     \/ HasPrefix line (str "#") = true
     \/ line = []
     \/ len line < 2)
  /\ (shouldSkip content (Text buffer) = true ->
        onCompletion msg w = Some (sendEmptyCompletion (ID msg) w)
        /\ sent (sendEmptyCompletion (ID msg) w)
           = sent w ++ [mkResponse (ID msg) []]
        /\ calls (sendEmptyCompletion (ID msg) w) = calls w
        /\ timers (sendEmptyCompletion (ID msg) w) = timers w
        /\ threads (sendEmptyCompletion (ID msg) w) = threads w
        /\ handler (sendEmptyCompletion (ID msg) w) = handler w)
  /\ (shouldSkip content (Text buffer) = false ->
        onCompletion msg w
        = Some (scheduleCompletion msg params buffer content w)).
Proof.
  intros Hp Hs Hg line.
  assert (Hon : onCompletion msg w
                = if shouldSkip content (Text buffer)
                  then Some (sendEmptyCompletion (ID msg) w)
                  else Some (scheduleCompletion msg params buffer content w)).
  { unfold onCompletion. now rewrite Hp, Hs, Hg. }
  split; [|split].
  - rewrite <- lastCharOf_dot, <- (GetContent_LastCharacter _ _ _ _ Hg).
    unfold shouldSkip. fold line.
    destruct (Strings.eqb (LastCharacter content) (str ".")) eqn:E1.
    { apply eqb_true_iff in E1. tauto. }
    apply eqb_false_iff in E1.
    destruct (HasPrefix line (str "//")) eqn:E2; [cbn [orb]; tauto|].
    destruct (HasPrefix line (str "#")) eqn:E3; [cbn [orb]; tauto|].
    cbn [orb].
    destruct (Strings.eqb line []) eqn:E4.
    { apply eqb_true_iff in E4. tauto. }
    apply eqb_false_iff in E4.
    destruct (Z.ltb_spec (len line) 2) as [E5|E5]; [tauto|].
    split; [discriminate|]. intros [H|[H|[H|[H|H]]]]; try congruence. lia.
  - intros Hsk. rewrite Hon, Hsk. repeat split.
  - intros Hsk. now rewrite Hon, Hsk.
Qed.

Lemma skip_filter_witness :
  onCompletion (mkMessage (Some 7) (Some (mkCompletionParams (str "u") (mkPosition 0 2))))
    skipWorld
  = Some (sendEmptyCompletion (Some 7) skipWorld)
  /\ calls (sendEmptyCompletion (Some 7) skipWorld) = [].
Proof.
  pose proof (skip_filter
    (mkMessage (Some 7) (Some (mkCompletionParams (str "u") (mkPosition 0 2))))
    (mkCompletionParams (str "u") (mkPosition 0 2))
    (mkBuffer (str "x.") 1 (str "go"))
    (mkContentParts (str "x.") [] (str ".") (str "x.") [])
    skipWorld eq_refl ltac:(vm_compute; reflexivity) ltac:(vm_compute; reflexivity))
    as (_ & H & _).
  destruct (H ltac:(vm_compute; reflexivity)) as (H1 & _ & H2 & _).
  split; [exact H1|exact H2].
Defined.

(** C5 as stated fails.  The filter knows two markers, [//] and [#], and
    applies both whatever the language of the document: in a Go document a
    line starting with [#] is rejected though it is no Go comment, and in
    a Lua document a comment line, which starts with [--], is not
    rejected.  Lengths are counted in bytes: a line made of the single
    character U+00E9, two bytes long, is not rejected. *)
Lemma skip_filter_claim_fails :
  (shouldSkip (contentAt (str "#tag x") 0 6) (str "#tag x") = true
   /\ specShouldSkip (str "go") (contentAt (str "#tag x") 0 6) = false)
  /\ (shouldSkip (contentAt (str "-- note") 0 7) (str "-- note") = false
      /\ specShouldSkip (str "lua") (contentAt (str "-- note") 0 7) = true)
  /\ (shouldSkip (contentAt (bytes [195; 169]%nat) 0 2) (bytes [195; 169]%nat) = false
      /\ TrimSpace (LastLine (contentAt (bytes [195; 169]%nat) 0 2))
         = bytes [195; 169]%nat).
Proof. vm_compute. repeat split. Qed.

(** ** The candidate cleaner and the backend (C6, C8, C10) *)

Module OllamaFacts.
Import Ollama.

Lemma compareLines_true (respEnd afterStart : list gostring) (sub sub' : bool) :
  length respEnd = length afterStart ->
  compareLines respEnd afterStart sub = (true, sub') ->
  map TrimSpace respEnd = map TrimSpace afterStart
  /\ sub' = sub || existsb substantial respEnd.
Proof.
  revert afterStart sub. induction respEnd as [|r rs IH]; intros [|a as_] sub Hlen H;
    try discriminate.
  - injection H as <-. split; [reflexivity|]. now rewrite orb_false_r.
  - cbn [compareLines] in H.
    destruct (Strings.eqb (TrimSpace r) (TrimSpace a)) eqn:E; cbn [negb] in H;
      [|discriminate].
    apply eqb_true_iff in E.
    destruct (IH as_ (sub || substantial r) ltac:(simpl in Hlen; lia) H) as [Hm Hs].
    split; [cbn [map]; congruence|].
    rewrite Hs. cbn [existsb]. now rewrite orb_assoc.
Qed.

Lemma duplicateLoop_spec (respLines afterLines : list gostring) (i : nat) :
  (i <= length respLines)%nat ->
  exists k, (k <= i)%nat /\ (k = 0 \/ k < length respLines)%nat
    /\ duplicateLoop respLines afterLines i
       = firstn (length respLines - k) respLines
    /\ ((0 < k)%nat ->
          (k <= length afterLines)%nat
          /\ map TrimSpace (skipn (length respLines - k) respLines)
             = map TrimSpace (firstn k afterLines)
          /\ existsb substantial (skipn (length respLines - k) respLines) = true).
Proof.
  induction i as [|j IH]; intros Hi.
  - exists 0%nat. split; [lia|]. split; [now left|].
    split; [|lia]. cbn [duplicateLoop]. now rewrite Nat.sub_0_r, firstn_all.
  - assert (Hrec : exists k, (k <= S j)%nat /\ (k = 0 \/ k < length respLines)%nat
      /\ duplicateLoop respLines afterLines j
         = firstn (length respLines - k) respLines
      /\ ((0 < k)%nat ->
            (k <= length afterLines)%nat
            /\ map TrimSpace (skipn (length respLines - k) respLines)
               = map TrimSpace (firstn k afterLines)
            /\ existsb substantial (skipn (length respLines - k) respLines) = true)).
    { destruct (IH ltac:(lia)) as (k & Hk & Hk' & Hd & Hp).
      exists k. split; [lia|]. auto. }
    cbn [duplicateLoop].
    destruct (Nat.ltb_spec (length afterLines) (S j)) as [Hshort|Hlong]; [exact Hrec|].
    destruct (compareLines _ _ false) as [matched sub] eqn:Hcmp.
    destruct matched; [|exact Hrec]. destruct sub; [|exact Hrec]. cbn [andb].
    destruct (Nat.ltb_spec (length respLines - S j) 1) as [Hall|Hsome]; [exact Hrec|].
    exists (S j). split; [lia|]. split; [right; lia|]. split; [reflexivity|].
    intros _. split; [lia|].
    apply compareLines_true in Hcmp.
    + destruct Hcmp as [Hm Hs]. split; [exact Hm|]. now rewrite Hs.
    + rewrite length_skipn, length_firstn. lia.
Qed.

Lemma Join_head_nonempty (x : gostring) (rest : list gostring) :
  x <> [] -> Join (x :: rest) <> [].
Proof.
  intros Hx. destruct rest; [exact Hx|].
  rewrite Join_cons by discriminate. destruct x; [congruence|discriminate].
Qed.

(** C10, as amended.  [removeAfterDuplicates] returns the response
    without its last [k] lines, for some [k] that is at most 3 and less
    than the number of lines: the first line is always kept.  Lines are
    removed only when they equal, trimmed, the first [k] lines of the
    after text and one of them is more than a bare brace.  With nothing
    removed the response comes back unchanged.  The result is non-empty
    whenever the first line of the response is non-empty. *)
Theorem removeAfterDuplicates_keeps_first_line (response after : gostring) :
  let respLines := Split response in
  let afterLines := Split after in
  let n := length respLines in
  exists k,
    (k <= 3)%nat /\ (k < n)%nat
    /\ removeAfterDuplicates response after = Join (firstn (n - k) respLines)
    /\ ((0 < k)%nat ->
          (k <= length afterLines)%nat
          /\ map TrimSpace (skipn (n - k) respLines)
             = map TrimSpace (firstn k afterLines)
          /\ existsb substantial (skipn (n - k) respLines) = true)
    /\ ((k = 0)%nat -> removeAfterDuplicates response after = response)
    /\ (nth 0 respLines [] <> [] -> removeAfterDuplicates response after <> []).
Proof.
  intros respLines afterLines n. subst n.
  pose proof (Split_length_pos response) as Hpos. fold respLines in Hpos.
  destruct (duplicateLoop_spec respLines afterLines (Nat.min 3 (length respLines)))
    as (k & Hk & Hk' & Hd & Hp); [lia|].
  exists k. split; [lia|]. split; [lia|].
  assert (Hr : removeAfterDuplicates response after
               = Join (firstn (length respLines - k) respLines)).
  { unfold removeAfterDuplicates. fold respLines. fold afterLines.
    now rewrite Hd. }
  split; [exact Hr|]. split; [exact Hp|]. split.
  - intros ->. rewrite Hr, Nat.sub_0_r. rewrite firstn_all.
    apply Join_Split.
  - intros Hfirst. rewrite Hr.
    assert (Hex : exists x rest, respLines = x :: rest).
    { destruct respLines as [|x rest]; [simpl in Hpos; lia|eauto]. }
    destruct Hex as (x & rest & E). rewrite E in *.
    cbn [nth] in Hfirst.
    replace (length (x :: rest) - k)%nat with (S (length (x :: rest) - k - 1)) by lia.
    cbn [firstn]. now apply Join_head_nonempty.
Qed.

(** C10 as stated fails: a response whose first line is empty loses its
    duplicated second line, and what is kept is the empty string. *)
Lemma removeAfterDuplicates_claim_fails :
  LF :: str "foo()" <> []
  /\ removeAfterDuplicates (LF :: str "foo()") (str "foo()") = [].
Proof. split; [discriminate|reflexivity]. Qed.

End OllamaFacts.

Module BackendFacts.
Import Ollama.

Lemma collectStep_collected acc processed result :
  collected acc processed ->
  collected (collectStep acc result) (processed ++ [result]).
Proof.
  destruct acc as [completions seen]. intros (Hnd & Hseen & Hmem).
  cbn [fst snd] in *. unfold collectStep.
  destruct (succeeded result) eqn:Hok.
  - destruct (default false (seen !! completion result)) eqn:Hs; cbn [negb].
    + (* a duplicate *)
      unfold collected. cbn [fst snd]. split; [exact Hnd|]. split; [exact Hseen|].
      intros x. rewrite Hmem. split.
      * intros (r & Hr & H1 & H2). exists r. split; [|auto].
        apply elem_of_app. now left.
      * intros (r & Hr & H1 & H2). apply elem_of_app in Hr as [Hr|Hr].
        -- exists r. auto.
        -- apply list_elem_of_singleton in Hr. subst r.
           apply Hmem. apply Hseen. now rewrite <- H2.
    + (* a new completion *)
      assert (Hnew : completion result ∉ completions).
      { intros Hin. apply Hseen in Hin. congruence. }
      unfold collected. cbn [fst snd]. split; [|split].
      * apply NoDup_app. split; [exact Hnd|]. split.
        -- intros x Hx Hx'. apply list_elem_of_singleton in Hx'. now subst x.
        -- apply NoDup_singleton.
      * intros x. rewrite elem_of_app, list_elem_of_singleton.
        destruct (decide (x = completion result)) as [->|Hne].
        -- rewrite lookup_insert_eq. cbn. tauto.
        -- rewrite lookup_insert_ne by congruence. rewrite Hseen. tauto.
      * intros x. rewrite elem_of_app, list_elem_of_singleton, Hmem. split.
        -- intros [(r & Hr & H1 & H2)| ->].
           ++ exists r. split; [apply elem_of_app; now left|auto].
           ++ exists result. split; [apply elem_of_app; right; now apply list_elem_of_singleton|auto].
        -- intros (r & Hr & H1 & H2). apply elem_of_app in Hr as [Hr|Hr].
           ++ left. exists r. auto.
           ++ apply list_elem_of_singleton in Hr. subst r. now right.
  - unfold collected. cbn [fst snd]. split; [exact Hnd|]. split; [exact Hseen|].
    intros x. rewrite Hmem. split.
    + intros (r & Hr & H1 & H2). exists r. split; [|auto].
      apply elem_of_app. now left.
    + intros (r & Hr & H1 & H2). apply elem_of_app in Hr as [Hr|Hr].
      * exists r. auto.
      * apply list_elem_of_singleton in Hr. subst r. congruence.
Qed.

Lemma collect_fold results acc processed :
  collected acc processed ->
  collected (fold_left collectStep results acc) (processed ++ results).
Proof.
  revert acc processed. induction results as [|r results IH]; intros acc processed H.
  - now rewrite app_nil_r.
  - cbn [fold_left]. replace (processed ++ r :: results)
      with ((processed ++ [r]) ++ results) by now rewrite <- app_assoc.
    apply IH. now apply collectStep_collected.
Qed.

Lemma collect_collected results : collected (collect results) results.
Proof.
  unfold collect.
  apply (collect_fold results ([], ∅) []).
  split; [constructor|]. cbn [fst snd]. split.
  - intros x. rewrite lookup_empty. cbn. split; [discriminate|].
    intros H. now apply not_elem_of_nil in H.
  - intros x. split.
    + intros H. now apply not_elem_of_nil in H.
    + intros (r & Hr & _). now apply not_elem_of_nil in Hr.
Qed.

Lemma Completion_out (req : CompletionRequest) (n : Z) (replies : nat -> Reply)
    (arrival : list nat) :
  Completion req n replies arrival
  = (fst (collect (map (fun idx => attempt req idx (replies idx)) arrival)), None).
Proof.
  unfold Completion. cbn zeta.
  destruct (Z.eqb_spec (len (fst (collect (map (fun idx => attempt req idx (replies idx)) arrival)))) 0) as [E|E];
    [|reflexivity].
  unfold len in E. destruct (fst (collect _)); [reflexivity|simpl in E; lia].
Qed.

(** C8.  Whatever each attempt gets from the endpoint and in whatever
    order the attempts report, [Completion] returns a nil error and a
    list without duplicates whose members are exactly the cleaned
    completions of the attempts that succeeded: a failed attempt removes
    nothing from what the others contribute.  When no attempt succeeds
    the list is empty. *)
Theorem Completion_collects (req : CompletionRequest) (numSuggestions : Z)
    (replies : nat -> Reply) (arrival : list nat) :
  Permutation arrival (attempts numSuggestions) ->
  let out := fst (Completion req numSuggestions replies arrival) in
  let result idx := attempt req idx (replies idx) in
  snd (Completion req numSuggestions replies arrival) = None
  /\ NoDup out
  /\ (forall s, s ∈ out <->
        exists idx, idx ∈ attempts numSuggestions
                    /\ succeeded (result idx) = true
                    /\ completion (result idx) = s)
  /\ ((forall idx, idx ∈ attempts numSuggestions -> succeeded (result idx) = false)
      -> out = []).
Proof.
  intros Hperm out result. unfold out. rewrite Completion_out. cbn [fst snd].
  destruct (collect_collected (map result arrival)) as (Hnd & _ & Hmem).
  fold result.
  split; [reflexivity|]. split; [exact Hnd|].
  assert (Hchar : forall s, s ∈ fst (collect (map result arrival)) <->
        exists idx, idx ∈ attempts numSuggestions
                    /\ succeeded (result idx) = true
                    /\ completion (result idx) = s).
  { intros s. rewrite Hmem. split.
    - intros (r & Hr & H1 & H2). apply list_elem_of_fmap in Hr as (idx & -> & Hidx).
      exists idx. split; [|auto]. now rewrite <- Hperm.
    - intros (idx & Hidx & H1 & H2). exists (result idx).
      split; [|auto]. apply list_elem_of_fmap. exists idx. split; [reflexivity|].
      now rewrite Hperm. }
  split; [exact Hchar|].
  intros Hall. destruct (fst (collect (map result arrival))) as [|s l] eqn:E; [reflexivity|].
  exfalso. destruct (proj1 (Hchar s)) as (idx & Hidx & H1 & _).
  - apply list_elem_of_here.
  - rewrite (Hall idx Hidx) in H1. discriminate.
Qed.

Lemma Completion_collects_witness :
  Permutation [2; 0; 1]%nat (attempts 3)
  /\ Completion demoReq 3 demoReplies [2; 0; 1]%nat = ([str "foo()"], None)
  /\ NoDup (fst (Completion demoReq 3 demoReplies [2; 0; 1]%nat)).
Proof.
  assert (Hp : Permutation [2; 0; 1]%nat (attempts 3)).
  { change (attempts 3) with [0; 1; 2]%nat.
    apply (Permutation_trans (l' := [0; 2; 1]%nat)).
    - apply perm_swap.
    - apply perm_skip. apply perm_swap. }
  split; [exact Hp|]. split; [vm_compute; reflexivity|].
  exact (proj1 (proj2 (Completion_collects demoReq 3 demoReplies [2; 0; 1]%nat Hp))).
Defined.

End BackendFacts.

Module CleanerFacts.
Import Ollama.




Lemma TrimLeft_head (s cs : gostring) :
  match TrimLeft s cs with
  | [] => True
  | c :: _ => inCutset cs c = false
  end.
Proof.
  induction s as [|a s IH]; [exact I|]. cbn [TrimLeft].
  destruct (inCutset cs a) eqn:E; [exact IH|exact E].
Qed.

Lemma TrimLeft_suffix (s cs : gostring) : exists p, s = p ++ TrimLeft s cs.
Proof.
  induction s as [|a s [p IH]]; [now exists []|]. cbn [TrimLeft].
  destruct (inCutset cs a); [|now exists []].
  exists (a :: p). cbn. now rewrite <- IH.
Qed.

Lemma TrimLeft_fixed (s cs : gostring) :
  match s with [] => True | c :: _ => inCutset cs c = false end ->
  TrimLeft s cs = s.
Proof. destruct s as [|c s]; [reflexivity|]. cbn [TrimLeft]. now intros ->. Qed.

Lemma TrimLeft_idem (s cs : gostring) :
  TrimLeft (TrimLeft s cs) cs = TrimLeft s cs.
Proof. apply TrimLeft_fixed. apply TrimLeft_head. Qed.

Lemma TrimRight_fixed (q : gostring) (c : ascii) (cs : gostring) :
  inCutset cs c = false -> TrimRight (q ++ [c]) cs = q ++ [c].
Proof.
  intros H. unfold TrimRight. rewrite rev_app_distr. cbn [rev app TrimLeft].
  rewrite H. cbn [rev]. now rewrite rev_involutive.
Qed.

Lemma TrimRight_last (z cs q : gostring) (c : ascii) (p : gostring) :
  TrimRight z cs = p ++ q ++ [c] -> inCutset cs c = false.
Proof.
  unfold TrimRight. intros H. apply (f_equal (@rev _)) in H.
  rewrite rev_involutive, app_assoc, rev_app_distr in H. cbn [rev app] in H.
  pose proof (TrimLeft_head (rev z) cs) as Hh. now rewrite H in Hh.
Qed.













Lemma finalTrim_nonempty (x : gostring) :
  finalTrim x <> [] ->
  finalTrim x = TrimLeft (TrimRight (TrimLeft x [LF]) [SP; TAB; LF]) [SP; TAB]
  /\ (len (TrimSpace (finalTrim x)) <? 2) = false.
Proof.
  unfold finalTrim. cbn zeta.
  destruct (len (TrimSpace _) <? 2) eqn:E; [congruence|]. intros _.
  split; [reflexivity|exact E].
Qed.

Lemma list_last_cases {A} (l : list A) : l = [] \/ exists q c, l = q ++ [c].
Proof.
  induction l as [|a l IH] using rev_ind; [now left|]. right. eauto.
Qed.


Lemma cleanCompletion_final (response before after : gostring) :
  cleanCompletion response before after = []
  \/ exists x, cleanCompletion response before after = finalTrim x.
Proof.
  unfold cleanCompletion. destruct (Strings.eqb response []); [now left|].
  right. eauto.
Qed.




End CleanerFacts.

(** ** Unique strings *)

Module UtilFacts.
Import Util.

Lemma uniqueStep_inv acc done item :
  uniqueInv acc done -> uniqueInv (uniqueStep acc item) (done ++ [item]).
Proof.
  destruct acc as [result seen]. intros (Hnd & Hseen & Hmem & Hsub).
  cbn [fst snd] in *. unfold uniqueStep, uniqueInv.
  destruct (default false (seen !! item)) eqn:Hs; cbn [negb fst snd].
  - assert (Hin : item ∈ result) by now apply Hseen.
    split; [exact Hnd|]. split; [exact Hseen|]. split.
    + intros x. rewrite elem_of_app, list_elem_of_singleton, Hmem.
      split; [tauto|]. intros [H| ->]; [exact H|]. now apply Hmem.
    + apply sublist_inserts_r. exact Hsub.
  - assert (Hnew : item ∉ result).
    { intros Hin. apply Hseen in Hin. congruence. }
    split; [|split; [|split]].
    + apply NoDup_app. split; [exact Hnd|]. split.
      * intros x Hx Hx'. apply list_elem_of_singleton in Hx'. now subst x.
      * apply NoDup_singleton.
    + intros x. rewrite elem_of_app, list_elem_of_singleton.
      destruct (decide (x = item)) as [->|Hne].
      * rewrite lookup_insert_eq. cbn. tauto.
      * rewrite lookup_insert_ne by congruence. rewrite Hseen. tauto.
    + intros x. rewrite !elem_of_app, Hmem. tauto.
    + apply sublist_app; [exact Hsub|reflexivity].
Qed.

Lemma uniqueFold_inv items acc done :
  uniqueInv acc done ->
  uniqueInv (fold_left uniqueStep items acc) (done ++ items).
Proof.
  revert acc done. induction items as [|x items IH]; intros acc done H.
  - now rewrite app_nil_r.
  - cbn [fold_left]. replace (done ++ x :: items)
      with ((done ++ [x]) ++ items) by now rewrite <- app_assoc.
    apply IH. now apply uniqueStep_inv.
Qed.

Lemma uniqueInv_init : uniqueInv ([], ∅) [].
Proof.
  split; [constructor|]. cbn [fst snd]. split; [|split].
  - intros x. rewrite lookup_empty. cbn. split; [discriminate|].
    intros H. now apply not_elem_of_nil in H.
  - tauto.
  - constructor.
Qed.

(** On a list without duplicates the loop appends every item. *)
Lemma uniqueFold_NoDup items result seen :
  NoDup (result ++ items) ->
  (forall x, default false (seen !! x) = true <-> x ∈ result) ->
  fst (fold_left uniqueStep items (result, seen)) = result ++ items.
Proof.
  revert result seen. induction items as [|x items IH]; intros result seen Hnd Hseen.
  - now rewrite app_nil_r.
  - cbn [fold_left uniqueStep].
    assert (Hx : x ∉ result).
    { apply NoDup_app in Hnd as (_ & Hd & _). intros Hin.
      apply (Hd x Hin). now left. }
    destruct (default false (seen !! x)) eqn:Hs.
    { exfalso. apply Hx. now apply Hseen. }
    cbn [negb]. rewrite IH.
    + now rewrite <- app_assoc.
    + now rewrite <- app_assoc.
    + intros y. rewrite elem_of_app, list_elem_of_singleton.
      destruct (decide (y = x)) as [->|Hne].
      * rewrite lookup_insert_eq. cbn. tauto.
      * rewrite lookup_insert_ne by congruence. rewrite Hseen. tauto.
Qed.

(** X1.  [UniqueStrings] returns its items without duplicates: the result
    has no duplicate, has exactly the members of the input, keeps their
    order (it is a sub-list of the input), is the input itself when that
    has no duplicate, and is not changed by a second pass. *)
Theorem UniqueStrings_unique (items : list gostring) :
  NoDup (UniqueStrings items)
  /\ (forall x, x ∈ UniqueStrings items <-> x ∈ items)
  /\ UniqueStrings items `sublist_of` items
  /\ (NoDup items -> UniqueStrings items = items)
  /\ UniqueStrings (UniqueStrings items) = UniqueStrings items.
Proof.
  destruct (uniqueFold_inv items ([], ∅) [] uniqueInv_init) as (Hnd & _ & Hmem & Hsub).
  cbn [app] in *. fold (UniqueStrings items) in *.
  assert (Hfix : forall l, NoDup l -> UniqueStrings l = l).
  { intros l Hl. unfold UniqueStrings.
    rewrite (uniqueFold_NoDup l [] ∅); [reflexivity|exact Hl|].
    intros x. rewrite lookup_empty. cbn. split; [discriminate|].
    intros H. now apply not_elem_of_nil in H. }
  split; [exact Hnd|]. split; [exact Hmem|]. split; [exact Hsub|].
  split; [apply Hfix|]. now apply Hfix.
Qed.

End UtilFacts.

(** ** Indentation: padding and blank lines *)

Module IndentFacts.
Import Util.

Lemma spaceWidth_padding (c : ascii) (s : gostring) :
  inCutset [SP; TAB] c = true -> spaceWidth (c :: s) = 1%nat.
Proof.
  cbn [inCutset existsb]. rewrite orb_false_r. intros H.
  apply orb_true_iff in H as [H|H]; apply Ascii.eqb_eq in H; subst c; destruct s; vm_compute; reflexivity.
Qed.

Lemma TrimSpace_cons_padding (c : ascii) (s : gostring) :
  inCutset [SP; TAB] c = true -> TrimSpace (c :: s) = TrimSpace s.
Proof.
  intros H. unfold TrimSpace. cbn [length trimSpaceLeft].
  rewrite (spaceWidth_padding c s H). reflexivity.
Qed.

Lemma TrimSpace_padding (p s : gostring) :
  isPadding p -> TrimSpace (p ++ s) = TrimSpace s.
Proof.
  induction 1 as [|c p Hc _ IH]; [reflexivity|].
  cbn [app]. now rewrite TrimSpace_cons_padding.
Qed.

Lemma isBlank_padding (p s : gostring) :
  isPadding p -> isBlank (p ++ s) = isBlank s.
Proof. intros H. unfold isBlank. now rewrite TrimSpace_padding. Qed.

Lemma TrimLeft_padding (p s : gostring) :
  isPadding p -> TrimLeft (p ++ s) [SP; TAB] = TrimLeft s [SP; TAB].
Proof.
  induction 1 as [|c p Hc _ IH]; [reflexivity|].
  cbn [app TrimLeft]. now rewrite Hc.
Qed.

(** A line is its indentation followed by the rest. *)
Lemma indentOf_split (line : gostring) :
  line = indentOf line ++ TrimLeft line [SP; TAB] /\ isPadding (indentOf line).
Proof.
  unfold indentOf, paddingOf.
  induction line as [|c line [IH1 IH2]]; [split; [reflexivity|constructor]|].
  cbn [TrimLeft]. destruct (inCutset [SP; TAB] c) eqn:E.
  - pose proof (f_equal (@length _) IH1) as Hl. rewrite length_app in Hl.
    assert (Hle : (length (TrimLeft line [SP; TAB]) <= length line)%nat) by lia.
    cbn [length].
    replace (S (length line) - length (TrimLeft line [SP; TAB]))%nat
      with (S (length line - length (TrimLeft line [SP; TAB]))) by lia.
    cbn [firstn app]. split; [now rewrite <- IH1|now constructor].
  - cbn [length]. rewrite Nat.sub_diag. split; [reflexivity|constructor].
Qed.

Lemma indentOf_padding (p line : gostring) :
  isPadding p -> indentOf (p ++ line) = p ++ indentOf line.
Proof.
  intros Hp. unfold indentOf, paddingOf. rewrite TrimLeft_padding by exact Hp.
  destruct (indentOf_split line) as [Hs _].
  pose proof (f_equal (@length _) Hs) as Hl. rewrite length_app in Hl.
  unfold indentOf, paddingOf in Hl.
  rewrite length_app.
  replace (length p + length line - length (TrimLeft line [SP; TAB]))%nat
    with (length p + (length line - length (TrimLeft line [SP; TAB])))%nat by lia.
  now rewrite firstn_app_2.
Qed.

Lemma HasPrefix_app (p s : gostring) : HasPrefix (p ++ s) p = true.
Proof.
  induction p as [|c p IH]; [now destruct s|].
  cbn [app HasPrefix]. now rewrite Ascii.eqb_refl, IH.
Qed.

Lemma paddingOf_TrimLeft (line : gostring) :
  indentOf (TrimLeft line [SP; TAB]) = [].
Proof.
  unfold indentOf, paddingOf. rewrite CleanerFacts.TrimLeft_idem.
  now rewrite Nat.sub_diag.
Qed.

End IndentFacts.

(** ** [Split] and [Join] *)

Module SplitFacts.

Lemma Split_single (x : gostring) : ~ In LF x -> Split x = [x].
Proof.
  induction x as [|c x IH]; intros Hn; [reflexivity|].
  cbn [Split]. destruct (Ascii.eqb_spec c LF) as [->|Hne].
  - exfalso. apply Hn. now left.
  - rewrite IH by (intros H; apply Hn; now right). reflexivity.
Qed.

Lemma Split_app_LF (x s : gostring) :
  ~ In LF x -> Split (x ++ LF :: s) = x :: Split s.
Proof.
  induction x as [|c x IH]; intros Hn.
  - cbn [app Split]. now rewrite Ascii.eqb_refl.
  - cbn [app Split]. destruct (Ascii.eqb_spec c LF) as [->|Hne].
    + exfalso. apply Hn. now left.
    + rewrite IH by (intros H; apply Hn; now right). reflexivity.
Qed.

Lemma Split_Join (ls : list gostring) :
  ls <> [] -> Forall (fun l => ~ In LF l) ls -> Split (Join ls) = ls.
Proof.
  induction ls as [|x ls IH]; intros Hne Hall; [congruence|].
  inversion Hall as [|? ? Hx Hls]; subst.
  destruct ls as [|y ls].
  - cbn [Join]. now apply Split_single.
  - rewrite Join_cons by discriminate. rewrite Split_app_LF by exact Hx.
    f_equal. apply IH; [discriminate|exact Hls].
Qed.

End SplitFacts.

(** ** Indenting and dedenting *)

Module DedentFacts.
Import Util IndentFacts SplitFacts.

Lemma isBlank_true (l : gostring) : isBlank l = true <-> TrimSpace l = [].
Proof. unfold isBlank. apply eqb_true_iff. Qed.

Lemma length_indentOf (l : gostring) : length (indentOf l) = paddingOf l.
Proof.
  unfold indentOf. rewrite length_firstn. unfold paddingOf. lia.
Qed.

Lemma isPadding_no_LF (p : gostring) : isPadding p -> ~ In LF p.
Proof.
  intros Hp Hin. unfold isPadding in Hp. rewrite Forall_forall in Hp.
  apply list_elem_of_In in Hin. apply Hp in Hin. vm_compute in Hin. discriminate.
Qed.

(** Indenting or dedenting keeps lines free of line feeds. *)
Lemma indentLine_no_LF (p l : gostring) :
  isPadding p -> ~ In LF l -> ~ In LF (indentLine p l).
Proof.
  intros Hp Hl. unfold indentLine. destruct (negb _); [|exact Hl].
  intros Hin. apply in_app_or in Hin as [Hin|Hin]; [|auto].
  now apply (isPadding_no_LF p Hp).
Qed.

Lemma dedentLine_no_LF (indent l : gostring) :
  ~ In LF l -> ~ In LF (dedentLine indent l).
Proof.
  intros Hl. unfold dedentLine. destruct (isBlank l); [exact Hl|].
  destruct (HasPrefix l indent); [|exact Hl].
  intros Hin. apply Hl. eapply In_skipn_inv; eauto.
Qed.

Lemma Split_map_no_LF (f : gostring -> gostring) (text : gostring) :
  (forall l, ~ In LF l -> ~ In LF (f l)) ->
  Split (Join (map f (Split text))) = map f (Split text).
Proof.
  intros Hf. apply Split_Join.
  - pose proof (Split_nonempty text). destruct (Split text); [congruence|discriminate].
  - pose proof (Split_no_LF text) as H. induction H; constructor; auto.
Qed.

Lemma dedent_indent_line (p l : gostring) :
  isPadding p -> dedentLine p (indentLine p l) = l.
Proof.
  intros Hp. unfold indentLine, dedentLine.
  destruct (isBlank l) eqn:E; cbn [negb].
  - now rewrite E.
  - rewrite (isBlank_padding p l Hp), E, HasPrefix_app.
    now rewrite skipn_app, skipn_all, Nat.sub_diag.
Qed.

Lemma indentStep_shift (p : gostring) (acc : gostring * bool) (l : gostring) :
  isPadding p -> (snd acc = true -> fst acc = []) ->
  indentStep (shifted p acc) (indentLine p l) = shifted p (indentStep acc l)
  /\ (snd (indentStep acc l) = true -> fst (indentStep acc l) = []).
Proof.
  intros Hp Hwf. destruct acc as [m first]. cbn [fst snd] in *.
  unfold indentStep, shifted, indentLine. cbn [fst snd].
  destruct (isBlank l) eqn:E; cbn [negb].
  - rewrite E. cbn [fst snd]. auto.
  - rewrite (isBlank_padding p l Hp), E.
    rewrite (indentOf_padding p l Hp).
    destruct first; cbn [orb fst snd].
    + split; [reflexivity|discriminate].
    + rewrite !length_app.
      destruct (Nat.ltb_spec (length (indentOf l)) (length m)) as [H|H].
      * assert (Hlt : (length p + length (indentOf l) <? length p + length m)%nat = true)
          by (apply Nat.ltb_lt; lia).
        rewrite Hlt. cbn [fst snd]. split; [reflexivity|discriminate].
      * assert (Hge : (length p + length (indentOf l) <? length p + length m)%nat = false)
          by (apply Nat.ltb_ge; lia).
        rewrite Hge. cbn [fst snd]. split; [reflexivity|discriminate].
Qed.

Lemma indentFold_shift (p : gostring) (lines : list gostring)
    (acc : gostring * bool) :
  isPadding p -> (snd acc = true -> fst acc = []) ->
  fold_left indentStep (map (indentLine p) lines) (shifted p acc)
  = shifted p (fold_left indentStep lines acc).
Proof.
  intros Hp. revert acc. induction lines as [|l lines IH]; intros acc Hwf;
    [reflexivity|].
  cbn [map fold_left].
  destruct (indentStep_shift p acc l Hp Hwf) as [-> Hwf'].
  now apply IH.
Qed.

(** While [first] holds every line read was blank. *)
Lemma indentFold_first (lines : list gostring) (acc : gostring * bool) :
  snd (fold_left indentStep lines acc) = true ->
  snd acc = true /\ Forall (fun l => isBlank l = true) lines.
Proof.
  revert acc. induction lines as [|l lines IH]; intros acc H; [auto|].
  cbn [fold_left] in H. destruct (IH _ H) as [Hs Hall].
  destruct acc as [m first]. unfold indentStep in Hs.
  destruct (isBlank l) eqn:E.
  - split; [exact Hs|]. constructor; assumption.
  - exfalso. destruct first; cbn [orb] in Hs.
    + cbn [snd] in Hs. discriminate.
    + destruct (_ <? _)%nat; cbn [snd] in Hs; discriminate.
Qed.

Lemma map_indentLine_blank (p : gostring) (lines : list gostring) :
  Forall (fun l => isBlank l = true) lines -> map (indentLine p) lines = lines.
Proof.
  induction 1 as [|l lines Hl _ IH]; [reflexivity|].
  cbn [map]. unfold indentLine at 1. rewrite Hl. cbn [negb]. now rewrite IH.
Qed.

Lemma map_dedent_indent (p : gostring) (lines : list gostring) :
  isPadding p -> map (dedentLine p) (map (indentLine p) lines) = lines.
Proof.
  intros Hp. induction lines as [|l lines IH]; [reflexivity|].
  cbn [map]. now rewrite dedent_indent_line, IH.
Qed.

Lemma IndentContent_round_trip (text p : gostring) :
  isPadding p -> GetContentIndent text = [] ->
  DedentContent (IndentContent text p) = text.
Proof.
  intros Hp Hz.
  assert (Hsame : DedentContent text = text).
  { unfold DedentContent. now rewrite Hz. }
  unfold IndentContent. destruct (Strings.eqb p []) eqn:Ep; [exact Hsame|].
  apply eqb_false_iff in Ep.
  set (lines := Split text).
  assert (HI : GetContentIndent (Join (map (indentLine p) lines))
               = fst (shifted p (fold_left indentStep lines ([], true)))).
  { unfold GetContentIndent. unfold lines.
    rewrite (Split_map_no_LF (indentLine p) text)
      by (intros l; apply indentLine_no_LF; exact Hp).
    change ([], true) with (shifted p ([], true)) at 1.
    rewrite indentFold_shift; [reflexivity|exact Hp|reflexivity]. }
  unfold GetContentIndent in Hz. fold lines in Hz.
  destruct (fold_left indentStep lines ([], true)) as [m first] eqn:EF.
  cbn [fst snd shifted] in *. subst m.
  destruct first.
  - (* only blank lines: nothing was indented *)
    destruct (indentFold_first lines ([], true)) as [_ Hall]; [now rewrite EF|].
    rewrite (map_indentLine_blank p lines Hall). unfold lines.
    rewrite Join_Split. exact Hsame.
  - rewrite app_nil_r in HI. unfold DedentContent. rewrite HI.
    apply eqb_false_iff in Ep. rewrite Ep. unfold lines.
    rewrite (Split_map_no_LF (indentLine p) text)
      by (intros l; apply indentLine_no_LF; exact Hp).
    rewrite map_dedent_indent by exact Hp. apply Join_Split.
Qed.

Lemma isPadding_spaces (n : nat) : isPadding (spaces n).
Proof. induction n; constructor; [reflexivity|assumption]. Qed.

Lemma PadContent_IndentContent (text : gostring) (n : Z) :
  0 < n -> PadContent text n = IndentContent text (spaces (Z.to_nat n)).
Proof.
  intros Hn. unfold PadContent, IndentContent.
  destruct (Z.leb_spec n 0); [lia|].
  destruct (spaces (Z.to_nat n)) eqn:E.
  - exfalso. destruct (Z.to_nat n) eqn:En; [lia|discriminate].
  - reflexivity.
Qed.

(** X2.  Dedenting undoes indenting.  For a text whose least-indented
    non-blank line has no indentation, [DedentContent] gives the text back
    after [IndentContent] with any prefix of spaces and tabs, and after
    [PadContent] with any padding. *)
Theorem DedentContent_undoes_indent (text prefix : gostring) (padding : Z) :
  isPadding prefix ->
  GetContentIndent text = [] ->
  DedentContent (IndentContent text prefix) = text
  /\ DedentContent (PadContent text padding) = text.
Proof.
  intros Hp Hz. split; [now apply IndentContent_round_trip|].
  destruct (Z.ltb_spec 0 padding) as [Hpos|Hneg].
  - rewrite PadContent_IndentContent by exact Hpos.
    apply IndentContent_round_trip; [apply isPadding_spaces|exact Hz].
  - unfold PadContent. destruct (Z.leb_spec padding 0); [|lia].
    unfold DedentContent. now rewrite Hz.
Qed.

Lemma DedentContent_undoes_indent_witness :
  let text := str "if x {" ++ LF :: str "  y" ++ LF :: LF :: str "}" in
  DedentContent (IndentContent text [TAB; SP]) = text
  /\ DedentContent (PadContent text 4) = text.
Proof.
  intros text. apply DedentContent_undoes_indent.
  - repeat constructor.
  - vm_compute. reflexivity.
Defined.


Lemma indentStep_blank (acc : gostring * bool) (l : gostring) :
  isBlank l = true -> indentStep acc l = acc.
Proof. intros H. destruct acc. unfold indentStep. now rewrite H. Qed.

Lemma indentStep_nonblank (m : gostring) (first : bool) (l : gostring) :
  isBlank l = false ->
  indentStep (m, first) l
  = if first || (length (indentOf l) <? length m)%nat
    then (indentOf l, false) else (m, first).
Proof. intros H. unfold indentStep. now rewrite H. Qed.

(** The indentation found is no longer than that of any line that is
    not blank. *)
Lemma indentFold_min (lines : list gostring) (acc : gostring * bool) :
  let r := fold_left indentStep lines acc in
  (forall l, In l lines -> isBlank l = false ->
     (length (fst r) <= length (indentOf l))%nat)
  /\ (snd acc = false -> (length (fst r) <= length (fst acc))%nat
                         /\ snd r = false).
Proof.
  revert acc. induction lines as [|l lines IH]; intros acc; cbn zeta.
  - split; [intros ? []|]. cbn [fold_left]. auto.
  - cbn [fold_left]. destruct (IH (indentStep acc l)) as [H1 H2]. cbn zeta in *.
    destruct acc as [m first].
    split.
    + intros l' [->|Hin] Hb; [|now apply H1].
      rewrite (indentStep_nonblank m first l' Hb) in *.
      destruct (first || _) eqn:C; cbn [fst snd] in H2.
      * destruct (H2 eq_refl) as [Hle _]. exact Hle.
      * apply orb_false_iff in C as [-> C]. apply Nat.ltb_ge in C.
        destruct (H2 eq_refl) as [Hle _]. lia.
    + cbn [snd fst]. intros ->.
      destruct (isBlank l) eqn:Hb.
      * rewrite (indentStep_blank _ l Hb) in *. now apply H2.
      * rewrite (indentStep_nonblank m false l Hb) in *. cbn [orb] in *.
        destruct (Nat.ltb_spec (length (indentOf l)) (length m)).
        -- destruct (H2 eq_refl) as [Hle Hs]. cbn [fst] in Hle. split; [lia|exact Hs].
        -- now apply H2.
Qed.

(** The indentation found is the start value or that of a line that is
    not blank. *)
Lemma indentFold_pick (lines : list gostring) (acc : gostring * bool) :
  let r := fold_left indentStep lines acc in
  r = acc
  \/ exists l, In l lines /\ isBlank l = false /\ fst r = indentOf l.
Proof.
  revert acc. induction lines as [|l lines IH]; intros acc; cbn zeta.
  - now left.
  - cbn [fold_left]. destruct (IH (indentStep acc l)) as [H|(l' & Hin & Hb & Hf)].
    + cbn zeta in H. rewrite H. destruct acc as [m first].
      destruct (isBlank l) eqn:Hb.
      * left. now apply indentStep_blank.
      * rewrite (indentStep_nonblank m first l Hb).
        destruct (first || _); [|now left].
        right. exists l. split; [now left|]. auto.
    + right. exists l'. split; [now right|]. auto.
Qed.

Lemma dedent_own_indent (l : gostring) :
  isBlank l = false ->
  dedentLine (indentOf l) l = TrimLeft l [SP; TAB]
  /\ isBlank (TrimLeft l [SP; TAB]) = false.
Proof.
  intros Hb. destruct (indentOf_split l) as [Hs Hp].
  assert (Hb' : isBlank (TrimLeft l [SP; TAB]) = false).
  { rewrite <- (isBlank_padding (indentOf l) _ Hp), <- Hs. exact Hb. }
  split; [|exact Hb'].
  unfold dedentLine. rewrite Hb.
  rewrite Hs at 1. rewrite HasPrefix_app.
  rewrite Hs at 2. now rewrite skipn_app, skipn_all, Nat.sub_diag.
Qed.

(** X3.  After [DedentContent] the least-indented non-blank line has no
    indentation left, so dedenting twice is dedenting once. *)
Theorem DedentContent_idempotent (text : gostring) :
  GetContentIndent (DedentContent text) = []
  /\ DedentContent (DedentContent text) = DedentContent text.
Proof.
  assert (Hfix : forall t, GetContentIndent t = [] -> DedentContent t = t).
  { intros t Ht. unfold DedentContent. now rewrite Ht. }
  assert (Hz : GetContentIndent (DedentContent text) = []).
  { unfold DedentContent at 1.
    destruct (Strings.eqb (GetContentIndent text) []) eqn:E;
      [now apply eqb_true_iff in E|].
    apply eqb_false_iff in E.
    set (indent := GetContentIndent text) in *.
    unfold GetContentIndent.
    rewrite (Split_map_no_LF (dedentLine indent) text)
      by (intros l; apply dedentLine_no_LF).
    destruct (indentFold_pick (Split text) ([], true)) as [H|(l & Hin & Hb & Hf)].
    - exfalso. apply E. unfold indent, GetContentIndent. cbn zeta in H. now rewrite H.
    - cbn zeta in Hf. fold (GetContentIndent text) in Hf. fold indent in Hf.
      destruct (dedent_own_indent l Hb) as [Hd Hb'].
      destruct (indentFold_min (map (dedentLine indent) (Split text)) ([], true))
        as [Hmin _].
      cbn zeta in Hmin.
      specialize (Hmin (TrimLeft l [SP; TAB])).
      rewrite paddingOf_TrimLeft in Hmin. cbn [length] in Hmin.
      apply length_zero_iff_nil. apply Nat.le_0_r. apply Hmin; [|exact Hb'].
      rewrite <- Hd, <- Hf. now apply in_map. }
  split; [exact Hz|now apply Hfix].
Qed.

(** [GetContentPadding] against [GetContentIndent]. *)
Lemma paddingFold_indentFold (lines : list gostring) (mp : Z)
    (acc : gostring * bool) :
  mp = (if snd acc then 99999 else Z.min 99999 (len (fst acc))) ->
  fold_left paddingStep lines mp
  = (let r := fold_left indentStep lines acc in
     if snd r then 99999 else Z.min 99999 (len (fst r))).
Proof.
  revert mp acc. induction lines as [|l lines IH]; intros mp acc Hmp;
    [exact Hmp|].
  cbn [fold_left]. apply IH. destruct acc as [m first]. cbn [fst snd] in Hmp.
  unfold paddingStep, indentStep, isBlank.
  destruct (Strings.eqb (TrimSpace l) []) eqn:E.
  - apply eqb_true_iff in E. rewrite E. cbn. exact Hmp.
  - apply eqb_false_iff in E.
    assert (Hlen : (len (TrimSpace l) =? 0) = false).
    { apply Z.eqb_neq. unfold len. destruct (TrimSpace l); [congruence|cbn; lia]. }
    rewrite Hlen. pose proof (length_indentOf l) as Hi.
    destruct first; cbn [orb fst snd].
    + subst mp. unfold len. rewrite Hi.
      destruct (Z.ltb_spec (Z.of_nat (paddingOf l)) 99999); lia.
    + subst mp. unfold len. rewrite Hi.
      destruct (Nat.ltb_spec (paddingOf l) (length m));
        destruct (Z.ltb_spec (Z.of_nat (paddingOf l)) (Z.min 99999 (Z.of_nat (length m))));
        cbn [fst snd]; rewrite ?Hi; lia.
Qed.

(** X4.  [GetContentPadding] is the length of [GetContentIndent], the
    indentation of the least-indented non-blank line, as long as that is
    below 99999 bytes; from 99999 bytes on it is 0. *)
Theorem GetContentPadding_indent (text : gostring) :
  GetContentPadding text
  = if len (GetContentIndent text) <? 99999
    then len (GetContentIndent text) else 0.
Proof.
  unfold GetContentPadding, GetContentIndent.
  rewrite (paddingFold_indentFold (Split text) 99999 ([], true)) by reflexivity.
  cbn zeta.
  destruct (fold_left indentStep (Split text) ([], true)) as [m first] eqn:EF.
  cbn [fst snd].
  destruct first.
  - destruct (indentFold_pick (Split text) ([], true)) as [H|(l & Hin & Hb & Hf)].
    + cbn zeta in H. rewrite EF in H. injection H as ->. reflexivity.
    + exfalso. destruct (indentFold_first (Split text) ([], true)) as [_ Hall].
      { now rewrite EF. }
      rewrite Forall_forall in Hall. apply list_elem_of_In in Hin.
      apply Hall in Hin. congruence.
  - unfold len. destruct (Z.ltb_spec (Z.of_nat (length m)) 99999);
      destruct (Z.eqb_spec (Z.min 99999 (Z.of_nat (length m))) 99999); lia.
Qed.

End DedentFacts.

(** ** Blank lines at the ends *)

Module BlankFacts.
Import Util SplitFacts.
Local Open Scope nat_scope.

Lemma skipBlank_spec (lines : list gostring) :
  let a := skipBlank lines in
  a <= length lines
  /\ (forall i, i < a -> isBlank (nth i lines []) = true)
  /\ (a < length lines -> isBlank (nth a lines []) = false).
Proof.
  induction lines as [|l lines (H1 & H2 & H3)]; cbn zeta in *.
  - cbn. split; [lia|]. split; intros; lia.
  - cbn [skipBlank]. destruct (isBlank l) eqn:E; cbn [length].
    + split; [lia|]. split.
      * intros [|i] Hi; [exact E|]. cbn [nth]. apply H2. lia.
      * intros Hlt. cbn [nth]. apply H3. lia.
    + split; [lia|]. split; [intros; lia|]. intros _. exact E.
Qed.

Lemma dropBlank_spec (lines : list gostring) (a e : nat) :
  let b := dropBlank lines a e in
  b <= e
  /\ (a <= e -> a <= b)
  /\ (forall i, b <= i < e -> isBlank (nth i lines []) = true)
  /\ (a < b -> isBlank (nth (b - 1) lines []) = false).
Proof.
  induction e as [|e (H1 & H2 & H3 & H4)]; cbn zeta in *.
  - cbn. split; [lia|]. split; [lia|]. split; intros; lia.
  - cbn [dropBlank].
    destruct (Nat.ltb_spec a (S e)) as [Hlt|Hge]; cbn [andb].
    + destruct (isBlank (nth e lines [])) eqn:E.
      * split; [lia|]. split; [intros _; apply H2; lia|]. split; [|exact H4].
        intros i Hi. destruct (Nat.eq_dec i e) as [->|Hne]; [exact E|].
        apply H3. lia.
      * split; [lia|]. split; [lia|]. split; [intros; lia|].
        intros _. now rewrite Nat.sub_1_r.
    + split; [lia|]. split; [lia|]. split; intros; lia.
Qed.

Lemma nth_slice (lines : list gostring) (a b i : nat) :
  b <= length lines -> i < b - a -> nth i (slice lines a b) [] = nth (a + i) lines [].
Proof.
  intros Hb Hi. unfold slice.
  rewrite nth_firstn. destruct (Nat.ltb_spec i (b - a)); [|lia].
  now rewrite nth_skipn.
Qed.

Lemma length_slice (lines : list gostring) (a b : nat) :
  b <= length lines -> length (slice lines a b) = b - a.
Proof. intros Hb. unfold slice. rewrite length_firstn, length_skipn. lia. Qed.

Lemma skipBlank_zero (lines : list gostring) :
  isBlank (nth 0 lines []) = false -> skipBlank lines = 0.
Proof.
  destruct lines as [|l lines]; [reflexivity|]. cbn [nth skipBlank]. now intros ->.
Qed.

Lemma dropBlank_stop (lines : list gostring) (e : nat) :
  0 < e -> isBlank (nth (e - 1) lines []) = false -> dropBlank lines 0 e = e.
Proof.
  destruct e as [|e]; [lia|]. intros _. rewrite Nat.sub_1_r. cbn [Nat.pred dropBlank].
  intros ->. now rewrite andb_false_r.
Qed.

Lemma slice_no_LF (text : gostring) (a b : nat) :
  Forall (fun l => ~ In LF l) (slice (Split text) a b).
Proof.
  unfold slice. pose proof (Split_no_LF text) as H.
  apply Forall_take, Forall_drop. exact H.
Qed.

(** X5.  [TrimBlankLines] returns the lines from the first to the last
    non-blank line: what it drops in front and behind are blank lines, the
    first and the last line it keeps are not blank, a text of blank lines
    only gives the empty string, and trimming twice is trimming once. *)
Theorem TrimBlankLines_trims (text : gostring) :
  let lines := Split text in
  exists a b,
    a <= b <= length lines
    /\ TrimBlankLines text = Join (slice lines a b)
    /\ (forall i, i < a -> isBlank (nth i lines []) = true)
    /\ (forall i, b <= i < length lines -> isBlank (nth i lines []) = true)
    /\ (a < b -> isBlank (nth a lines []) = false
                 /\ isBlank (nth (b - 1) lines []) = false)
    /\ ((forall i, i < length lines -> isBlank (nth i lines []) = true) ->
        TrimBlankLines text = [])
    /\ TrimBlankLines (TrimBlankLines text) = TrimBlankLines text.
Proof.
  intros lines.
  destruct (skipBlank_spec lines) as (Ha1 & Ha2 & Ha3).
  destruct (dropBlank_spec lines (skipBlank lines) (length lines))
    as (Hb1 & Hb2 & Hb3 & Hb4).
  cbn zeta in *.
  set (a := skipBlank lines) in *.
  set (b := dropBlank lines a (length lines)) in *.
  specialize (Hb2 Ha1).
  assert (Hr : TrimBlankLines text = Join (slice lines a b)).
  { unfold TrimBlankLines. fold lines. fold a. fold b.
    destruct (Nat.leb_spec b a) as [Hle|Hlt]; [|reflexivity].
    unfold slice. replace (b - a) with 0 by lia. reflexivity. }
  exists a, b. split; [lia|]. split; [exact Hr|]. split; [exact Ha2|].
  split; [exact Hb3|].
  assert (Hends : a < b -> isBlank (nth a lines []) = false
                           /\ isBlank (nth (b - 1) lines []) = false).
  { intros Hab. split; [apply Ha3; lia|now apply Hb4]. }
  split; [exact Hends|].
  split.
  { intros Hall. destruct (Nat.eq_dec a b) as [Heq|Hne].
    - rewrite Hr. unfold slice. replace (b - a) with 0 by lia. reflexivity.
    - destruct (Hends ltac:(lia)) as [Hfirst _].
      rewrite Hall in Hfirst by lia. discriminate. }
  destruct (Nat.eq_dec a b) as [Heq|Hne].
  - assert (E : TrimBlankLines text = []).
    { rewrite Hr. unfold slice. replace (b - a) with 0 by lia. reflexivity. }
    rewrite E. reflexivity.
  - destruct (Hends ltac:(lia)) as [Hfirst Hlast].
    set (sub := slice lines a b) in *.
    assert (Hlen : length sub = b - a) by (apply length_slice; lia).
    assert (Hsplit : Split (Join sub) = sub).
    { apply Split_Join; [|apply slice_no_LF].
      intros E. rewrite E in Hlen. cbn in Hlen. lia. }
    rewrite Hr. unfold TrimBlankLines at 1. rewrite Hsplit.
    assert (H0 : nth 0 sub [] = nth a lines []).
    { unfold sub. rewrite nth_slice by lia. f_equal. lia. }
    assert (Hl : nth (length sub - 1) sub [] = nth (b - 1) lines []).
    { unfold sub at 2. rewrite nth_slice by lia. f_equal. lia. }
    rewrite (skipBlank_zero sub) by (now rewrite H0).
    rewrite (dropBlank_stop sub (length sub)) by (rewrite ?Hl; (lia || assumption)).
    destruct (Nat.leb_spec (length sub) 0) as [|_]; [lia|].
    rewrite Nat.sub_0_r. cbn [skipn]. now rewrite firstn_all.
Qed.

End BlankFacts.

(** ** The cleaner's cuts against the text after the cursor *)

Module TruncateFacts.
Import Ollama Util IndentFacts CleanerFacts.

Lemma HasPrefix_split (s p : gostring) :
  HasPrefix s p = true -> exists tail, s = p ++ tail.
Proof.
  revert s. induction p as [|a p IH]; intros s H; [now exists s|].
  destruct s as [|b s]; [discriminate|]. cbn [HasPrefix] in H.
  apply andb_true_iff in H as [Hab Hp]. apply Ascii.eqb_eq in Hab. subst b.
  destruct (IH s Hp) as [tail ->]. now exists tail.
Qed.

Lemma Index_Some_prefix (s sub : gostring) (i : nat) :
  Index s sub = Some i -> HasPrefix (skipn i s) sub = true /\ (i <= length s)%nat.
Proof.
  revert i. induction s as [|a s IH]; intros i H.
  - cbn [Index] in H. destruct (HasPrefix [] sub) eqn:E; [|discriminate].
    injection H as <-. cbn. auto.
  - cbn [Index] in H. destruct (HasPrefix (a :: s) sub) eqn:E.
    + injection H as <-. cbn [skipn length]. split; [exact E|lia].
    + destruct (Index s sub) as [j|] eqn:Ej; [|discriminate].
      injection H as <-. destruct (IH j eq_refl) as [H1 H2].
      cbn [skipn length]. split; [exact H1|lia].
Qed.

(** What [TrimRight] cuts off is made of bytes of the cutset. *)
Lemma TrimRight_split (s cs : gostring) :
  exists ws, s = TrimRight s cs ++ ws
             /\ Forall (fun c => inCutset cs c = true) ws.
Proof.
  unfold TrimRight.
  assert (H : forall r, exists p, r = p ++ TrimLeft r cs
                                  /\ Forall (fun c => inCutset cs c = true) p).
  { induction r as [|a r (p & Hp & Hall)]; [exists []; split; [reflexivity|constructor]|].
    cbn [TrimLeft]. destruct (inCutset cs a) eqn:E.
    - exists (a :: p). split; [cbn; now rewrite <- Hp|now constructor].
    - exists []. split; [reflexivity|constructor]. }
  destruct (H (rev s)) as (p & Hp & Hall). exists (rev p). split.
  - rewrite <- rev_app_distr, <- Hp. now rewrite rev_involutive.
  - rewrite Forall_forall in *. intros c Hc. apply Hall.
    apply list_elem_of_In. apply in_rev. now apply list_elem_of_In.
Qed.

Lemma truncateAtWord_cut (response word : gostring) :
  truncateAtWord response word = response
  \/ cutBefore response (truncateAtWord response word) word.
Proof.
  unfold truncateAtWord. destruct (Z.geb_spec (len word) 2) as [Hlen|]; [|now left].
  destruct (Index response word) as [[|i]|] eqn:E; try now left.
  destruct (isBoundary _); [|now left]. right.
  destruct (Index_Some_prefix _ _ _ E) as [Hp _].
  destruct (HasPrefix_split _ _ Hp) as [tail Ht].
  destruct (TrimRight_split (firstn (S i) response) [SP; TAB]) as (ws & Hws & Hall).
  exists ws, tail. split; [|split; [exact Hall|lia]].
  rewrite app_assoc, <- Hws, <- Ht. now rewrite firstn_skipn.
Qed.

(** X6.  [truncateAtAfterOverlap] returns the response or cuts it: what is
    dropped is spaces and tabs, then one of the first two words of the
    first line of the text after the cursor (a word of at least 2 bytes),
    then the rest.  When that line, trimmed, has at most one byte the
    response is returned as it is. *)
Theorem truncateAtAfterOverlap_cuts (response after : gostring) :
  let result := truncateAtAfterOverlap response after in
  let words := Fields (TrimSpace (nth 0 (Split (TrimSpace after)) [])) in
  (result = response
   \/ exists word, In word (firstn 2 words) /\ cutBefore response result word)
  /\ (len (TrimSpace (nth 0 (Split (TrimSpace after)) [])) <= 1 ->
      result = response).
Proof.
  cbn zeta. unfold truncateAtAfterOverlap.
  destruct (Strings.eqb after []); [split; [now left|reflexivity]|].
  destruct (Strings.eqb (TrimSpace after) []); [split; [now left|reflexivity]|].
  destruct (Z.leb_spec (len (TrimSpace (nth 0 (Split (TrimSpace after)) []))) 1)
    as [Hshort|Hlong]; [split; [now left|reflexivity]|].
  split; [|lia].
  destruct (Fields _) as [|w1 rest]; [now left|].
  destruct (existsb _ skipTokens).
  - destruct rest as [|w2 rest]; [now left|].
    destruct (truncateAtWord_cut response w2) as [H|H]; [now left|].
    right. exists w2. split; [cbn; auto|exact H].
  - destruct (truncateAtWord_cut response w1) as [H|H]; [now left|].
    right. exists w1. split; [cbn; auto|exact H].
Qed.

(** [Join] of the first lines is the start of [Join] of all. *)
Lemma Join_firstn_prefix (lines : list gostring) (i : nat) :
  exists rest, Join lines = Join (firstn i lines) ++ rest.
Proof.
  destruct (Nat.le_gt_cases (length lines) i) as [Hge|Hlt].
  - rewrite firstn_all2 by exact Hge. exists []. now rewrite app_nil_r.
  - destruct i as [|i]; [now exists (Join lines)|].
    assert (E : Join lines = Join (firstn (S i) lines ++ skipn (S i) lines))
      by now rewrite firstn_skipn.
    rewrite Join_app in E.
    + eauto.
    + destruct lines; [cbn in Hlt; lia|discriminate].
    + intros E'. apply (f_equal (@length _)) in E'. rewrite length_skipn in E'.
      cbn in E'. lia.
Qed.

Lemma functionLoop_spec (response : gostring) (respLines afterLines todo
    : list gostring) (i : nat) :
  let result := functionLoop response respLines afterLines todo i in
  result = response
  \/ exists j, (i <= j < i + length todo)%nat
       /\ result = TrimRight (Join (firstn j respLines)) [SP; TAB; LF]
       /\ len result > len response / 3
       /\ (let line := TrimSpace (nth (j - i) todo []) in
           (HasPrefix line (str "func ") || HasPrefix line (str "func(")) = true
           /\ existsb (fun a => Strings.eqb line (TrimSpace a))
                (firstn 10 afterLines) = true).
Proof.
  revert i. induction todo as [|l rest IH]; intros i; cbn zeta; [now left|].
  cbn [functionLoop].
  destruct (_ && _ && _) eqn:C.
  - right. exists i. cbn [length]. split; [lia|]. split; [reflexivity|].
    apply andb_true_iff in C as [C C3]. apply andb_true_iff in C as [C1 C2].
    rewrite Nat.sub_diag. cbn [nth]. split; [apply Z.gtb_lt in C3; lia|]. auto.
  - destruct (IH (S i)) as [H|(j & Hj & Hr & Hl & Hline)]; [now left|].
    right. exists j. cbn [length]. split; [lia|]. split; [exact Hr|].
    split; [exact Hl|].
    replace (j - i)%nat with (S (j - S i)) by lia. exact Hline.
Qed.

(** X7.  [removeAfterFunctionDuplicates] returns the response, or the
    lines before some line [j] of its second half, right-trimmed: then the
    response has at least 15 lines, line [j], trimmed, starts with [func ]
    or [func(] and is one of the first 10 lines after the cursor, trimmed,
    and more than a third of the response is kept.  The result is a prefix
    of the response. *)
Theorem removeAfterFunctionDuplicates_bounded (response after : gostring) :
  let result := removeAfterFunctionDuplicates response after in
  let respLines := Split response in
  result = response
  \/ (15 <= len respLines
      /\ len result > len response / 3
      /\ (exists rest, response = result ++ rest)
      /\ exists j, (length respLines / 2 <= j < length respLines)%nat
           /\ result = TrimRight (Join (firstn j respLines)) [SP; TAB; LF]
           /\ (let line := TrimSpace (nth j respLines []) in
               (HasPrefix line (str "func ") || HasPrefix line (str "func(")) = true
               /\ existsb (fun a => Strings.eqb line (TrimSpace a))
                    (firstn 10 (Split after)) = true)).
Proof.
  cbn zeta. unfold removeAfterFunctionDuplicates.
  destruct (_ || _); [now left|].
  destruct (Z.ltb_spec (len (Split response)) 15) as [|Hlen]; [now left|].
  set (respLines := Split response) in *.
  set (start := (length respLines / 2)%nat).
  destruct (functionLoop_spec response respLines (Split after)
              (skipn start respLines) start) as [H|(j & Hj & Hr & Hl & Hline)];
    [now left|].
  right. cbn zeta in *. split; [exact Hlen|]. split; [exact Hl|].
  assert (Hstart : (start <= length respLines)%nat).
  { unfold start. apply Nat.Div0.div_le_upper_bound. lia. }
  rewrite length_skipn in Hj.
  split.
  - destruct (Join_firstn_prefix respLines j) as [rest Hrest].
    destruct (TrimRight_split (Join (firstn j respLines)) [SP; TAB; LF])
      as (ws & Hws & _).
    exists (ws ++ rest). rewrite Hr, app_assoc, <- Hws, <- Hrest.
    unfold respLines. now rewrite Join_Split.
  - exists j. split; [lia|]. split; [exact Hr|].
    rewrite nth_skipn in Hline.
    replace (start + (j - start))%nat with j in Hline by lia. exact Hline.
Qed.

End TruncateFacts.

(** ** What the cleaner and the backend hand to the handler *)

Module OutputFacts.
Import Ollama Util CleanerFacts BackendFacts.

Lemma finalTrim_shape (x : gostring) :
  finalTrim x = []
  \/ (2 <= len (TrimSpace (finalTrim x))
      /\ TrimLeft (finalTrim x) [SP; TAB] = finalTrim x
      /\ TrimRight (finalTrim x) [SP; TAB; LF] = finalTrim x).
Proof.
  destruct (decide (finalTrim x = [])) as [E|E]; [now left|]. right.
  destruct (finalTrim_nonempty x E) as [Ho Hlen].
  set (o := finalTrim x) in *.
  split; [apply Z.ltb_ge in Hlen; lia|]. split.
  - rewrite Ho. apply TrimLeft_idem.
  - destruct (list_last_cases o) as [->|(q & c & Eo)]; [congruence|].
    destruct (TrimLeft_suffix (TrimRight (TrimLeft x [LF]) [SP; TAB; LF]) [SP; TAB])
      as [p Hp].
    rewrite <- Ho, Eo in Hp. rewrite Eo. apply TrimRight_fixed.
    eapply TrimRight_last. exact Hp.
Qed.

Lemma TrimSpace_nil : TrimSpace [] = [].
Proof. reflexivity. Qed.

(** A completion that is not empty is one the handler keeps. *)
Lemma cleanCompletion_shape (response before after : gostring) :
  let o := cleanCompletion response before after in
  o = []
  \/ (2 <= len (TrimSpace o)
      /\ TrimLeft o [SP; TAB] = o
      /\ TrimRight o [SP; TAB; LF] = o
      /\ validHint o = true).
Proof.
  cbn zeta.
  destruct (cleanCompletion_final response before after) as [E|[x Hx]]; [now left|].
  rewrite Hx. destruct (finalTrim_shape x) as [E|(H1 & H2 & H3)]; [now left|].
  right. split; [exact H1|]. split; [exact H2|]. split; [exact H3|].
  unfold validHint. apply andb_true_iff. split.
  - apply negb_true_iff. apply eqb_false_iff. intros E.
    unfold len in H1. rewrite E in H1. cbn [length] in H1. lia.
  - apply Z.geb_le. lia.
Qed.

(** X8.  What [cleanCompletion] returns is empty, or has at least 2 bytes
    once trimmed, starts with no space or tab, ends with no space, tab or
    line feed, and passes the handler's filter for valid hints.  An empty
    response gives an empty result. *)
Theorem cleanCompletion_output (response before after : gostring) :
  let o := cleanCompletion response before after in
  (response = [] -> o = [])
  /\ (o = []
      \/ (2 <= len (TrimSpace o)
          /\ TrimLeft o [SP; TAB] = o
          /\ TrimRight o [SP; TAB; LF] = o
          /\ validHint o = true)).
Proof.
  cbn zeta. split.
  - intros ->. reflexivity.
  - exact (cleanCompletion_shape response before after).
Qed.

(** A result the loop keeps is a cleaned response. *)
Lemma attempt_succeeded (req : CompletionRequest) (idx : nat) (reply : Reply) :
  succeeded (attempt req idx reply) = true ->
  exists response,
    reply = Response response
    /\ completion (attempt req idx reply)
       = cleanCompletion response (reqContentBefore req) (reqContentAfter req)
    /\ completion (attempt req idx reply) <> [].
Proof.
  unfold succeeded. destruct reply as [| |response]; cbn [attempt err completion];
    try discriminate.
  destruct (Strings.eqb response []); [discriminate|].
  destruct (Strings.eqb (cleanCompletion _ _ _) []) eqn:E; [discriminate|].
  intros _. exists response. cbn [completion]. split; [reflexivity|].
  split; [reflexivity|]. now apply eqb_false_iff.
Qed.

(** X9.  Every hint the Ollama [Completion] returns passes the handler's
    filter for valid hints, so that [executeCompletion] drops none of
    them, and is the cleaned response of one of the attempts. *)
Theorem Completion_hints_valid (req : CompletionRequest) (numSuggestions : Z)
    (replies : nat -> Reply) (arrival : list nat) (s : gostring) :
  s ∈ fst (Completion req numSuggestions replies arrival) ->
  validHint s = true
  /\ exists idx response,
       idx ∈ arrival /\ replies idx = Response response
       /\ s = cleanCompletion response (reqContentBefore req) (reqContentAfter req).
Proof.
  rewrite Completion_out. cbn [fst].
  destruct (collect_collected
              (map (fun idx => attempt req idx (replies idx)) arrival))
    as (_ & _ & Hmem).
  intros Hin. apply Hmem in Hin as (r & Hr & Hok & <-).
  apply list_elem_of_fmap in Hr as (idx & -> & Hidx).
  destruct (attempt_succeeded req idx (replies idx) Hok) as (response & Hrep & Hc & Hne).
  split.
  - destruct (cleanCompletion_shape response (reqContentBefore req)
                (reqContentAfter req)) as [E|(_ & _ & _ & Hv)].
    + rewrite Hc in Hne. contradiction.
    + now rewrite Hc.
  - exists idx, response. auto.
Qed.

Lemma Completion_hints_valid_witness :
  str "foo()" ∈ fst (Completion demoReq 3 demoReplies [2; 0; 1]%nat)
  /\ validHint (str "foo()") = true
  /\ exists idx response,
       idx ∈ [2; 0; 1]%nat /\ demoReplies idx = Response response
       /\ str "foo()"
          = cleanCompletion response (reqContentBefore demoReq)
              (reqContentAfter demoReq).
Proof.
  assert (H : str "foo()" ∈ fst (Completion demoReq 3 demoReplies [2; 0; 1]%nat))
    by (vm_compute; apply list_elem_of_here).
  split; [exact H|].
  exact (Completion_hints_valid demoReq 3 demoReplies [2; 0; 1]%nat
           (str "foo()") H).
Defined.

Lemma Split_app_LF_any (a b : gostring) :
  Split (a ++ LF :: b) = Split a ++ Split b.
Proof.
  induction a as [|c a IH].
  - cbn [app Split]. now rewrite Ascii.eqb_refl.
  - cbn [app Split]. rewrite IH. destruct (Ascii.eqb c LF); [reflexivity|].
    pose proof (Split_nonempty a) as Hne.
    destruct (Split a) as [|h t]; [congruence|reflexivity].
Qed.

Lemma last_line_app (a b : gostring) :
  nth (length (Split (a ++ LF :: b)) - 1) (Split (a ++ LF :: b)) []
  = nth (length (Split b) - 1) (Split b) [].
Proof.
  rewrite Split_app_LF_any. pose proof (Split_length_pos b) as Hb.
  rewrite length_app, app_nth2 by lia. f_equal. lia.
Qed.

Lemma HasPrefix_Contains (s p : gostring) :
  HasPrefix s p = true -> Contains s p = true.
Proof.
  intros H. unfold Contains. destruct s; cbn [Index]; now rewrite H.
Qed.

(** X10.  [isBlockContext] and the current line prefix depend on the last
    line of the text before the cursor only; [isBlockContext] holds
    exactly when that line, trimmed, contains one of the block starters
    anywhere or ends with an opening brace (the [HasPrefix] test adds
    nothing to the [Contains] test). *)
Theorem isBlockContext_last_line (a b : gostring) :
  isBlockContext (a ++ LF :: b) = isBlockContext b
  /\ currentLinePrefix (a ++ LF :: b) = currentLinePrefix b
  /\ (let lastLine := currentLinePrefix b in
      isBlockContext b
      = existsb (Contains lastLine) blockStarters
        || HasSuffix lastLine (str "{")).
Proof.
  assert (Hc : currentLinePrefix (a ++ LF :: b) = currentLinePrefix b).
  { unfold currentLinePrefix. now rewrite last_line_app. }
  split; [|split; [exact Hc|]].
  - unfold isBlockContext. now rewrite last_line_app.
  - cbn zeta. unfold isBlockContext. fold (currentLinePrefix b).
    set (line := currentLinePrefix b).
    assert (E : existsb (fun starter => HasPrefix line starter || Contains line starter)
                  blockStarters
                = existsb (Contains line) blockStarters).
    { induction blockStarters as [|st l IH]; [reflexivity|].
      cbn [existsb]. rewrite IH. f_equal.
      destruct (HasPrefix line st) eqn:Hp; [|reflexivity].
      now rewrite (HasPrefix_Contains _ _ Hp). }
    rewrite E. now destruct (existsb _ _).
Qed.

End OutputFacts.

(** ** The completion item and the text given to the backend *)

Module ItemFacts.
Import CleanerFacts TruncateFacts.

Lemma HasPrefix_length (s p : gostring) :
  HasPrefix s p = true -> (length p <= length s)%nat.
Proof.
  revert s. induction p as [|a p IH]; intros s H; [cbn; lia|].
  destruct s as [|b s]; [discriminate|]. cbn [HasPrefix] in H.
  apply andb_true_iff in H as [_ H]. apply IH in H. cbn [length]. lia.
Qed.

Lemma spaceWidth_le (s : gostring) : (spaceWidth s <= length s)%nat.
Proof.
  unfold spaceWidth. destruct (find _ _) as [p|] eqn:E; [|lia].
  apply find_some in E as [_ E]. now apply HasPrefix_length.
Qed.

Lemma spaceWidthRev_le (r : gostring) : (spaceWidthRev r <= length r)%nat.
Proof.
  unfold spaceWidthRev. destruct (find _ _) as [p|] eqn:E; [|lia].
  apply find_some in E as [_ E]. apply HasPrefix_length in E.
  now rewrite length_rev in E.
Qed.

Lemma blank_cases (c : ascii) :
  inCutset [SP; TAB; LF] c = true -> c = SP \/ c = TAB \/ c = LF.
Proof.
  cbn [inCutset existsb]. rewrite orb_false_r. intros H.
  apply orb_true_iff in H as [H|H]; [left; now apply Ascii.eqb_eq|].
  apply orb_true_iff in H as [H|H]; [right; left|right; right];
    now apply Ascii.eqb_eq.
Qed.

Lemma spaceWidth_blank (c : ascii) (s : gostring) :
  inCutset [SP; TAB; LF] c = true -> spaceWidth (c :: s) = 1%nat.
Proof.
  intros H. destruct (blank_cases c H) as [->|[->| ->]];
    destruct s; vm_compute; reflexivity.
Qed.

Lemma spaceWidthRev_blank (c : ascii) (r : gostring) :
  inCutset [SP; TAB; LF] c = true -> spaceWidthRev (c :: r) = 1%nat.
Proof.
  intros H. destruct (blank_cases c H) as [->|[->| ->]];
    destruct r; vm_compute; reflexivity.
Qed.

Lemma trimSpaceLeft_done (fuel : nat) (s : gostring) :
  (length s <= fuel)%nat -> spaceWidth (trimSpaceLeft fuel s) = 0%nat.
Proof.
  revert s. induction fuel as [|f IH]; intros s H.
  - destruct s; [reflexivity|cbn in H; lia].
  - cbn [trimSpaceLeft]. destruct (spaceWidth s) as [|k] eqn:E; [exact E|].
    apply IH. rewrite length_skipn. pose proof (spaceWidth_le s). lia.
Qed.

Lemma trimSpaceRev_done (fuel : nat) (r : gostring) :
  (length r <= fuel)%nat -> spaceWidthRev (trimSpaceRev fuel r) = 0%nat.
Proof.
  revert r. induction fuel as [|f IH]; intros r H.
  - destruct r; [reflexivity|cbn in H; lia].
  - cbn [trimSpaceRev]. destruct (spaceWidthRev r) as [|k] eqn:E; [exact E|].
    apply IH. rewrite length_skipn. pose proof (spaceWidthRev_le r). lia.
Qed.

Lemma trimSpaceRev_suffix (fuel : nat) (r : gostring) :
  exists p, r = p ++ trimSpaceRev fuel r.
Proof.
  revert r. induction fuel as [|f IH]; intros r; [now exists []|].
  cbn [trimSpaceRev]. destruct (spaceWidthRev r) as [|k]; [now exists []|].
  destruct (IH (skipn (S k) r)) as [p Hp]. exists (firstn (S k) r ++ p).
  rewrite <- app_assoc, <- Hp. now rewrite firstn_skipn.
Qed.

(** [strings.TrimSpace] leaves no space, tab or line feed at either end. *)
Lemma TrimSpace_edges (s : gostring) :
  headFree [SP; TAB; LF] (TrimSpace s) /\ lastFree [SP; TAB; LF] (TrimSpace s).
Proof.
  unfold TrimSpace. set (l := trimSpaceLeft (length s) s).
  assert (Hl : spaceWidth l = 0%nat) by (apply trimSpaceLeft_done; lia).
  set (r := trimSpaceRev (length l) (rev l)).
  assert (Hr : spaceWidthRev r = 0%nat)
    by (apply trimSpaceRev_done; rewrite length_rev; lia).
  destruct (trimSpaceRev_suffix (length l) (rev l)) as [p Hp]. fold r in Hp.
  split.
  - destruct (rev r) as [|c t] eqn:E; [exact I|]. cbn [headFree].
    apply (f_equal (@rev _)) in Hp.
    rewrite rev_involutive, rev_app_distr, E in Hp.
    destruct (inCutset [SP; TAB; LF] c) eqn:Hc; [|reflexivity].
    rewrite Hp in Hl. cbn [app] in Hl.
    rewrite (spaceWidth_blank c _ Hc) in Hl. discriminate.
  - intros q c E. apply (f_equal (@rev _)) in E.
    rewrite rev_involutive, rev_app_distr in E. cbn [rev app] in E.
    destruct (inCutset [SP; TAB; LF] c) eqn:Hc; [|reflexivity].
    rewrite E in Hr. rewrite (spaceWidthRev_blank c _ Hc) in Hr. discriminate.
Qed.

Lemma headFree_weaken (s : gostring) :
  headFree [SP; TAB; LF] s -> headFree [LF] s.
Proof.
  destruct s as [|c s]; [auto|]. cbn [headFree inCutset existsb].
  intros H. apply orb_false_iff in H as [_ H].
  apply orb_false_iff in H as [_ H]. exact H.
Qed.

(** The text [buildCompletionItem] inserts does not start with a line
    feed and does not end with a space, a tab or a line feed. *)
Lemma trimHint_edges (hint : gostring) (content : ContentParts) :
  headFree [LF] (trimHint hint content)
  /\ lastFree [SP; TAB; LF] (trimHint hint content).
Proof.
  unfold trimHint. cbn zeta. destruct (_ && _).
  - destruct (TrimSpace_edges (skipn (length (TrimSpace (LastLine content)))
                 (TrimRight (TrimLeft hint [LF]) [SP; TAB; LF]))) as [H1 H2].
    split; [now apply headFree_weaken|exact H2].
  - split.
    + destruct (TrimRight_split (TrimLeft hint [LF]) [SP; TAB; LF]) as (ws & E & _).
      pose proof (TrimLeft_head hint [LF]) as Hh.
      destruct (TrimRight _ _) as [|c t]; [exact I|].
      rewrite E in Hh. exact Hh.
    + intros q c E. eapply (TrimRight_last _ _ [] c q). exact E.
Qed.

Lemma HasPrefix_firstn (s p : gostring) (n : nat) :
  HasPrefix s p = true -> (length p <= n)%nat -> HasPrefix (firstn n s ++ str "...") p = true.
Proof.
  revert s n. induction p as [|a p IH]; intros s n H Hn.
  - destruct (firstn n s ++ str "..."); reflexivity.
  - destruct s as [|b s]; [discriminate|]. destruct n as [|n]; [cbn in Hn; lia|].
    cbn [HasPrefix] in H. apply andb_true_iff in H as [H1 H2].
    cbn [firstn app HasPrefix]. rewrite H1. cbn [andb].
    apply IH; [exact H2|cbn in Hn; lia].
Qed.

(** X14.  The item [buildCompletionItem] builds inserts its [Detail] text
    at the cursor; this text starts with no line feed and ends with no
    space, tab or line feed.  The label is [AI: ] followed by the first
    line of the text, cut to 36 bytes and followed by [...] when that line
    is longer; it has at most 43 bytes and no line feed. *)
Theorem buildCompletionItem_shape (hint : gostring) (content : ContentParts)
    (position : Position) (index : Z) :
  let item := buildCompletionItem hint content position index in
  let text := Detail item in
  let first := nth 0 (Split text) [] in
  MainEdit item = Some (mkTextEdit (mkRange position position) text)
  /\ headFree [LF] text
  /\ lastFree [SP; TAB; LF] text
  /\ Label item
     = (if len first >? 36 then str "AI: " ++ firstn 36 first ++ str "..."
        else str "AI: " ++ first)
  /\ len (Label item) <= 43
  /\ ~ In LF (Label item).
Proof.
  intros item text first.
  assert (Et : text = trimHint hint content) by reflexivity.
  destruct (trimHint_edges hint content) as [H1 H2]. rewrite <- Et in H1, H2.
  assert (Hlabel : Label item
     = (if len first >? 36 then str "AI: " ++ firstn 36 first ++ str "..."
        else str "AI: " ++ first)).
  { unfold item, buildCompletionItem. cbn [Label]. fold text in first |- *.
    change (nth 0 (Split (trimHint hint content)) []) with first.
    assert (Hlen : len (str "AI: " ++ first) = 4 + len first).
    { unfold len. rewrite length_app. cbn [str list_ascii_of_string length]. lia. }
    rewrite Hlen.
    destruct (Z.gtb_spec (4 + len first) 40) as [Hgt|Hle];
      destruct (Z.gtb_spec (len first) 36) as [Hgt'|Hle']; try lia; reflexivity. }
  assert (Hfirst : ~ In LF first).
  { pose proof (Split_no_LF text) as Hall. rewrite Forall_forall in Hall.
    unfold first. destruct (Split text) as [|x xs] eqn:E.
    - now apply Split_nonempty in E.
    - cbn [nth]. apply Hall. now left. }
  split; [reflexivity|]. split; [exact H1|]. split; [exact H2|].
  split; [exact Hlabel|]. rewrite Hlabel.
  destruct (Z.gtb_spec (len first) 36) as [Hgt|Hle]; split.
  - unfold len in *. rewrite !length_app, length_firstn.
    cbn [str list_ascii_of_string length]. lia.
  - intros Hin. apply in_app_or in Hin as [Hin|Hin];
      [vm_compute in Hin; intuition discriminate|].
    apply in_app_or in Hin as [Hin|Hin];
      [|vm_compute in Hin; intuition discriminate].
    apply Hfirst. rewrite <- (firstn_skipn 36 first). apply in_or_app. now left.
  - unfold len in *. rewrite length_app.
    cbn [str list_ascii_of_string length]. lia.
  - intros Hin. apply in_app_or in Hin as [Hin|Hin];
      [vm_compute in Hin; intuition discriminate|]. now apply Hfirst.
Qed.

(** X15.  The text after the cursor that [executeCompletion] hands to the
    backend, against the document.  With the text before the cursor it
    makes up the document, except that the line break is left out when
    the cursor is at the end of a line followed by other text, and that a
    single empty line below the cursor line is left out. *)
Theorem backendAfter_of_document (text : gostring) (line column : Z)
    (content : ContentParts) :
  GetContent text line column = Some content ->
  let before := ContentBefore content in
  let after := backendAfter content in
  let lines := Split text in
  let l := Z.to_nat (Z.min (Z.max line 0) (len lines - 1)) in
  (* no line below the cursor line: the rest of the cursor line *)
  ((S l >= length lines)%nat -> text = before ++ after)
  (* lines below, and something left on the cursor line *)
  /\ ((S l < length lines)%nat -> ContentImmediatelyAfter content <> [] ->
      ContentAfter content <> [] -> text = before ++ after)
  (* cursor at the end of its line: the line break is not passed on *)
  /\ ((S l < length lines)%nat -> ContentImmediatelyAfter content = [] ->
      ContentAfter content <> [] -> text = before ++ LF :: after)
  (* only one empty line below: it is not passed on *)
  /\ ((S l < length lines)%nat -> ContentAfter content = [] ->
      text = before ++ after ++ [LF]).
Proof.
  intros H before after lines l.
  pose proof (GetContent_Some_column _ _ _ _ H) as Hc.
  pose proof (GetContent_parts text line column Hc) as E. cbn zeta in E.
  fold lines in E. fold l in E.
  set (cur := nth l lines []) in *.
  set (c := Z.to_nat (Z.min column (len cur))) in *.
  rewrite E in H. injection H as <-.
  pose proof (Split_length_pos text) as Hpos. fold lines in Hpos.
  assert (Hl : (l < length lines)%nat) by (unfold l, len; lia).
  pose proof (GetContent_partition lines l c Hl) as P. cbn zeta in P.
  fold cur in P. rewrite (Join_Split text : Join lines = text) in P.
  unfold before, after, backendAfter.
  cbn [ContentBefore ContentAfter ContentImmediatelyAfter].
  repeat split.
  - intros Hge. destruct (Nat.ltb_spec (S l) (length lines)); [lia|].
    rewrite skipn_all2 by lia. cbn [Join]. rewrite app_nil_r in P.
    change (Strings.eqb [] []) with true. exact P.
  - intros Hlt Hi Ha. destruct (Nat.ltb_spec (S l) (length lines)); [|lia].
    apply eqb_false_iff in Hi, Ha. rewrite Hi, Ha. exact P.
  - intros Hlt Hi Ha. destruct (Nat.ltb_spec (S l) (length lines)); [|lia].
    apply eqb_false_iff in Ha. rewrite Ha, Hi. rewrite Hi in P. exact P.
  - intros Hlt Ha. destruct (Nat.ltb_spec (S l) (length lines)); [|lia].
    rewrite Ha in P |- *. change (Strings.eqb [] []) with true. exact P.
Qed.

Lemma backendAfter_of_document_witness :
  let text := str "if x {" ++ LF :: str "  y()" ++ LF :: str "}" in
  exists content,
    GetContent text 0 6 = Some content
    /\ backendAfter content = str "  y()" ++ LF :: str "}"
    /\ text = ContentBefore content ++ LF :: backendAfter content.
Proof.
  intros text. eexists. split; [reflexivity|]. split; [reflexivity|].
  exact (proj1 (proj2 (proj2 (backendAfter_of_document text 0 6 _ eq_refl)))
           ltac:(vm_compute; lia) eq_refl ltac:(vm_compute; discriminate)).
Defined.

End ItemFacts.

(** ** The cleaner only cuts *)

Module PieceFacts.
Import Ollama CleanerFacts OllamaFacts TruncateFacts ItemFacts.

Lemma pieceOf_refl (a : gostring) : pieceOf a a.
Proof. exists [], []. now rewrite app_nil_r. Qed.

Lemma pieceOf_trans (a b c : gostring) :
  pieceOf a b -> pieceOf b c -> pieceOf a c.
Proof.
  intros (p1 & q1 & ->) (p2 & q2 & ->). exists (p2 ++ p1), (q1 ++ q2).
  now rewrite <- !app_assoc.
Qed.

Lemma pieceOf_prefix (a rest : gostring) : pieceOf a (a ++ rest).
Proof. now exists [], rest. Qed.

Lemma pieceOf_suffix (pre a : gostring) : pieceOf a (pre ++ a).
Proof. exists pre, []. now rewrite app_nil_r. Qed.

Lemma pieceOf_nil (b : gostring) : pieceOf [] b.
Proof. now exists [], b. Qed.

Lemma pieceOf_firstn (n : nat) (s : gostring) : pieceOf (firstn n s) s.
Proof. rewrite <- (firstn_skipn n s) at 2. apply pieceOf_prefix. Qed.

Lemma pieceOf_skipn (n : nat) (s : gostring) : pieceOf (skipn n s) s.
Proof. rewrite <- (firstn_skipn n s) at 2. apply pieceOf_suffix. Qed.

Lemma pieceOf_TrimLeft (s cs : gostring) : pieceOf (TrimLeft s cs) s.
Proof.
  destruct (TrimLeft_suffix s cs) as [p Hp]. exists p, [].
  now rewrite app_nil_r.
Qed.

Lemma pieceOf_TrimRight (s cs : gostring) : pieceOf (TrimRight s cs) s.
Proof.
  destruct (TrimRight_split s cs) as (ws & Hws & _). now exists [], ws.
Qed.

Lemma trimSpaceLeft_suffix (fuel : nat) (s : gostring) :
  exists p, s = p ++ trimSpaceLeft fuel s.
Proof.
  revert s. induction fuel as [|f IH]; intros s; [now exists []|].
  cbn [trimSpaceLeft]. destruct (spaceWidth s) as [|k]; [now exists []|].
  destruct (IH (skipn (S k) s)) as [p Hp]. exists (firstn (S k) s ++ p).
  rewrite <- app_assoc, <- Hp. now rewrite firstn_skipn.
Qed.

Lemma pieceOf_TrimSpace (s : gostring) : pieceOf (TrimSpace s) s.
Proof.
  unfold TrimSpace. set (l := trimSpaceLeft (length s) s).
  apply (pieceOf_trans _ l).
  - destruct (trimSpaceRev_suffix (length l) (rev l)) as [p Hp].
    apply (f_equal (@rev _)) in Hp. rewrite rev_involutive, rev_app_distr in Hp.
    now exists [], (rev p).
  - destruct (trimSpaceLeft_suffix (length s) s) as [p Hp]. fold l in Hp.
    exists p, []. now rewrite app_nil_r.
Qed.

Lemma pieceOf_dropLetters (s : gostring) : pieceOf (dropLetters s) s.
Proof.
  induction s as [|c s IH]; [apply pieceOf_refl|]. cbn [dropLetters].
  destruct (isLowerLetter c); [|apply pieceOf_refl].
  apply (pieceOf_trans _ s); [exact IH|]. apply (pieceOf_suffix [c]).
Qed.

Lemma pieceOf_stripCodeBlock (s : gostring) : pieceOf (stripCodeBlock s) s.
Proof.
  unfold stripCodeBlock, codeBlockSubmatch.
  destruct (Index s fence) as [i|]; [|apply pieceOf_refl].
  set (rest := dropLetters (skipn (i + 3) s)).
  assert (Hrest : pieceOf rest s).
  { apply (pieceOf_trans _ (skipn (i + 3) s));
      [apply pieceOf_dropLetters|apply pieceOf_skipn]. }
  set (rest' := match rest with
                | c :: r => if Ascii.eqb c LF then r else rest
                | [] => []
                end).
  assert (Hrest' : pieceOf rest' s).
  { apply (pieceOf_trans _ rest); [|exact Hrest]. unfold rest'.
    destruct rest as [|c r]; [apply pieceOf_refl|].
    destruct (Ascii.eqb c LF); [apply (pieceOf_suffix [c])|apply pieceOf_refl]. }
  destruct (Index rest' fence) as [q|]; [|apply pieceOf_refl].
  apply (pieceOf_trans _ (firstn q rest')); [apply pieceOf_TrimSpace|].
  apply (pieceOf_trans _ rest'); [apply pieceOf_firstn|exact Hrest'].
Qed.

Lemma pieceOf_cutAtTokens (s : gostring) : pieceOf (cutAtTokens s) s.
Proof.
  unfold cutAtTokens. generalize modelTokens. intros tokens.
  assert (H : forall r, pieceOf r s ->
    pieceOf (fold_left
               (fun response token =>
                  match Index response token with
                  | Some idx => firstn idx response
                  | None => response
                  end) tokens r) s).
  { induction tokens as [|t ts IH]; intros r Hr; [exact Hr|].
    cbn [fold_left]. apply IH. destruct (Index r t) as [idx|]; [|exact Hr].
    apply (pieceOf_trans _ r); [apply pieceOf_firstn|exact Hr]. }
  apply H, pieceOf_refl.
Qed.

Lemma pieceOf_stripChatPrefixes (s : gostring) : pieceOf (stripChatPrefixes s) s.
Proof.
  unfold stripChatPrefixes. generalize chatPrefixes. intros prefixes.
  generalize (ToLower (TrimSpace s)). intros lower.
  assert (H : forall r lower, pieceOf r s ->
    pieceOf (fst (fold_left
               (fun '(response, lower) prefix =>
                  if HasPrefix lower prefix
                  then
                    let response := TrimSpace (skipn (length prefix) response) in
                    (response, ToLower (TrimSpace response))
                  else (response, lower)) prefixes (r, lower))) s).
  { induction prefixes as [|p ps IH]; intros r lw Hr; [exact Hr|].
    cbn [fold_left]. destruct (HasPrefix lw p); [|now apply IH].
    apply IH. apply (pieceOf_trans _ (skipn (length p) r));
      [apply pieceOf_TrimSpace|].
    apply (pieceOf_trans _ r); [apply pieceOf_skipn|exact Hr]. }
  apply H, pieceOf_refl.
Qed.

Lemma pieceOf_stripLinePrefix (s before : gostring) :
  pieceOf (stripLinePrefix s before) s.
Proof.
  unfold stripLinePrefix. cbn zeta.
  destruct (negb _); [|apply pieceOf_refl].
  destruct (HasPrefix (TrimSpace s) _) eqn:E; [|apply pieceOf_refl].
  unfold TrimPrefix. rewrite E.
  apply (pieceOf_trans _ (skipn (length (currentLinePrefix before)) (TrimSpace s)));
    [apply pieceOf_TrimLeft|].
  apply (pieceOf_trans _ (TrimSpace s)); [apply pieceOf_skipn|apply pieceOf_TrimSpace].
Qed.

Lemma pieceOf_truncateAtWord (s word : gostring) :
  pieceOf (truncateAtWord s word) s.
Proof.
  destruct (truncateAtWord_cut s word) as [->|(ws & tail & E & _)];
    [apply pieceOf_refl|].
  now exists [], (ws ++ word ++ tail).
Qed.

Lemma pieceOf_truncateAtAfterOverlap (s after : gostring) :
  pieceOf (truncateAtAfterOverlap s after) s.
Proof.
  unfold truncateAtAfterOverlap.
  destruct (Strings.eqb after []); [apply pieceOf_refl|].
  destruct (Strings.eqb (TrimSpace after) []); [apply pieceOf_refl|].
  cbn zeta. destruct (_ <=? 1); [apply pieceOf_refl|].
  destruct (Fields _) as [|w1 rest]; [apply pieceOf_refl|].
  destruct (existsb _ skipTokens); [|apply pieceOf_truncateAtWord].
  destruct rest; [apply pieceOf_refl|apply pieceOf_truncateAtWord].
Qed.

Lemma pieceOf_Join_firstn (s : gostring) (n : nat) :
  pieceOf (Join (firstn n (Split s))) s.
Proof.
  destruct (Join_firstn_prefix (Split s) n) as [rest E].
  rewrite Join_Split in E. now exists [], rest.
Qed.

Lemma pieceOf_removeAfterDuplicates (s after : gostring) :
  pieceOf (removeAfterDuplicates s after) s.
Proof.
  unfold removeAfterDuplicates. cbn zeta.
  destruct (duplicateLoop_spec (Split s) (Split after)
              (Nat.min 3 (length (Split s))) ltac:(lia)) as (k & _ & _ & -> & _).
  apply pieceOf_Join_firstn.
Qed.

Lemma pieceOf_removeAfterFunctionDuplicates (s after : gostring) :
  pieceOf (removeAfterFunctionDuplicates s after) s.
Proof.
  unfold removeAfterFunctionDuplicates.
  destruct (_ || _); [apply pieceOf_refl|]. cbn zeta.
  destruct (_ <? 15); [apply pieceOf_refl|].
  destruct (functionLoop_spec s (Split s) (Split after)
              (skipn (length (Split s) / 2) (Split s)) (length (Split s) / 2))
    as [->|(j & _ & -> & _)]; [apply pieceOf_refl|].
  apply (pieceOf_trans _ (Join (firstn j (Split s))));
    [apply pieceOf_TrimRight|apply pieceOf_Join_firstn].
Qed.

Lemma pieceOf_cutAtAfter (s after : gostring) : pieceOf (cutAtAfter s after) s.
Proof.
  unfold cutAtAfter. destruct (negb _); [|apply pieceOf_refl].
  eapply pieceOf_trans; [apply pieceOf_removeAfterFunctionDuplicates|].
  eapply pieceOf_trans; [apply pieceOf_removeAfterDuplicates|].
  apply pieceOf_truncateAtAfterOverlap.
Qed.

Lemma pieceOf_first_line (s : gostring) : pieceOf (nth 0 (Split s) []) s.
Proof.
  pose proof (pieceOf_Join_firstn s 1) as H.
  destruct (Split s) as [|x xs] eqn:E; [now apply Split_nonempty in E|].
  exact H.
Qed.

Lemma pieceOf_limitStatement (s before : gostring) :
  pieceOf (limitStatement s before) s.
Proof.
  unfold limitStatement. cbn zeta.
  destruct (_ && _); [|apply pieceOf_refl].
  destruct (_ || _).
  - destruct (_ >=? 2); [apply pieceOf_first_line|apply pieceOf_refl].
  - destruct (_ >? 10); [|apply pieceOf_refl].
    destruct (_ && _); [apply pieceOf_first_line|apply pieceOf_refl].
Qed.

Lemma pieceOf_finalTrim (s : gostring) : pieceOf (finalTrim s) s.
Proof.
  unfold finalTrim. cbn zeta. destruct (_ <? 2); [apply pieceOf_nil|].
  eapply pieceOf_trans; [apply pieceOf_TrimLeft|].
  eapply pieceOf_trans; [apply pieceOf_TrimRight|]. apply pieceOf_TrimLeft.
Qed.

Lemma pieceOf_trimHint (hint : gostring) (content : ContentParts) :
  pieceOf (trimHint hint content) hint.
Proof.
  unfold trimHint. cbn zeta.
  assert (H : pieceOf (TrimRight (TrimLeft hint [LF]) [SP; TAB; LF]) hint).
  { eapply pieceOf_trans; [apply pieceOf_TrimRight|apply pieceOf_TrimLeft]. }
  destruct (_ && _); [|exact H].
  eapply pieceOf_trans; [apply pieceOf_TrimSpace|].
  eapply pieceOf_trans; [apply pieceOf_skipn|exact H].
Qed.

(** X18.  The cleaner only cuts.  What [cleanCompletion] returns is a run
    of consecutive bytes of the model's response: nothing is added and
    nothing is reordered, so that it is no longer than the response and
    has no byte the response does not have.  The same holds for the text
    [buildCompletionItem] inserts for it. *)
Theorem cleanCompletion_only_cuts (response before after : gostring) :
  let completion := cleanCompletion response before after in
  pieceOf completion response
  /\ len completion <= len response
  /\ (forall c, In c completion -> In c response)
  /\ (forall content position index,
        pieceOf (Detail (buildCompletionItem completion content position index))
          response).
Proof.
  intros completion.
  assert (H : pieceOf completion response).
  { unfold completion, cleanCompletion.
    destruct (Strings.eqb response []); [apply pieceOf_nil|]. cbn zeta.
    eapply pieceOf_trans; [apply pieceOf_finalTrim|].
    eapply pieceOf_trans; [apply pieceOf_limitStatement|].
    eapply pieceOf_trans; [apply pieceOf_cutAtAfter|].
    eapply pieceOf_trans; [apply pieceOf_stripLinePrefix|].
    eapply pieceOf_trans; [apply pieceOf_stripChatPrefixes|].
    eapply pieceOf_trans; [apply pieceOf_cutAtTokens|].
    eapply pieceOf_trans; [|apply pieceOf_stripCodeBlock].
    unfold Trim.
    eapply pieceOf_trans; [apply pieceOf_TrimRight|apply pieceOf_TrimLeft]. }
  split; [exact H|]. split; [|split].
  - destruct H as (pre & post & E). rewrite E. unfold len.
    rewrite !length_app. lia.
  - intros c Hc. destruct H as (pre & post & E). rewrite E.
    apply in_or_app. right. apply in_or_app. now left.
  - intros content position index.
    change (Detail (buildCompletionItem completion content position index))
      with (trimHint completion content).
    eapply pieceOf_trans; [apply pieceOf_trimHint|exact H].
Qed.

End PieceFacts.

(** ** The request in debounce *)

Module LifecycleFacts.

Lemma pendingFresh_same (w w' : World) :
  timers w' = timers w -> handler w' = handler w -> ctxs w' = ctxs w ->
  pendingFresh w -> pendingFresh w'.
Proof.
  intros Et Eh Ec H tm r Hl. rewrite Eh, Ec. rewrite Et in Hl. exact (H tm r Hl).
Qed.

Lemma pendingFresh_noPending (w : World) : noPending w -> pendingFresh w.
Proof. intros H tm r Hl. exfalso. exact (H tm r Hl). Qed.

Lemma scheduleCompletion_fresh (msg : JSONRPCMessage) (params : CompletionParams)
    (buffer : Buffer) (content : ContentParts) (w : World) :
  timersOwned w ->
  pendingFresh (scheduleCompletion msg params buffer content w).
Proof.
  intros Ho. unfold scheduleCompletion.
  destruct (stopPending_spec 0 (cancelPrevious w)
              (timersOwned_cancelPrevious w Ho)) as (Hnp & _).
  set (w2 := stopPending (cancelPrevious w)) in *.
  cbn zeta. destruct (_ && _).
  - apply pendingFresh_noPending. intros tm r H. exact (Hnp tm r H).
  - intros tm r H. cbn [timers with_handler with_timers with_ctxs handler ctxs] in *.
    destruct (Nat.lt_ge_cases tm (length (timers w2))) as [Hlt|Hge].
    + rewrite lookup_app_l in H by exact Hlt. exfalso. exact (Hnp tm r H).
    + assert (tm = length (timers w2)).
      { apply lookup_lt_Some in H. rewrite length_app in H. simpl in H. lia. }
      subst tm. rewrite list_lookup_middle in H by reflexivity.
      injection H as <-. cbn [r_reqID r_ctx requestID cancelCurrent].
      split; [reflexivity|]. split; [reflexivity|].
      now rewrite list_lookup_middle.
Qed.

Lemma step_fresh (cfg : Config) (w w' : World) (e : Event) :
  step cfg w e = Some w' -> timersOwned w -> pendingFresh w -> pendingFresh w'.
Proof.
  destruct e as [msg|tm|th|th out|th|uri b|dt]; cbn [step]; intros H Ho Hf.
  - unfold onCompletion in H.
    destruct (Params msg) as [params|];
      [|injection H as <-; now apply (pendingFresh_same w)].
    destruct (store w !! URI params) as [buffer|];
      [|injection H as <-; now apply (pendingFresh_same w)].
    destruct (GetContent _ _ _) as [content|]; [|discriminate].
    destruct (shouldSkip _ _); injection H as <-.
    + now apply (pendingFresh_same w).
    + now apply scheduleCompletion_fresh.
  - unfold fire in H. destruct (timers w !! tm) as [[r| |]|] eqn:Hl; try discriminate.
    injection H as <-. intros tm' r' H.
    cbn [timers with_threads with_timers handler ctxs] in *.
    destruct (Nat.eq_dec tm' tm) as [->|Hne].
    + rewrite list_lookup_insert_eq in H by (eapply lookup_lt_Some; eauto).
      discriminate.
    + rewrite list_lookup_insert_ne in H by congruence. exact (Hf tm' r' H).
  - unfold executeStep in H.
    destruct (threads w !! th) as [t|]; [|discriminate].
    destruct (t_pc t); try discriminate.
    + destruct (negb _); injection H as <-; now apply (pendingFresh_same w).
    + destruct (store w !! _) as [b|];
        [destruct (_ >? _)|]; injection H as <-; now apply (pendingFresh_same w).
    + destruct (default false _); injection H as <-; now apply (pendingFresh_same w).
  - unfold executeReturn in H.
    destruct (threads w !! th) as [t|]; [|discriminate].
    destruct (t_pc t); try discriminate.
    destruct out as [hints| |]; [destruct (_ =? _)| |]; injection H as <-;
      now apply (pendingFresh_same w).
  - unfold executePanic in H.
    destruct (threads w !! th) as [t|]; [|discriminate].
    destruct (t_pc t); try discriminate; injection H as <-;
      now apply (pendingFresh_same w).
  - injection H as <-. now apply (pendingFresh_same w).
  - destruct (dt <? 0); [discriminate|]. injection H as <-.
    now apply (pendingFresh_same w).
Qed.

Lemma run_fresh (cfg : Config) (evs : list Event) (w w' : World) :
  run cfg w evs = Some w' -> timersOwned w -> pendingFresh w ->
  timersOwned w' /\ pendingFresh w'.
Proof.
  revert w. induction evs as [|e evs IH]; intros w H Ho Hf.
  - injection H as <-. auto.
  - cbn [run] in H. destruct (step cfg w e) as [w1|] eqn:Hs; [|discriminate].
    destruct (step_invariant cfg w w1 e 0 Hs Ho) as [Ho1 _].
    apply (IH w1 H Ho1). eapply step_fresh; eauto.
Qed.

(** X11.  In every world reached from the start at most one request is in
    debounce, and it is the handler's: its timer is [h.timer], its message
    id is [h.pendingMsgID], its number is the current [requestID], and its
    context is the one [h.cancelCurrent] cancels, not cancelled yet. *)
Theorem one_request_in_debounce (cfg : Config) (evs : list Event) (w : World) :
  run cfg initWorld evs = Some w ->
  (forall tm1 tm2 r1 r2,
     timers w !! tm1 = Some (TPending r1) ->
     timers w !! tm2 = Some (TPending r2) -> tm1 = tm2)
  /\ (forall tm r,
        timers w !! tm = Some (TPending r) ->
        timer (handler w) = Some tm
        /\ pendingMsgID (handler w) = ID (r_msg r)
        /\ r_reqID r = requestID (handler w)
        /\ cancelCurrent (handler w) = Some (r_ctx r)
        /\ ctxs w !! r_ctx r = Some false).
Proof.
  intros Hrun.
  destruct (run_fresh cfg evs initWorld w Hrun timersOwned_init) as [Ho Hf].
  { apply pendingFresh_noPending. intros tm r H. cbn in H. discriminate. }
  split.
  - intros tm1 tm2 r1 r2 H1 H2.
    destruct (Ho tm1 r1 H1) as [E1 _]. destruct (Ho tm2 r2 H2) as [E2 _].
    congruence.
  - intros tm r H. destruct (Ho tm r H) as [E1 E2].
    destruct (Hf tm r H) as (E3 & E4 & E5). auto.
Qed.

Lemma one_request_in_debounce_witness :
  exists w, run demoCfg initWorld
              [SetBuffer demoURI (Some demoBuffer); Trigger msgA;
               Tick (1000 * Millisecond); Trigger msgB] = Some w
    /\ timers w = [TStopped; TPending
         (mkRequest 1 msgB (mkCompletionParams demoURI (mkPosition 0 7)) 1
            demoURI (str "go")
            (mkContentParts (str "x := ma") [] (str "a") (str "x := ma") []) 2)]
    /\ (forall tm r,
          timers w !! tm = Some (TPending r) ->
          timer (handler w) = Some tm
          /\ pendingMsgID (handler w) = ID (r_msg r)
          /\ r_reqID r = requestID (handler w)
          /\ cancelCurrent (handler w) = Some (r_ctx r)
          /\ ctxs w !! r_ctx r = Some false).
Proof.
  eexists. split; [vm_compute; reflexivity|]. split; [reflexivity|].
  apply (one_request_in_debounce demoCfg
           [SetBuffer demoURI (Some demoBuffer); Trigger msgA;
            Tick (1000 * Millisecond); Trigger msgB]).
  vm_compute; reflexivity.
Defined.

(** X12.  A duplicate trigger (same text before the cursor, less than
    500ms after the last trigger) that arrives while a request is in
    debounce cancels both: the pending request and the new one are each
    answered with the empty list, the timer is stopped, no request is
    scheduled, no goroutine is started and no backend call is made;
    [requestID], [lastTrigger] and [lastContent] stay as they were. *)
Theorem duplicate_trigger_cancels_both (msg : JSONRPCMessage)
    (params : CompletionParams) (buffer : Buffer) (content : ContentParts)
    (w : World) (t : nat) (r : Request) (id t0 : Z) :
  timer (handler w) = Some t ->
  timers w !! t = Some (TPending r) ->
  pendingMsgID (handler w) = Some id ->
  lastContent (handler w) = ContentBefore content ->
  lastTrigger (handler w) = Some t0 ->
  now w - t0 < 500 * Millisecond ->
  let w' := scheduleCompletion msg params buffer content w in
  sent w' = sent w ++ [mkResponse (Some id) []; mkResponse (ID msg) []]
  /\ timers w' = <[t := TStopped]> (timers w)
  /\ handler w'
     = mkHandler None None (requestID (handler w)) (Some t0)
         (ContentBefore content) None
  /\ threads w' = threads w
  /\ calls w' = calls w.
Proof.
  intros Ht Hl Hp Hc Ht0 Hnow w'.
  destruct (cancelPrevious_keeps w) as (Eh & Et & Eth & Es & Ec & _).
  assert (Hstop : stopPending (cancelPrevious w)
                  = sendEmptyCompletion (Some id)
                      (with_timers (<[t := TStopped]> (timers w)) (cancelPrevious w))).
  { unfold stopPending, timerStop. rewrite Eh, Ht, Et, Hl.
    cbn [handler with_timers]. now rewrite Eh, Hp. }
  unfold w', scheduleCompletion. rewrite Hstop. cbn zeta.
  cbn [handler sendEmptyCompletion Send with_timers now].
  rewrite Eh, Hc, Ht0.
  assert (Hnow' : now (cancelPrevious w) = now w).
  { unfold cancelPrevious. destruct (cancelCurrent _); reflexivity. }
  rewrite Hnow'.
  assert (Hdup : Strings.eqb (ContentBefore content) (ContentBefore content)
                 && (now w - t0 <? 500 * Millisecond) = true).
  { apply andb_true_iff. split; [now apply eqb_true_iff|now apply Z.ltb_lt]. }
  rewrite Hdup.
  cbn [sent timers handler threads calls sendEmptyCompletion Send with_handler
       with_timers].
  rewrite Es, Eth, Ec. rewrite <- app_assoc. repeat split.
Qed.


Lemma duplicate_trigger_cancels_both_witness :
  let content := mkContentParts (str "x := ma") [] (str "a") (str "x := ma") [] in
  let w' := scheduleCompletion msgB (mkCompletionParams demoURI (mkPosition 0 7))
              demoBuffer content staleWorld in
  sent w' = [mkResponse (Some 1) []; mkResponse (Some 2) []]
  /\ timers w' = [TStopped].
Proof.
  intros content w'.
  destruct (duplicate_trigger_cancels_both msgB
              (mkCompletionParams demoURI (mkPosition 0 7)) demoBuffer content
              staleWorld 0%nat _ 1 0 eq_refl eq_refl eq_refl eq_refl eq_refl
              ltac:(vm_compute; reflexivity)) as (H1 & H2 & _).
  split; [exact H1|exact H2].
Defined.

End LifecycleFacts.

(** ** Backend calls *)

Module BackendCallFacts.













End BackendCallFacts.

(** ** A current request runs to its answer *)

Module ExecuteFacts.

Lemma buildItems_Detail (hints : list gostring) (content : ContentParts)
    (position : Position) (i : Z) :
  map Detail (buildItems hints content position i)
  = map (fun h => trimHint h content) hints.
Proof.
  revert i. induction hints as [|h hints IH]; intros i; [reflexivity|].
  cbn [buildItems map]. now rewrite IH.
Qed.

Lemma executeReturn_kept (th : nat) (out : Outcome) (w : World) (t : Thread) :
  threads w !! th = Some t -> t_pc t = PAwait ->
  executeReturn th out w
  = Some (finish th t
            (Send (mkResponse (ID (r_msg (t_req t)))
                     (buildItems (keptHints out) (r_content (t_req t))
                        (Pos (r_params (t_req t))) 0)) w)).
Proof.
  intros Ht Hpc. unfold executeReturn. rewrite Ht, Hpc.
  destruct out as [hints| |]; cbn [keptHints buildItems]; try reflexivity.
  destruct (filter _ hints) as [|h l] eqn:E; [reflexivity|].
  assert (Hn : (len (h :: l) =? 0) = false)
    by (apply Z.eqb_neq; unfold len; cbn [length]; lia).
  now rewrite Hn.
Qed.

(** X17.  A request that is still current when its goroutine runs, with
    its document unchanged and its context not cancelled, makes one
    backend call and gets exactly one response: one item per hint that
    passes the filter for valid hints, in the backend's order and with the
    trimmed hint as its text, or the empty list when the backend fails or
    panics or no hint passes.  The handler and the timers are left as they
    were. *)
Theorem current_request_is_answered (cfg : Config) (th : nat) (out : Outcome)
    (w : World) (t : Thread) (b : Buffer) :
  threads w !! th = Some t ->
  t_pc t = PCheckCurrent ->
  requestID (handler w) = r_reqID (t_req t) ->
  store w !! r_uri (t_req t) = Some b ->
  Version b <= r_version (t_req t) ->
  ctxs w !! r_ctx (t_req t) = Some false ->
  let r := t_req t in
  let items :=
    buildItems (keptHints out) (r_content r) (Pos (r_params r)) 0 in
  exists w',
    executeCompletion cfg th out w = Some w'
    /\ sent w' = sent w ++ [mkResponse (ID (r_msg r)) items]
    /\ map Detail items = map (fun h => trimHint h (r_content r)) (keptHints out)
    /\ calls w'
       = calls w
         ++ [mkBackendCall (r_reqID r) (ContentBefore (r_content r))
               (backendAfter (r_content r)) (r_uri r) (r_languageID r)
               (NumSuggestions cfg)]
    /\ threads w' !! th = Some (mkThread r PDone)
    /\ handler w' = handler w
    /\ timers w' = timers w.
Proof.
  intros Ht Hpc Hcur Hb Hv Hctx r items. unfold executeCompletion.
  (* the request is still current *)
  set (w1 := goto th t PCheckBuffer w).
  assert (Hs1 : executeStep cfg th w = Some w1).
  { unfold executeStep. rewrite Ht, Hpc, Hcur, Z.eqb_refl. reflexivity. }
  rewrite (runThread_step cfg th out 3 w w1 t Ht) by (congruence || exact Hs1).
  pose proof (goto_lookup th t PCheckBuffer w Ht) as Hg1. fold w1 in Hg1.
  set (t1 := mkThread (t_req t) PCheckBuffer) in *.
  (* the document has not changed *)
  set (w2 := goto th t1 PCheckCtx w1).
  assert (Hs2 : executeStep cfg th w1 = Some w2).
  { unfold executeStep. rewrite Hg1. cbn [t_pc t_req t1].
    change (store w1) with (store w). rewrite Hb.
    assert (Hle : (Version b >? r_version (t_req t)) = false).
    { rewrite Z.gtb_ltb. apply Z.ltb_ge. lia. }
    now rewrite Hle. }
  rewrite (runThread_step cfg th out 2 w1 w2 t1 Hg1) by (discriminate || exact Hs2).
  pose proof (goto_lookup th t1 PCheckCtx w1 Hg1) as Hg2. fold w2 in Hg2.
  cbn [t_req t1] in Hg2.
  set (t2 := mkThread (t_req t) PCheckCtx) in *.
  (* the context is not cancelled: the backend is called *)
  set (call := mkBackendCall (r_reqID r) (ContentBefore (r_content r))
                 (backendAfter (r_content r)) (r_uri r) (r_languageID r)
                 (NumSuggestions cfg)).
  set (w3 := goto th t2 PAwait (with_calls (calls w2 ++ [call]) w2)).
  assert (Hs3 : executeStep cfg th w2 = Some w3).
  { unfold executeStep. rewrite Hg2. cbn [t_pc t_req t2].
    change (ctxs w2) with (ctxs w). rewrite Hctx. reflexivity. }
  rewrite (runThread_step cfg th out 1 w2 w3 t2 Hg2) by (discriminate || exact Hs3).
  assert (Hg3 : threads w3 !! th = Some (mkThread (t_req t) PAwait)).
  { exact (goto_lookup th t2 PAwait (with_calls (calls w2 ++ [call]) w2) Hg2). }
  set (t3 := mkThread (t_req t) PAwait) in *.
  (* the backend call is over *)
  cbn [runThread]. rewrite Hg3. cbn [t_pc t3].
  rewrite (executeReturn_kept th out w3 t3 Hg3 eq_refl).
  eexists. split; [reflexivity|].
  split; [reflexivity|]. split; [apply buildItems_Detail|].
  split; [reflexivity|]. split; [|split; reflexivity].
  exact (finish_lookup th t3 _ Hg3).
Qed.

Lemma current_request_is_answered_witness :
  exists w,
    run demoCfg initWorld fireTrace = Some w
    /\ exists w',
         executeCompletion demoCfg 0
           (Hints [str "ke(T)" ++ [LF]; str " "; str "p(k)"]) w = Some w'
         /\ summary w' = [(Some 1, [str "ke(T)"; str "p(k)"])]
         /\ length (calls w') = 1%nat.
Proof.
  eexists. split; [vm_compute; reflexivity|].
  match goal with
  | |- exists w', executeCompletion _ _ ?out ?w = _ /\ _ =>
      destruct (current_request_is_answered demoCfg 0 out w _ demoBuffer
                  eq_refl eq_refl eq_refl eq_refl
                  ltac:(vm_compute; discriminate) eq_refl)
        as (w' & He & Hs & _ & Hc & _)
  end.
  exists w'. split; [exact He|]. unfold summary. rewrite Hs, Hc.
  split; vm_compute; reflexivity.
Defined.

End ExecuteFacts.

(** ** The sequential [Completion] *)

Module SequentialFacts.
Import OllamaSequential.

Lemma responsesOf_app (a b : list Ollama.Reply) :
  responsesOf (a ++ b) = responsesOf a ++ responsesOf b.
Proof.
  induction a as [|[| |r] a IH]; cbn [app responsesOf]; try exact IH.
  - reflexivity.
  - destruct (negb _); [cbn [app]; now rewrite IH|exact IH].
Qed.

(** The loop, [k] rounds before its first failed attempt. *)
Lemma completionLoop_responses (replies : nat -> Ollama.Reply)
    (k i todo : nat) (results : list gostring) :
  (k <= todo)%nat ->
  (forall j, (j < k)%nat -> isResponse (replies (i + j)%nat) = true) ->
  completionLoop replies i todo results
  = completionLoop replies (i + k) (todo - k)
      (results ++ responsesOf (map replies (seq i k))).
Proof.
  revert i todo results. induction k as [|k IH]; intros i todo results Hk Hok.
  - cbn [seq map responsesOf]. rewrite app_nil_r, Nat.add_0_r, Nat.sub_0_r.
    reflexivity.
  - destruct todo as [|todo]; [lia|].
    pose proof (Hok 0%nat ltac:(lia)) as H0. rewrite Nat.add_0_r in H0.
    cbn [completionLoop seq map responsesOf].
    destruct (replies i) as [| |r]; try discriminate.
    rewrite (IH (S i) todo) by
      (try lia; intros j Hj; replace (S i + j)%nat with (i + S j)%nat by lia;
       apply Hok; lia).
    replace (S i + k)%nat with (i + S k)%nat by lia.
    replace (S todo - S k)%nat with (todo - k)%nat by lia.
    f_equal. destruct (negb _); [now rewrite <- app_assoc|reflexivity].
Qed.

(** X16.  The sequential [Completion] stops at the first failed attempt.
    With [k] the number of attempts before it (all [numSuggestions]
    attempts when none fails), it returns the error of that attempt when
    no non-empty response came before it, and otherwise the non-empty
    responses of these [k] attempts, in order, without duplicates.  A list
    it returns has no duplicate and no empty string, and is empty when
    [numSuggestions] is 0.  With a negative [numSuggestions] it panics. *)
Theorem sequential_Completion_stops_at_first_failure
    (numSuggestions : Z) (replies : nat -> Ollama.Reply) (k : nat) :
  (k <= Z.to_nat numSuggestions)%nat ->
  (forall j, (j < k)%nat -> isResponse (replies j) = true) ->
  (k = Z.to_nat numSuggestions \/ isResponse (replies k) = false) ->
  let got := responsesOf (map replies (seq 0 k)) in
  Completion numSuggestions replies
  = (if numSuggestions <? 0 then None
     else if (k <? Z.to_nat numSuggestions)%nat && negb (len got >? 0)
     then Some (inr (errorOf (replies k)))
     else Some (inl (Util.UniqueStrings got)))
  /\ (forall l, Completion numSuggestions replies = Some (inl l) ->
        NoDup l /\ (forall x, x ∈ l -> x <> [])
        /\ (numSuggestions = 0 -> l = [])).
Proof.
  intros Hk Hok Hend got.
  assert (E : Completion numSuggestions replies
    = (if numSuggestions <? 0 then None
       else if (k <? Z.to_nat numSuggestions)%nat && negb (len got >? 0)
       then Some (inr (errorOf (replies k)))
       else Some (inl (Util.UniqueStrings got)))).
  { unfold Completion. destruct (numSuggestions <? 0); [reflexivity|].
    rewrite (completionLoop_responses replies k 0 _ [] Hk Hok).
    cbn [app Nat.add]. fold got.
    destruct (Nat.ltb_spec k (Z.to_nat numSuggestions)) as [Hlt|Hge].
    - destruct Hend as [->|Hf]; [lia|].
      destruct (Z.to_nat numSuggestions - k)%nat as [|todo] eqn:Et; [lia|].
      cbn [completionLoop andb].
      destruct (len got >? 0); cbn [negb];
        destruct (replies k); try discriminate; reflexivity.
    - replace (Z.to_nat numSuggestions - k)%nat with 0%nat by lia.
      reflexivity. }
  split; [exact E|]. intros l Hl. rewrite E in Hl.
  destruct (numSuggestions <? 0); [discriminate|].
  destruct (_ && _); [discriminate|]. injection Hl as <-.
  destruct (UtilFacts.uniqueFold_inv got ([], ∅) [] UtilFacts.uniqueInv_init)
    as (Hnd & _ & Hmem & _).
  cbn [app] in Hnd, Hmem. fold (Util.UniqueStrings got) in Hnd, Hmem.
  split; [exact Hnd|]. split.
  - intros x Hx. apply Hmem in Hx. unfold got in Hx. clear -Hx.
    induction (map replies (seq 0 k)) as [|[| |r] rs IH]; cbn [responsesOf] in Hx.
    + now apply not_elem_of_nil in Hx.
    + auto.
    + auto.
    + destruct (Strings.eqb r []) eqn:Er; cbn [negb] in Hx; [auto|].
      apply elem_of_cons in Hx as [->|Hx]; [|auto].
      now apply eqb_false_iff in Er.
  - intros Hn. assert (k = 0%nat) by lia. subst k. reflexivity.
Qed.

Lemma sequential_Completion_stops_at_first_failure_witness :
  let replies := fun i : nat =>
    match i with
    | 0%nat => Ollama.Response (str "foo()")
    | 1%nat => Ollama.Response []
    | 2%nat => Ollama.Response (str "foo()")
    | 3%nat => Ollama.ParseError
    | _ => Ollama.Response (str "bar()")
    end in
  Completion 5 replies = Some (inl [str "foo()"])
  /\ Completion 5 (fun i => replies (i + 3)%nat) = Some (inr ErrParse)
  /\ Completion (-1) replies = None.
Proof.
  intros replies. split; [|split].
  - exact (proj1 (sequential_Completion_stops_at_first_failure 5 replies 3
             ltac:(vm_compute; lia)
             ltac:(intros [|[|[|j]]] Hj; [reflexivity..|lia])
             (or_intror eq_refl))).
  - exact (proj1 (sequential_Completion_stops_at_first_failure 5
             (fun i => replies (i + 3)%nat) 0
             ltac:(vm_compute; lia) ltac:(intros j Hj; lia)
             (or_intror eq_refl))).
  - exact (proj1 (sequential_Completion_stops_at_first_failure (-1) replies 0
             ltac:(vm_compute; lia) ltac:(intros j Hj; lia)
             (or_introl eq_refl))).
Defined.

End SequentialFacts.
